(** * Lidify sidecars: a shallow embedding and its verified properties

    Two FastAPI services are modelled here:
    - [Tidal]   : services/tidal-downloader/app.py  (the track download sidecar)
    - [YTMusic] : services/ytmusic-streamer/app.py  (the channel streaming sidecar)

    Python values are modelled as follows.  A [str] is a [string]; the
    characters the code inspects are all ASCII, and the bytes of a
    non-ASCII code point never coincide with one of them.  A [dict] used as
    a map is a [gmap]; a Python exception is a value of [exn] carried on the
    left of a sum; timestamps ([time.time()]) are rationals. *)

From Stdlib Require Import ZArith QArith Lqa List String Ascii Lia.
From stdpp Require Import base option list gmap strings pretty.

Local Open Scope Z_scope.

(** ** Python string primitives used by the two services *)

Module PyStr.

(** [c in chars] for a one-character [c]. *)
Fixpoint mem (c : ascii) (chars : string) : bool :=
  match chars with
  | EmptyString => false
  | String d rest => if Ascii.eqb c d then true else mem c rest
  end.

(** [s.replace(old, new)] where [old] and [new] are single characters. *)
Fixpoint replace (old new : ascii) (s : string) : string :=
  match s with
  | EmptyString => EmptyString
  | String c rest =>
      String (if Ascii.eqb c old then new else c) (replace old new rest)
  end.

(** [s.lstrip(chars)] *)
Fixpoint lstrip (chars : string) (s : string) : string :=
  match s with
  | EmptyString => EmptyString
  | String c rest => if mem c chars then lstrip chars rest else s
  end.

(** [s.rstrip(chars)] *)
Fixpoint rstrip (chars : string) (s : string) : string :=
  match s with
  | EmptyString => EmptyString
  | String c rest =>
      match rstrip chars rest with
      | EmptyString => if mem c chars then EmptyString else String c EmptyString
      | kept => String c kept
      end
  end.

(** [s.strip(chars)]: both ends. *)
Definition strip (chars : string) (s : string) : string :=
  rstrip chars (lstrip chars s).

(** [s.split(sep)] for a one-character separator: never returns [[]]. *)
Fixpoint split (sep : ascii) (s : string) : list string :=
  match s with
  | EmptyString => [EmptyString]
  | String c rest =>
      if Ascii.eqb c sep then EmptyString :: split sep rest
      else match split sep rest with
           | piece :: pieces => String c piece :: pieces
           | [] => [String c EmptyString]
           end
  end.

(** [sep.join(parts)] *)
Definition join (sep : string) (parts : list string) : string :=
  String.concat sep parts.

(** Truthiness of a [str]: non-empty. *)
Definition nonempty (s : string) : bool :=
  match s with EmptyString => false | _ => true end.

(** [needle in hay] *)
Fixpoint contains (needle hay : string) : bool :=
  if String.prefix needle hay then true
  else match hay with
       | EmptyString => false
       | String _ rest => contains needle rest
       end.

(** [s.lower()] on the ASCII letters. *)
Definition lower_char (c : ascii) : ascii :=
  let n := N_of_ascii c in
  if ((65 <=? n) && (n <=? 90))%N then ascii_of_N (n + 32) else c.

Fixpoint lower (s : string) : string :=
  match s with
  | EmptyString => EmptyString
  | String c rest => String (lower_char c) (lower rest)
  end.

(** Character-wise map, used to state what a chain of [replace] does. *)
Fixpoint map (f : ascii -> ascii) (s : string) : string :=
  match s with
  | EmptyString => EmptyString
  | String c rest => String (f c) (map f rest)
  end.

Definition last_char (s : string) : option ascii :=
  last (list_ascii_of_string s).

Definition first_char (s : string) : option ascii :=
  match s with EmptyString => None | String c _ => Some c end.

End PyStr.

(** ** Exceptions and the state-and-exception monad of a request handler *)

(** The exception classes the two services distinguish.  [Exception] stands
    for every other subclass of Python's [Exception] (ValueError, OSError,
    JSONDecodeError, ...); its argument is the text [str(e)]. *)
Inductive exn : Type :=
| HTTPException (status_code : Z) (detail : string)
| ApiError (msg : string)
| Exception (msg : string).

(** [str(e)] *)
Definition exn_str (e : exn) : string :=
  match e with
  | HTTPException status detail => pretty status +:+ ": " +:+ detail
  | ApiError msg => msg
  | Exception msg => msg
  end.

Definition outcome (A : Type) : Type := exn + A.

(** A handler is a function of the state that returns a value or raises, and
    in both cases leaves a state behind: what was written before a [raise]
    stays written. *)
Definition M (S A : Type) : Type := S -> outcome A * S.

Definition ret {S A} (a : A) : M S A := fun s => (inr a, s).
Definition raise {S A} (e : exn) : M S A := fun s => (inl e, s).
Definition bind {S A B} (c : M S A) (k : A -> M S B) : M S B :=
  fun s => match c s with
           | (inl e, s') => (inl e, s')
           | (inr a, s') => k a s'
           end.

(** [try: body  except Exception as e: handler(e)] *)
Definition try_except {S A} (body : M S A) (handler : exn -> M S A) : M S A :=
  fun s => match body s with
           | (inl e, s') => handler e s'
           | (inr a, s') => (inr a, s')
           end.

(** The result of a pure library call that may raise. *)
Definition lift_outcome {S A} (r : outcome A) : M S A := fun s => (r, s).

Definition gets {S A} (f : S -> A) : M S A := fun s => (inr (f s), s).
Definition modify {S} (f : S -> S) : M S unit := fun s => (inr tt, f s).

Declare Scope py_scope.
Delimit Scope py_scope with py.
Notation "'let*' x ':=' c 'in' k" := (bind c (fun x => k))
  (at level 10, x name, c at level 100, k at level 200) : py_scope.
Notation "'let*' ' p ':=' c 'in' k" := (bind c (fun x => match x with p => k end))
  (at level 10, p pattern, c at level 100, k at level 200) : py_scope.
Notation "c1 ;;; c2" := (bind c1 (fun _ => c2))
  (at level 100, c2 at level 200, right associativity) : py_scope.
Local Open Scope py_scope.

(** ** The track download sidecar (services/tidal-downloader/app.py) *)

Module Tidal.

(** *** Data the platform library hands over *)

Record Track := {
  track_id : Z;
  track_title : string;
  track_album_id : Z;              (* track.album.id *)
  track_artists : list string;     (* [a.name for a in track.artists] *)
  track_isrc : string;
}.

Record Video := { video_id : Z; video_title : string }.

(** The [item] of an album entry: a track carries an [isrc] attribute, a
    video does not. *)
Inductive Media := MTrack (t : Track) | MVideo (v : Video).

(** An album entry; [None] when the entry has no [item] attribute. *)
Record AlbumItem := { item : option Media }.

Record AlbumItems := {
  items : list AlbumItem;
  limit : Z;
  totalNumberOfItems : Z;
}.

Record Album := {
  album_title : string;
  album_artist : option string;       (* album.artist.name *)
  album_cover : option string;
  album_releaseDate : option string;  (* str(album.releaseDate.date()) *)
}.

Record TrackStream := { audioQuality : string; manifest : string }.

(** The client handle built by [_build_api]. *)
Record TidalAPI := {
  api_token : string;
  api_user_id : string;
  api_country_code : string;
  api_cache_name : string;
  api_omit_cache : bool;
}.

(** *** Requests and responses *)

Record DownloadAlbumRequest := {
  req_album_id : Z;
  req_quality : string;
  req_output_template : string;
}.

Record DownloadResult := {
  res_track_id : Z;
  res_title : string;
  res_artist : string;
  res_album : string;
  res_quality : string;
  res_file_path : string;
  res_relative_path : string;
  res_file_size : nat;
}.

Record TrackError := {
  err_track_id : Z;
  err_title : string;
  err_error : string;
}.

Record AlbumResponse := {
  resp_album_id : Z;
  resp_album_title : string;
  resp_artist : string;
  resp_total_tracks : nat;
  resp_downloaded : nat;
  resp_failed : nat;
  resp_tracks : list DownloadResult;
  resp_errors : list TrackError;
}.

(** *** Observable calls, in the order they are made *)

Inductive Event :=
| EvGetAlbumItems (album_id limit offset : Z)
| EvSleep (delay : Q)                  (* await asyncio.sleep(delay) *)
| EvDownloadTrack (track_id : Z)       (* asyncio.to_thread(_download_track_sync, ...) *)
| EvExtractFlac (src dst : string)
| EvMove (src dst : string).

(** *** State: the library tree, the outside world, the call trace

    The file store maps a path to the bytes of the file there;
    directories are implicit, and a write to the store succeeds. *)

Record State (World : Type) := mkState {
  files : gmap string string;
  world : World;
  trace : list Event;
}.
Arguments mkState {World}.
Arguments files {World}.
Arguments world {World}.
Arguments trace {World}.

(** *** The platform library and the process environment

    Everything the service calls but does not define: the [tiddl] client
    (network calls change the world and may raise), its pure helpers, the
    ffmpeg pass and the tagger (which also touch the file store),
    [float()] on an environment string, and [os.environ]. *)

Class Platform (World : Type) := {
  get_track : TidalAPI -> Z -> World -> outcome Track * World;
  get_album : TidalAPI -> Z -> World -> outcome Album * World;
  get_album_items :
    TidalAPI -> Z -> Z -> Z -> World -> outcome AlbumItems * World;
  get_track_stream :
    TidalAPI -> Z -> string -> World -> outcome TrackStream * World;
  format_template : string -> Track -> Album -> outcome string;
  parse_track_stream : TrackStream -> outcome (list string * string);
  download_bytes : list string -> World -> outcome string * World;
  extract_flac :
    string -> string -> gmap string string -> World ->
    outcome unit * gmap string string * World;
  add_track_metadata :
    string -> Track -> Album -> string -> string -> option string ->
    gmap string string -> World -> outcome unit * gmap string string * World;
  py_float : string -> outcome Q;
  environ : gmap string string;
}.

Section Sidecar.
Context {World : Type} `{Platform World}.

Abbreviation St := (State World).

Definition MUSIC_PATH : string :=
  default "/music" (environ !! "MUSIC_PATH").
Definition TIDDL_PATH : string :=
  default "/data/.tiddl" (environ !! "TIDDL_PATH").

(** Lifting of a network call. *)
Definition call {A} (f : World -> outcome A * World) : M St A :=
  fun s => let '(r, w) := f (world s) in (r, mkState (files s) w (trace s)).

(** Lifting of a call that also works on the file store. *)
Definition call_fs {A}
    (f : gmap string string -> World -> outcome A * gmap string string * World)
  : M St A :=
  fun s => let '(r, fs, w) := f (files s) (world s) in (r, mkState fs w (trace s)).

Definition emit (ev : Event) : M St unit :=
  modify (fun s => mkState (files s) (world s) (trace s ++ [ev])).

(** [path.write_bytes(data)] *)
Definition write_bytes (path data : string) : M St unit :=
  modify (fun s => mkState (<[path := data]> (files s)) (world s) (trace s)).

(** [path.unlink(missing_ok=True)] *)
Definition unlink_missing_ok (path : string) : M St unit :=
  modify (fun s => mkState (delete path (files s)) (world s) (trace s)).

(** [shutil.move(src, dst)]: a rename that replaces [dst]. *)
Definition shutil_move (src dst : string) : M St unit :=
  emit (EvMove src dst) ;;;
  let* fs := gets files in
  match fs !! src with
  | Some data =>
      modify (fun s => mkState (<[dst := data]> (delete src (files s)))
                               (world s) (trace s))
  | None => raise (Exception ("No such file or directory: " +:+ src))
  end.

(** [path.stat().st_size] *)
Definition stat_size (path : string) : M St nat :=
  let* fs := gets files in
  match fs !! path with
  | Some data => ret (String.length data)
  | None => raise (Exception ("No such file or directory: " +:+ path))
  end.

(** [_sanitize_path_component] (app.py 88-92) *)
Definition INVALID_CHARS : list ascii :=
  ["<"; ">"; ":"; "034"; "/"; "\"; "|"; "?"; "*"]%char.

Definition _sanitize_path_component (name : string) : string :=
  let name :=
    fold_left (fun name ch => PyStr.replace ch "_"%char name)
              INVALID_CHARS name in
  PyStr.strip ". " name.

(** Step 2 of the download: sanitise each non-empty segment (129-132). *)
Definition sanitize_relative_path (relative_path : string) : string :=
  let parts := PyStr.split "/"%char relative_path in
  let parts :=
    List.map _sanitize_path_component (List.filter PyStr.nonempty parts) in
  PyStr.join "/" parts.

(** [_build_api] (95-103) *)
Definition _build_api (access_token user_id country_code : string) : TidalAPI :=
  {| api_token := access_token; api_user_id := user_id;
     api_country_code := country_code;
     api_cache_name := TIDDL_PATH +:+ "/api_cache";
     api_omit_cache := true |}.

(** Step 5 of the download (150-160): the FLAC pass with its fallback,
    a plain rename otherwise. *)
Definition finalize_file (file_extension tmp_path file_path : string)
  : M St unit :=
  if String.eqb file_extension ".flac" then
    try_except
      (emit (EvExtractFlac tmp_path file_path) ;;;
       call_fs (extract_flac tmp_path file_path) ;;;
       unlink_missing_ok tmp_path)
      (fun _ => shutil_move tmp_path file_path)
  else
    shutil_move tmp_path file_path.

(** Step 6 (162-179): tags and cover, failure only logged. *)
Definition embed_metadata (file_path : string) (track : Track) (album : Album)
  : M St unit :=
  try_except
    (let cover :=
       match album_cover album with
       | Some uid => if PyStr.nonempty uid then Some uid else None
       | None => None
       end in
     call_fs (add_track_metadata file_path track album
                (default "" (album_releaseDate album))
                (default "" (head (track_artists track)))
                cover))
    (fun _ => ret tt).

(** [_download_track_sync] (106-190) *)
Definition _download_track_sync
    (api : TidalAPI) (track_id : Z) (quality output_template dest_base : string)
  : M St DownloadResult :=
  (* 1. metadata *)
  let* track := call (get_track api track_id) in
  let* album := call (get_album api (track_album_id track)) in
  (* 2. output path *)
  let* relative_path :=
    lift_outcome (format_template output_template track album) in
  let relative_path := sanitize_relative_path relative_path in
  (* 3. stream data *)
  let* stream := call (get_track_stream api track_id quality) in
  let* '(urls, file_extension) := lift_outcome (parse_track_stream stream) in
  let* stream_data := call (download_bytes urls) in
  (* 4. write to a temp file.  Paths are plain strings: [dest_base / name]
     is a join with a slash; [mkdir(parents=True)] has nothing to do, the
     directories being implicit; [with_suffix(suffix + ".tmp")] appends
     [.tmp] to the file name. *)
  let file_path := dest_base +:+ "/" +:+ relative_path +:+ file_extension in
  let tmp_path := file_path +:+ ".tmp" in
  write_bytes tmp_path stream_data ;;;
  (* 5. FLAC pass or rename *)
  finalize_file file_extension tmp_path file_path ;;;
  (* 6. metadata *)
  embed_metadata file_path track album ;;;
  let* size := stat_size file_path in
  ret {| res_track_id := track_id;
         res_title := track_title track;
         res_artist := default "Unknown" (head (track_artists track));
         res_album := album_title album;
         res_quality := audioQuality stream;
         res_file_path := file_path;
         res_relative_path := relative_path +:+ file_extension;
         res_file_size := size |}.

(** The test of line 399: the entry has an [item] and the item has an
    [isrc]. *)
Definition retained (album_item : AlbumItem) : option Track :=
  match item album_item with
  | Some (MTrack t) => Some t
  | Some (MVideo _) => None
  | None => None
  end.

(** The paging loop of [download_album] (394-403).  The Python loop has
    no bound of its own, so the model counts iterations down from
    [fuel]; [None] means the loop was still running when it ran out. *)
Fixpoint fetch_tracks (fuel : nat) (api : TidalAPI) (album_id : Z)
    (offset : Z) (tracks : list Track) : M St (option (list Track)) :=
  match fuel with
  | O => ret None
  | S fuel =>
      emit (EvGetAlbumItems album_id 100 offset) ;;;
      let* page := call (get_album_items api album_id 100 offset) in
      let tracks := tracks ++ omap retained (items page) in
      let offset := offset + limit page in
      if offset >=? totalNumberOfItems page then ret (Some tracks)
      else fetch_tracks fuel api album_id offset tracks
  end.

(** [float(os.getenv("TIDAL_TRACK_DELAY", "3"))] *)
Definition track_delay : outcome Q :=
  py_float (default "3" (environ !! "TIDAL_TRACK_DELAY")).

(** The download loop of [download_album] (405-431); [i] is the index
    [enumerate] gives to the head of [tracks]. *)
Fixpoint download_tracks (api : TidalAPI) (req : DownloadAlbumRequest)
    (i : nat) (tracks : list Track)
    (results : list DownloadResult) (errors : list TrackError)
  : M St (list DownloadResult * list TrackError) :=
  match tracks with
  | [] => ret (results, errors)
  | track :: rest =>
      (if (0 <? i)%nat then
         let* delay := lift_outcome track_delay in
         emit (EvSleep delay)
       else ret tt) ;;;
      let* '(results, errors) :=
        try_except
          (emit (EvDownloadTrack (track_id track)) ;;;
           let* result :=
             _download_track_sync api (track_id track) (req_quality req)
               (req_output_template req) MUSIC_PATH in
           ret (results ++ [result], errors))
          (fun e =>
             ret (results,
                  errors ++ [{| err_track_id := track_id track;
                                err_title := track_title track;
                                err_error := exn_str e |}])) in
      download_tracks api req (S i) rest results errors
  end.


(** [download_album] (377-448).  [None]: the paging loop did not finish
    within [fuel] iterations. *)
Definition download_album (fuel : nat) (req : DownloadAlbumRequest)
    (access_token user_id country_code : string)
  : M St (option AlbumResponse) :=
  if negb (PyStr.nonempty access_token) then
    raise (HTTPException 401 "access_token required")
  else
    let api := _build_api access_token user_id country_code in
    try_except
      (let* album := call (get_album api (req_album_id req)) in
       let* fetched := fetch_tracks fuel api (req_album_id req) 0 [] in
       match fetched with
       | None => ret None
       | Some tracks =>
           let* '(results, errors) :=
             download_tracks api req 0 tracks [] [] in
           ret (Some {| resp_album_id := req_album_id req;
                        resp_album_title := album_title album;
                        resp_artist := default "Unknown" (album_artist album);
                        resp_total_tracks := length tracks;
                        resp_downloaded := length results;
                        resp_failed := length errors;
                        resp_tracks := results;
                        resp_errors := errors |})
       end)
      (fun e =>
         match e with
         | ApiError _ => raise (HTTPException 400 (exn_str e))
         | _ => raise (HTTPException 500 (exn_str e))
         end).

End Sidecar.

End Tidal.

(** *** A small concrete platform, to run the model on

    One album of three tracks and a video, listed on two pages; the
    metadata lookup of track 2 is rejected by the platform; ffmpeg is not
    installed, so the FLAC pass raises and leaves the file store alone. *)

Module TidalDemo.
Import Tidal.

Definition demo_track (n : Z) : Track :=
  {| track_id := n; track_title := "Song " +:+ pretty n; track_album_id := 7;
     track_artists := ["Band"]; track_isrc := "QZ0000000000" |}.

Definition demo_album : Album :=
  {| album_title := "LP"; album_artist := Some "Band";
     album_cover := None; album_releaseDate := Some "2020-01-31" |}.

Definition demo_page (offset : Z) : AlbumItems :=
  if offset =? 0 then
    {| items := [ {| item := Some (MTrack (demo_track 1)) |};
                  {| item := Some (MVideo {| video_id := 9; video_title := "Clip" |}) |};
                  {| item := Some (MTrack (demo_track 2)) |} ];
       limit := 100; totalNumberOfItems := 150 |}
  else
    {| items := [ {| item := Some (MTrack (demo_track 3)) |} ];
       limit := 100; totalNumberOfItems := 150 |}.

Definition demo_float (s : string) : outcome Q :=
  if String.eqb s "3" then inr 3%Q
  else inl (Exception ("could not convert string to float: " +:+ s)).

Definition demo : Platform unit :=
  {| get_track _ id w :=
       (if id =? 2 then inl (ApiError "404: track not found")
        else inr (demo_track id), w);
     get_album _ _ w := (inr demo_album, w);
     get_album_items _ _ _ offset w := (inr (demo_page offset), w);
     get_track_stream _ _ quality w :=
       (inr {| audioQuality := quality; manifest := "mpd" |}, w);
     format_template _ track album :=
       inr (album_title album +:+ "/" +:+ track_title track);
     parse_track_stream _ := inr (["https://cdn.example/seg0"], ".flac");
     download_bytes _ w := (inr "fLaC-bytes", w);
     extract_flac _ _ fs w := (inl (Exception "ffmpeg not found"), fs, w);
     add_track_metadata _ _ _ _ _ _ fs w := (inr tt, fs, w);
     py_float := demo_float;
     environ := ∅ |}.

Definition demo_state : State unit :=
  {| files := ∅; world := tt; trace := [] |}.

Definition demo_request : DownloadAlbumRequest :=
  {| req_album_id := 7; req_quality := "LOSSLESS";
     req_output_template := "{album.title}/{item.title}" |}.

End TidalDemo.

(** ** The channel streaming sidecar (services/ytmusic-streamer/app.py) *)

Module YTMusic.

(** *** Data *)

(** A JSON value, as [json.loads] and [request.json()] return it. *)
Local Unset Elimination Schemes.
Inductive Json :=
| JNull
| JBool (b : bool)
| JNum (q : Q)
| JStr (s : string)
| JList (l : list Json)
| JDict (d : list (string * Json)).
Local Set Elimination Schemes.

(** Python truthiness of a JSON value. *)
Definition json_truthy (j : Json) : bool :=
  match j with
  | JNull => false
  | JBool b => b
  | JNum q => negb (Qeq_bool q 0)
  | JStr s => PyStr.nonempty s
  | JList l => match l with [] => false | _ => true end
  | JDict d => match d with [] => false | _ => true end
  end.

(** Lookup in a [dict] kept in insertion order. *)
Fixpoint assoc {A} (key : string) (d : list (string * A)) : option A :=
  match d with
  | [] => None
  | (k, v) :: rest => if String.eqb key k then Some v else assoc key rest
  end.

(** [j[key]] *)
Definition getitem (j : Json) (key : string) : outcome Json :=
  match j with
  | JDict d =>
      match assoc key d with
      | Some v => inr v
      | None => inl (Exception ("'" +:+ key +:+ "'"))
      end
  | _ => inl (Exception "indices must be integers or slices, not str")
  end.

(** [j.get(key)], with [JNull] for an absent key. *)
Definition dict_get (j : Json) (key : string) : outcome Json :=
  match j with
  | JDict d => inr (default JNull (assoc key d))
  | _ => inl (Exception "object has no attribute 'get'")
  end.

(** A key of a dict handed over by yt-dlp: absent, [None], or a value. *)
Inductive Field (A : Type) := Missing | Null | Value (a : A).
Arguments Missing {A}.
Arguments Null {A}.
Arguments Value {A}.

(** [d.get(key)]: [None] stands for Python's [None]. *)
Definition get {A} (f : Field A) : option A :=
  match f with Value a => Some a | _ => None end.

(** [d.get(key, dflt)] *)
Definition get_default {A} (f : Field A) (dflt : A) : option A :=
  match f with Missing => Some dflt | Null => None | Value a => Some a end.

(** Truthiness of an optional string. *)
Definition str_truthy (s : option string) : bool :=
  match s with Some s => PyStr.nonempty s | None => false end.

(** One entry of yt-dlp's [formats] list. *)
Record Format := {
  f_url : Field string;
  f_acodec : Field string;
  f_vcodec : Field string;
  f_abr : Field Q;
}.

(** The info dict of [extract_info]: the keys the service reads, and the
    names of the other keys present. *)
Record Info := {
  i_url : Field string;
  i_formats : Field (list Format);
  i_audio_ext : Field string;
  i_duration : Field Q;
  i_title : Field string;
  i_artist : Field string;
  i_uploader : Field string;
  i_abr : Field Q;
  i_acodec : Field string;
  i_other_keys : list string;
}.

Definition is_missing {A} (f : Field A) : bool :=
  match f with Missing => true | _ => false end.

(** [not info] for a dict: no key at all. *)
Definition info_empty (i : Info) : bool :=
  is_missing (i_url i) && is_missing (i_formats i) && is_missing (i_audio_ext i)
  && is_missing (i_duration i) && is_missing (i_title i) && is_missing (i_artist i)
  && is_missing (i_uploader i) && is_missing (i_abr i) && is_missing (i_acodec i)
  && match i_other_keys i with [] => true | _ => false end.

(** A stream cache entry: the dict built at lines 192-201. *)
Record StreamEntry := {
  url : string;
  content_type : option string;
  duration : option Q;
  title : option string;
  artist : option string;
  expires_at : Q;
  abr : option Q;
  acodec : option string;
}.

Record OAuthCredentials := { client_id : Json; client_secret : Json }.

(** A client handle.  [yt_object_id] is the identity of the Python object:
    every construction yields an id never handed out before. *)
Record YTMusic := {
  yt_object_id : nat;
  yt_auth : string;
  yt_oauth_credentials : option OAuthCredentials;
}.

Record DeviceCodePollRequest := {
  req_client_id : string;
  req_client_secret : string;
  req_device_code : string;
}.

(** The six catalog routes. *)
Inductive CatalogOp :=
| Search (query : string) (filter : option string) (limit : Z)
| GetAlbum (browse_id : string)
| GetArtist (channel_id : string)
| GetSong (video_id : string)
| LibrarySongs (limit : Z) (order : string)
| LibraryAlbums (limit : Z) (order : string).

(** *** Responses *)

Record AuthStatus := { authenticated : bool; reason : option string }.
Record StatusMessage := { status : string; message : string }.
Record PollResponse := {
  poll_status : string;
  poll_error : option string;
  poll_oauth_json : option string;
}.
Record StreamInfoResponse := {
  sir_videoId : string;
  sir_url : string;
  sir_content_type : option string;
  sir_duration : option Q;
  sir_abr : option Q;
  sir_acodec : option string;
  sir_expires_at : Q;
}.

(** *** Observable calls *)

Inductive Event :=
| EvYTMusicInit (user_id : string)               (* YTMusic(...) is called *)
| EvCatalog (user_id : string) (object_id : nat) (* a catalog call on a handle *)
| EvExtract (format url : string).               (* ydl.extract_info(url) *)

(** *** State: the two process-wide dicts, the credential files, the
    allocator of object identities, the outside world, the call trace

    The credential directory maps a path to the text of the file there; a
    write to it succeeds. *)

Record State (World : Type) := mkState {
  _ytmusic_instances : gmap string YTMusic;
  _stream_cache : gmap string StreamEntry;
  files : gmap string string;
  next_object_id : nat;
  world : World;
  trace : list Event;
}.
Arguments mkState {World}.
Arguments _ytmusic_instances {World}.
Arguments _stream_cache {World}.
Arguments files {World}.
Arguments next_object_id {World}.
Arguments world {World}.
Arguments trace {World}.

(** *** The libraries and the process environment

    [ytmusicapi] (handle construction, token exchange, catalog calls),
    [yt_dlp] (stream extraction), [json], [str()] of a non-string,
    [str.lower], the clock and [os.environ]. *)

Class Platform (World : Type) := {
  time_time : World -> Q * World;
  extract_info : string -> string -> World -> outcome (option Info) * World;
  YTMusic_init :
    string -> option OAuthCredentials -> gmap string string -> World ->
    outcome unit * World;
  token_from_code :
    OAuthCredentials -> string -> World -> outcome (list (string * Json)) * World;
  catalog_call : CatalogOp -> YTMusic -> World -> outcome Json * World;
  json_loads : string -> outcome Json;
  json_dumps : bool -> Json -> string;
  py_str : Json -> string;
  str_lower : string -> string;
  environ : gmap string string;
}.

Definition STREAM_CACHE_TTL : Q := 5 * 60 * 60.

Section Sidecar.
Context {World : Type} `{Platform World}.

Abbreviation St := (State World).

Definition DATA_PATH : string := default "/data" (environ !! "DATA_PATH").

Definition set_instances (f : gmap string YTMusic -> gmap string YTMusic) (s : St) : St :=
  mkState (f (_ytmusic_instances s)) (_stream_cache s) (files s)
          (next_object_id s) (world s) (trace s).

Definition set_cache (f : gmap string StreamEntry -> gmap string StreamEntry) (s : St) : St :=
  mkState (_ytmusic_instances s) (f (_stream_cache s)) (files s)
          (next_object_id s) (world s) (trace s).

Definition set_files (f : gmap string string -> gmap string string) (s : St) : St :=
  mkState (_ytmusic_instances s) (_stream_cache s) (f (files s))
          (next_object_id s) (world s) (trace s).

Definition call {A} (f : World -> outcome A * World) : M St A :=
  fun s => let '(r, w) := f (world s) in
           (r, mkState (_ytmusic_instances s) (_stream_cache s) (files s)
                       (next_object_id s) w (trace s)).

(** [time.time()] *)
Definition now : M St Q :=
  fun s => let '(t, w) := time_time (world s) in
           (inr t, mkState (_ytmusic_instances s) (_stream_cache s) (files s)
                           (next_object_id s) w (trace s)).

Definition emit (ev : Event) : M St unit :=
  modify (fun s => mkState (_ytmusic_instances s) (_stream_cache s) (files s)
                           (next_object_id s) (world s) (trace s ++ [ev])).

(** A new Python object. *)
Definition fresh_object_id : M St nat :=
  fun s => (inr (next_object_id s),
            mkState (_ytmusic_instances s) (_stream_cache s) (files s)
                    (S (next_object_id s)) (world s) (trace s)).

(** [path.exists()], [path.read_text()], [path.write_text(text)],
    [path.unlink()] on the credential directory. *)
Definition path_exists (path : string) : M St bool :=
  gets (fun s => bool_decide (is_Some (files s !! path))).

Definition read_text (path : string) : M St string :=
  let* fs := gets files in
  match fs !! path with
  | Some text => ret text
  | None => raise (Exception ("No such file or directory: " +:+ path))
  end.

Definition write_text (path text : string) : M St unit :=
  modify (set_files <[path := text]>).

Definition unlink (path : string) : M St unit :=
  let* fs := gets files in
  match fs !! path with
  | Some _ => modify (set_files (delete path))
  | None => raise (Exception ("No such file or directory: " +:+ path))
  end.

(** [_oauth_file] (85-87) and the client-credential path (103, 279, 297, 372) *)
Definition _oauth_file (user_id : string) : string :=
  DATA_PATH +:+ "/oauth_" +:+ user_id +:+ ".json".

Definition client_creds_file (user_id : string) : string :=
  DATA_PATH +:+ "/client_creds_" +:+ user_id +:+ ".json".

(** [YTMusic(str(oauth_path))] or
    [YTMusic(str(oauth_path), oauth_credentials=oauth_creds)] *)
Definition new_YTMusic (user_id auth : string) (creds : option OAuthCredentials)
  : M St YTMusic :=
  emit (EvYTMusicInit user_id) ;;;
  let* fs := gets files in
  call (YTMusic_init auth creds fs) ;;;
  let* id := fresh_object_id in
  ret {| yt_object_id := id; yt_auth := auth; yt_oauth_credentials := creds |}.

(** [_get_ytmusic] (90-129) *)
Definition _get_ytmusic (user_id : string) : M St YTMusic :=
  let* instances := gets _ytmusic_instances in
  match instances !! user_id with
  | Some yt => ret yt
  | None =>
      let oauth_path := _oauth_file user_id in
      let* present := path_exists oauth_path in
      if present then
        try_except
          (let* text := read_text oauth_path in
           let* oauth_data := lift_outcome (json_loads text) in
           let creds_path := client_creds_file user_id in
           let* has_creds := path_exists creds_path in
           let* oauth_creds :=
             if has_creds then
               let* creds_text := read_text creds_path in
               let* creds_data := lift_outcome (json_loads creds_text) in
               let* id := lift_outcome (getitem creds_data "client_id") in
               let* secret := lift_outcome (getitem creds_data "client_secret") in
               ret (Some {| client_id := id; client_secret := secret |})
             else ret None in
           let* yt := new_YTMusic user_id oauth_path oauth_creds in
           modify (set_instances <[user_id := yt]>) ;;;
           ret yt)
          (fun _ =>
             raise (HTTPException 401
                      "OAuth credentials invalid. Please re-authenticate."))
      else
        raise (HTTPException 401 "Not authenticated. Please set up OAuth first.")
  end.

(** [_invalidate_ytmusic] (132-134) *)
Definition _invalidate_ytmusic (user_id : string) : M St unit :=
  modify (set_instances (delete user_id)).

(** *** Stream resolution *)

(** The quality table of lines 153-159. *)
Definition format_map : list (string * string) :=
  [ ("LOW", "ba[abr<=64]/worstaudio/ba");
    ("MEDIUM", "ba[abr<=128]/ba[abr<=192]/ba");
    ("HIGH", "ba[abr<=256]/ba");
    ("LOSSLESS", "ba/bestaudio") ].

(** [format_map.get(quality, format_map["HIGH"])] *)
Definition format_for (quality : string) : string :=
  default (default "" (assoc "HIGH" format_map)) (assoc quality format_map).

(** The filter of lines 181-184: an audio codec, and no video codec. *)
Definition audio_only (f : Format) : bool :=
  negb (bool_decide (get (f_acodec f) = Some "none"))
  && match get (f_vcodec f) with
     | None => true
     | Some v => String.eqb v "none"
     end.

(** The sort key of line 186: [f.get("abr", 0) or 0]. *)
Definition abr_key (f : Format) : Q := default 0%Q (get (f_abr f)).

(** [list.sort(key=abr_key, reverse=True)]: stable, highest bitrate first. *)
Fixpoint insert_desc (f : Format) (sorted : list Format) : list Format :=
  match sorted with
  | [] => [f]
  | g :: rest =>
      if Qle_bool (abr_key g) (abr_key f) then f :: sorted
      else g :: insert_desc f rest
  end.

Definition sort_desc (fs : list Format) : list Format :=
  foldr insert_desc [] fs.

(** Lines 179-187: the URL of the best audio-only entry of [formats];
    [None] when there is no such entry or it has no URL. *)
Definition fallback_url (info : Info) : outcome (option string) :=
  match get_default (i_formats info) [] with
  | None => inl (Exception "'NoneType' object is not iterable")
  | Some formats =>
      match sort_desc (List.filter audio_only formats) with
      | best :: _ => inr (get (f_url best))
      | [] => inr None
      end
  end.

(** Lines 177-190: the direct URL, else the fallback; [ValueError] when
    neither gives a non-empty URL. *)
Definition pick_stream_url (info : Info) : outcome string :=
  let direct := get (i_url info) in
  match (if str_truthy direct then inr direct else fallback_url info) with
  | inl e => inl e
  | inr stream_url =>
      if str_truthy stream_url then inr (default "" stream_url)
      else inl (Exception "No audio stream URL found")
  end.

(** The cache miss path of [_get_stream_url_sync] (152-209). *)
Definition resolve_stream (cache_key video_id quality : string) : M St StreamEntry :=
  let fmt := format_for quality in
  let url := "https://music.youtube.com/watch?v=" +:+ video_id in
  try_except
    (emit (EvExtract fmt url) ;;;
     let* info := call (extract_info fmt url) in
     match info with
     | None => raise (Exception "No info extracted")
     | Some info =>
         if info_empty info then raise (Exception "No info extracted")
         else
           let* stream_url := lift_outcome (pick_stream_url info) in
           let* t := now in
           let result :=
             {| url := stream_url;
                content_type := get_default (i_audio_ext info) "m4a";
                duration := get_default (i_duration info) 0%Q;
                title := get_default (i_title info) "";
                artist :=
                  if str_truthy (get (i_artist info)) then get (i_artist info)
                  else get_default (i_uploader info) "";
                expires_at := t + STREAM_CACHE_TTL;
                abr := get_default (i_abr info) 0%Q;
                acodec := get_default (i_acodec info) "" |} in
           modify (set_cache <[cache_key := result]>) ;;;
           ret result
     end)
    (fun e =>
       raise (HTTPException 502 ("Failed to extract stream: " +:+ exn_str e))).

(** [x > y] on timestamps. *)
Definition Qgt_bool (x y : Q) : bool := negb (Qle_bool x y).

(** [_get_stream_url_sync] (137-209).  The clock is read only when the key
    is in the cache ([and] short-circuits). *)
Definition _get_stream_url_sync (user_id video_id quality : string)
  : M St StreamEntry :=
  let cache_key := user_id +:+ ":" +:+ video_id in
  let* cache := gets _stream_cache in
  match cache !! cache_key with
  | Some cached =>
      let* t := now in
      if Qgt_bool (expires_at cached) t then ret cached
      else resolve_stream cache_key video_id quality
  | None => resolve_stream cache_key video_id quality
  end.

(** [_clean_stream_cache] (212-219) *)
Definition _clean_stream_cache : M St unit :=
  let* t := now in
  modify (set_cache (filter (fun kv => Qgt_bool (expires_at kv.2) t = true))).

(** *** Routes *)

(** [auth_status] (239-251) *)
Definition auth_status (user_id : string) : M St AuthStatus :=
  let* present := path_exists (_oauth_file user_id) in
  if negb present then
    ret {| authenticated := false; reason := Some "No OAuth credentials found" |}
  else
    try_except
      (_get_ytmusic user_id ;;;
       ret {| authenticated := true; reason := None |})
      (fun e => ret {| authenticated := false; reason := Some (exn_str e) |}).

(** [auth_restore] (254-287); [body] is [await req.json()]. *)
Definition auth_restore (body : Json) (user_id : string) : M St StatusMessage :=
  let* oauth_json := lift_outcome (dict_get body "oauth_json") in
  if negb (json_truthy oauth_json) then
    raise (HTTPException 400 "oauth_json is required")
  else
    let* text :=
      match oauth_json with
      | JStr text =>
          match json_loads text with
          | inr _ => ret text
          | inl _ => raise (HTTPException 400 "Invalid JSON in oauth_json")
          end
      | _ => raise (Exception "the JSON object must be str, bytes or bytearray")
      end in
    (* DATA_PATH.mkdir: directories are implicit in the file store *)
    write_text (_oauth_file user_id) text ;;;
    let* id := lift_outcome (dict_get body "client_id") in
    let* secret := lift_outcome (dict_get body "client_secret") in
    (if json_truthy id && json_truthy secret then
       write_text (client_creds_file user_id)
         (json_dumps false (JDict [("client_id", id); ("client_secret", secret)]))
     else ret tt) ;;;
    _invalidate_ytmusic user_id ;;;
    ret {| status := "ok"; message := "OAuth credentials restored" |}.

(** [auth_clear] (290-301) *)
Definition auth_clear (user_id : string) : M St StatusMessage :=
  _invalidate_ytmusic user_id ;;;
  let* has_oauth := path_exists (_oauth_file user_id) in
  (if has_oauth then unlink (_oauth_file user_id) else ret tt) ;;;
  let* has_creds := path_exists (client_creds_file user_id) in
  (if has_creds then unlink (client_creds_file user_id) else ret tt) ;;;
  ret {| status := "ok"; message := "OAuth credentials removed" |}.

(** The table of lines 342-347, in insertion order. *)
Definition ERROR_MESSAGES : list (string * string) :=
  [ ("invalid_grant",
     "The sign-in code has expired or was already used. Please start over.");
    ("expired_token", "The sign-in code has expired. Please start over.");
    ("access_denied",
     "Access was denied. Please try again and click 'Allow' on the Google page.");
    ("invalid_client",
     "OAuth client credentials are invalid. Please ask your admin to check the Client ID and Secret.") ].

(** [f"{error}"] *)
Definition format_value (error : Json) : string :=
  match error with JStr s => s | other => py_str other end.

(** [ERROR_MESSAGES.get(error, dflt)]: a list or a dict is not hashable. *)
Definition friendly_message (error : Json) (dflt : string) : outcome string :=
  match error with
  | JStr code => inr (default dflt (assoc code ERROR_MESSAGES))
  | JList _ => inl (Exception "unhashable type: 'list'")
  | JDict _ => inl (Exception "unhashable type: 'dict'")
  | _ => inr dflt
  end.

(** [error in ("authorization_pending", "slow_down")] *)
Definition is_pending (error : Json) : bool :=
  match error with
  | JStr code =>
      String.eqb code "authorization_pending" || String.eqb code "slow_down"
  | _ => false
  end.

(** [auth_device_code_poll] (334-401) *)
Definition auth_device_code_poll (req : DeviceCodePollRequest) (user_id : string)
  : M St PollResponse :=
  try_except
    (let oauth_creds := {| client_id := JStr (req_client_id req);
                           client_secret := JStr (req_client_secret req) |} in
     let* token := call (token_from_code oauth_creds (req_device_code req)) in
     match assoc "error" token with
     | Some error =>
         if is_pending error then
           ret {| poll_status := "pending";
                  poll_error := Some (format_value error);
                  poll_oauth_json := None |}
         else
           let* friendly :=
             lift_outcome
               (friendly_message error
                  ("Authorization failed (" +:+ format_value error
                   +:+ "). Please try again.")) in
           ret {| poll_status := "error";
                  poll_error := Some friendly;
                  poll_oauth_json := None |}
     | None =>
         let token_json := json_dumps true (JDict token) in
         write_text (_oauth_file user_id) token_json ;;;
         write_text (client_creds_file user_id)
           (json_dumps false
              (JDict [("client_id", JStr (req_client_id req));
                      ("client_secret", JStr (req_client_secret req))])) ;;;
         _invalidate_ytmusic user_id ;;;
         ret {| poll_status := "success";
                poll_error := None;
                poll_oauth_json := Some token_json |}
     end)
    (fun e =>
       let error_str := str_lower (exn_str e) in
       if PyStr.contains "authorization_pending" error_str then
         ret {| poll_status := "pending";
                poll_error := Some "authorization_pending";
                poll_oauth_json := None |}
       else
         match List.find (fun kv => PyStr.contains kv.1 error_str) ERROR_MESSAGES with
         | Some (_, friendly_msg) =>
             ret {| poll_status := "error";
                    poll_error := Some friendly_msg;
                    poll_oauth_json := None |}
         | None =>
             raise (HTTPException 500
                      ("Failed to poll device code: " +:+ exn_str e))
         end).

(** The six catalog routes (406-581, 685-734) have one shape: get the
    handle, call the library on it, turn any failure into a 500.  What the
    library answers, reshaped, is the response; the reshaping itself is part
    of [catalog_call] here. *)
Definition catalog_route (op : CatalogOp) (user_id : string) : M St Json :=
  let* yt := _get_ytmusic user_id in
  try_except
    (emit (EvCatalog user_id (yt_object_id yt)) ;;;
     call (catalog_call op yt))
    (fun e => raise (HTTPException 500 (exn_str e))).

(** [get_stream_info] (586-601) *)
Definition get_stream_info (video_id user_id quality : string)
  : M St StreamInfoResponse :=
  _get_ytmusic user_id ;;;
  let* result := _get_stream_url_sync user_id video_id quality in
  ret {| sir_videoId := video_id;
         sir_url := url result;
         sir_content_type := content_type result;
         sir_duration := duration result;
         sir_abr := abr result;
         sir_acodec := acodec result;
         sir_expires_at := expires_at result |}.

(** [proxy_stream] (604-680), up to the choice of the content type; the
    relay of the bytes from the CDN is not modelled. *)
Definition proxy_stream (video_id user_id quality : string)
  : M St (string * string) :=
  _get_ytmusic user_id ;;;
  let* stream_info := _get_stream_url_sync user_id video_id quality in
  match acodec stream_info with
  | None => raise (Exception "argument of type 'NoneType' is not iterable")
  | Some codec =>
      let content_type :=
        if PyStr.contains "opus" codec then "audio/webm"
        else if PyStr.contains "mp4a" codec || PyStr.contains "aac" codec
        then "audio/mp4"
        else "audio/mp4" in
      ret (url stream_info, content_type)
  end.

(** [shutdown] (749-753) *)
Definition shutdown : M St unit :=
  _clean_stream_cache ;;;
  modify (set_instances (fun _ => ∅)).

(** *** Requests, served one after the other

    The routes that work on the process state.  ([/health], [startup] and
    [/auth/device-code] read the credential directory or talk to the
    platform and leave the state alone.)  A request is served as a whole
    before the next one starts: the interleaving of two handlers at an
    [await] is not modelled. *)

Inductive Request :=
| AuthStatusReq (user_id : string)
| AuthRestoreReq (user_id : string) (body : Json)
| AuthClearReq (user_id : string)
| DeviceCodePollReq (user_id : string) (req : DeviceCodePollRequest)
| CatalogReq (user_id : string) (op : CatalogOp)
| StreamInfoReq (user_id video_id quality : string)
| ProxyReq (user_id video_id quality : string).

(** The state a request leaves behind, whatever it answers. *)
Definition serve (r : Request) (s : St) : St :=
  match r with
  | AuthStatusReq u => (auth_status u s).2
  | AuthRestoreReq u body => (auth_restore body u s).2
  | AuthClearReq u => (auth_clear u s).2
  | DeviceCodePollReq u req => (auth_device_code_poll req u s).2
  | CatalogReq u op => (catalog_route op u s).2
  | StreamInfoReq u v q => (get_stream_info v u q s).2
  | ProxyReq u v q => (proxy_stream v u q s).2
  end.

Definition serve_all (rs : list Request) (s : St) : St :=
  fold_left (fun s r => serve r s) rs s.

End Sidecar.

End YTMusic.

(** *** A small concrete platform, to run the model on

    The world is the clock; an extraction takes two seconds and fails for
    the video [gone]; the token exchange answers by the device code it is
    given. *)

Module YTDemo.
Import YTMusic.

Definition demo_info : Info :=
  {| i_url := Value "https://cdn.example/a1"; i_formats := Missing;
     i_audio_ext := Value "webm"; i_duration := Value 215%Q;
     i_title := Value "Song One"; i_artist := Null; i_uploader := Value "Band";
     i_abr := Value 128%Q; i_acodec := Value "opus";
     i_other_keys := ["id"; "ext"; "format_id"] |}.

Definition demo : Platform Q :=
  {| time_time w := (w, w);
     extract_info _ url w :=
       (if String.eqb url "https://music.youtube.com/watch?v=gone"
        then inl (Exception "Video unavailable")
        else inr (Some demo_info), (w + 2)%Q);
     YTMusic_init _ _ _ w := (inr tt, w);
     token_from_code _ device_code w :=
       (if String.eqb device_code "approved"
        then inr [("access_token", JStr "ya29"); ("refresh_token", JStr "1//0g")]
        else if String.eqb device_code "broken"
        then inl (Exception "Bad Request: INVALID_CLIENT")
        else inr [("error", JStr device_code)], w);
     catalog_call _ _ w := (inr (JList []), w);
     json_loads text :=
       if String.prefix "{" text then inr (JDict [])
       else inl (Exception "Expecting value: line 1 column 1 (char 0)");
     json_dumps _ _ := "{}";
     py_str _ := "None";
     str_lower := PyStr.lower;
     environ := ∅ |}.

Definition demo_entry : StreamEntry :=
  {| url := "https://cdn.example/old"; content_type := Some "webm";
     duration := Some 215%Q; title := Some "Song One"; artist := Some "Band";
     expires_at := 19000%Q; abr := Some 128%Q; acodec := Some "opus" |}.

Definition demo_handle : YTMusic :=
  {| yt_object_id := 0; yt_auth := "/data/oauth_alice.json";
     yt_oauth_credentials := None |}.

(** Alice is signed in, has a handle cached, and resolved [song1] at
    clock 1000; it is now 5000. *)
Definition demo_state : State Q :=
  {| _ytmusic_instances := {[ "alice" := demo_handle ]};
     _stream_cache := {[ "alice:song1" := demo_entry ]};
     files := {[ "/data/oauth_alice.json" := "{}" ]};
     next_object_id := 1;
     world := 5000%Q;
     trace := [] |}.

Definition demo_restore_body : Json :=
  JDict [("oauth_json", JStr "{}")].

End YTDemo.

(** ** The catalog routes of the channel streaming sidecar: how the
    answers of the library are reshaped (app.py 406-581, 685-734) *)

Module YTCatalog.
Import YTMusic.

(** *** Python's operations on the values the library answers with

    The library answers with dicts, lists, strings, numbers, booleans and
    [None]: a [Json].  An operation that raises gives [None] here; which
    exception it raises does not matter to the routes, which answer every
    one of them with a 500. *)

(** [d.get(key, dflt)]; [d.get(key)] is [py_get d key JNull].  Only a
    dict has the method. *)
Definition py_get (d : Json) (key : string) (dflt : Json) : option Json :=
  match d with
  | JDict kvs => Some (default dflt (assoc key kvs))
  | _ => None
  end.

(** [v == s] for a string literal [s]. *)
Definition py_is (v : Json) (s : string) : bool :=
  match v with
  | JStr t => String.eqb t s
  | _ => false
  end.

(** The elements [for x in v] goes through: those of a list, the keys of
    a dict, the one-character strings of a string (by bytes here; every
    loop below starts by calling [x.get], which a string does not
    have). *)
Definition py_iter (v : Json) : option (list Json) :=
  match v with
  | JList l => Some l
  | JDict kvs => Some (map (fun kv => JStr kv.1) kvs)
  | JStr s => Some (map (fun c => JStr (String c "")) (list_ascii_of_string s))
  | _ => None
  end.

(** [v[0]] and [v[-1]].  The keys of a dict are strings, so that neither
    index is one of them. *)
Definition py_first (v : Json) : option Json :=
  match v with
  | JList l => head l
  | JStr s => (fun c => JStr (String c "")) <$> head (list_ascii_of_string s)
  | _ => None
  end.

Definition py_last (v : Json) : option Json :=
  match v with
  | JList l => last l
  | JStr s => (fun c => JStr (String c "")) <$> last (list_ascii_of_string s)
  | _ => None
  end.

(** [v[:n]] *)
Definition py_slice (n : nat) (v : Json) : option Json :=
  match v with
  | JList l => Some (JList (take n l))
  | JStr s => Some (JStr (String.substring 0 n s))
  | _ => None
  end.

(** [len(items)] *)
Definition py_len (items : list Json) : Json :=
  JNum (inject_Z (Z.of_nat (length items))).

(** *** The pieces the routes share *)

(** [artists[0].get("name") if artists else "Unknown"] *)
Definition primary_artist (artists : Json) : option Json :=
  if json_truthy artists then
    first ← py_first artists; py_get first "name" JNull
  else Some (JStr "Unknown").

(** [[a.get("name") for a in artists]] *)
Definition artist_names (artists : Json) : option Json :=
  elements ← py_iter artists;
  names ← mapM (fun a => py_get a "name" JNull) elements;
  Some (JList names).

(** [x.get("name") if x else None] *)
Definition name_if_any (x : Json) (key : string) : option Json :=
  if json_truthy x then py_get x key JNull else Some JNull.

(** *** [search] (406-471) *)

Section Search.
Context {World : Type} `{Platform World}.

(** [r.get("resultType") or r.get("category", "").lower()] *)
Definition result_type (r : Json) : option Json :=
  direct ← py_get r "resultType" JNull;
  if json_truthy direct then Some direct
  else
    category ← py_get r "category" (JStr "");
    match category with
    | JStr s => Some (JStr (str_lower s))
    | _ => None
    end.

(** The body of the loop: the item appended for [r], if any. *)
Definition search_item (r : Json) : option (option Json) :=
  result_type ← result_type r;
  if py_is result_type "song" then
    artists ← py_get r "artists" (JList []);
    album ← py_get r "album" (JDict []);
    let album := if json_truthy album then album else JDict [] in
    videoId ← py_get r "videoId" JNull;
    title ← py_get r "title" JNull;
    artist ← primary_artist artists;
    names ← artist_names artists;
    album_name ← name_if_any album "name";
    album_id ← name_if_any album "id";
    duration ← py_get r "duration" JNull;
    duration_seconds ← py_get r "duration_seconds" JNull;
    thumbnails ← py_get r "thumbnails" (JList []);
    isExplicit ← py_get r "isExplicit" (JBool false);
    Some (Some (JDict [ ("type", JStr "song");
                        ("videoId", videoId);
                        ("title", title);
                        ("artist", artist);
                        ("artists", names);
                        ("album", album_name);
                        ("albumId", album_id);
                        ("duration", duration);
                        ("duration_seconds", duration_seconds);
                        ("thumbnails", thumbnails);
                        ("isExplicit", isExplicit) ]))
  else if py_is result_type "album" then
    artists ← py_get r "artists" (JList []);
    browseId ← py_get r "browseId" JNull;
    title ← py_get r "title" JNull;
    artist ← primary_artist artists;
    names ← artist_names artists;
    year ← py_get r "year" JNull;
    thumbnails ← py_get r "thumbnails" (JList []);
    isExplicit ← py_get r "isExplicit" (JBool false);
    type_detail ← py_get r "type" (JStr "Album");
    Some (Some (JDict [ ("type", JStr "album");
                        ("browseId", browseId);
                        ("title", title);
                        ("artist", artist);
                        ("artists", names);
                        ("year", year);
                        ("thumbnails", thumbnails);
                        ("isExplicit", isExplicit);
                        ("type_detail", type_detail) ]))
  else if py_is result_type "artist" then
    browseId ← py_get r "browseId" JNull;
    by_artist ← py_get r "artist" JNull;
    name ← (if json_truthy by_artist then Some by_artist else py_get r "name" JNull);
    thumbnails ← py_get r "thumbnails" (JList []);
    subscribers ← py_get r "subscribers" JNull;
    Some (Some (JDict [ ("type", JStr "artist");
                        ("browseId", browseId);
                        ("name", name);
                        ("thumbnails", thumbnails);
                        ("subscribers", subscribers) ]))
  else if py_is result_type "video" then
    artists ← py_get r "artists" (JList []);
    videoId ← py_get r "videoId" JNull;
    title ← py_get r "title" JNull;
    artist ← primary_artist artists;
    names ← artist_names artists;
    duration ← py_get r "duration" JNull;
    duration_seconds ← py_get r "duration_seconds" JNull;
    thumbnails ← py_get r "thumbnails" (JList []);
    Some (Some (JDict [ ("type", JStr "video");
                        ("videoId", videoId);
                        ("title", title);
                        ("artist", artist);
                        ("artists", names);
                        ("duration", duration);
                        ("duration_seconds", duration_seconds);
                        ("thumbnails", thumbnails) ]))
  else Some None.

(** Lines 414-468, [results] being what [yt.search] returned. *)
Definition search_response (results : Json) : option Json :=
  rs ← py_iter results;
  appended ← mapM search_item rs;
  let items := omap id appended in
  Some (JDict [("results", JList items); ("total", py_len items)]).

End Search.

(** *** [get_album] (474-514) *)

(** The body of the loop over the tracks. *)
Definition album_track (t : Json) : option Json :=
  artists ← py_get t "artists" (JList []);
  videoId ← py_get t "videoId" JNull;
  title ← py_get t "title" JNull;
  artist ← primary_artist artists;
  names ← artist_names artists;
  trackNumber ← py_get t "trackNumber" JNull;
  duration ← py_get t "duration" JNull;
  duration_seconds ← py_get t "duration_seconds" JNull;
  isExplicit ← py_get t "isExplicit" (JBool false);
  likeStatus ← py_get t "likeStatus" JNull;
  Some (JDict [ ("videoId", videoId);
                ("title", title);
                ("artist", artist);
                ("artists", names);
                ("trackNumber", trackNumber);
                ("duration", duration);
                ("duration_seconds", duration_seconds);
                ("isExplicit", isExplicit);
                ("likeStatus", likeStatus) ]).

(** [thumbnails[-1].get("url") if thumbnails else None] *)
Definition cover_url (thumbnails : Json) : option Json :=
  if json_truthy thumbnails then
    biggest ← py_last thumbnails; py_get biggest "url" JNull
  else Some JNull.

Definition album_response (browse_id : string) (album : Json) : option Json :=
  listed ← py_get album "tracks" (JList []);
  ts ← py_iter listed;
  tracks ← mapM album_track ts;
  thumbnails ← py_get album "thumbnails" (JList []);
  title ← py_get album "title" JNull;
  given ← py_get album "artists" JNull;
  artist ← (if json_truthy given then
              artists ← py_get album "artists" (JList [JDict []]);
              first ← py_first artists;
              py_get first "name" JNull
            else Some (JStr "Unknown"));
  artists ← py_get album "artists" (JList []);
  names ← artist_names artists;
  year ← py_get album "year" JNull;
  trackCount ← py_get album "trackCount" JNull;
  duration ← py_get album "duration" JNull;
  type ← py_get album "type" (JStr "Album");
  coverUrl ← cover_url thumbnails;
  description ← py_get album "description" JNull;
  Some (JDict [ ("browseId", JStr browse_id);
                ("title", title);
                ("artist", artist);
                ("artists", names);
                ("year", year);
                ("trackCount", trackCount);
                ("duration", duration);
                ("type", type);
                ("thumbnails", thumbnails);
                ("coverUrl", coverUrl);
                ("tracks", JList tracks);
                ("description", description) ]).

(** *** [get_artist] (517-558) *)

Definition artist_song (s : Json) : option Json :=
  artists ← py_get s "artists" (JList []);
  videoId ← py_get s "videoId" JNull;
  title ← py_get s "title" JNull;
  artist ← primary_artist artists;
  on_album ← py_get s "album" JNull;
  album ← (if json_truthy on_album then
             album ← py_get s "album" (JDict []); py_get album "name" JNull
           else Some JNull);
  duration ← py_get s "duration" JNull;
  Some (JDict [ ("videoId", videoId);
                ("title", title);
                ("artist", artist);
                ("album", album);
                ("duration", duration) ]).

Definition artist_album (a : Json) : option Json :=
  browseId ← py_get a "browseId" JNull;
  title ← py_get a "title" JNull;
  year ← py_get a "year" JNull;
  type ← py_get a "type" (JStr "Album");
  thumbnails ← py_get a "thumbnails" (JList []);
  Some (JDict [ ("browseId", browseId);
                ("title", title);
                ("year", year);
                ("type", type);
                ("thumbnails", thumbnails) ]).

(** [artist.get(section, {}).get("results", [])[:n]] *)
Definition section_results (artist : Json) (section : string) (n : nat)
  : option (list Json) :=
  shelf ← py_get artist section (JDict []);
  results ← py_get shelf "results" (JList []);
  first_n ← py_slice n results;
  py_iter first_n.

Definition artist_response (channel_id : string) (artist : Json) : option Json :=
  top_songs ← section_results artist "songs" 10;
  songs ← mapM artist_song top_songs;
  top_albums ← section_results artist "albums" 20;
  albums ← mapM artist_album top_albums;
  thumbnails ← py_get artist "thumbnails" (JList []);
  name ← py_get artist "name" JNull;
  description ← py_get artist "description" JNull;
  subscribers ← py_get artist "subscribers" JNull;
  Some (JDict [ ("channelId", JStr channel_id);
                ("name", name);
                ("description", description);
                ("thumbnails", thumbnails);
                ("subscribers", subscribers);
                ("songs", JList songs);
                ("albums", JList albums) ]).

(** *** [get_song] (561-581); [py_int] is [int(...)] *)

Definition song_response (py_int : Json -> option Json) (song : Json) : option Json :=
  video_details ← py_get song "videoDetails" (JDict []);
  videoId ← py_get video_details "videoId" JNull;
  title ← py_get video_details "title" JNull;
  author ← py_get video_details "author" JNull;
  length_seconds ← py_get video_details "lengthSeconds" (JNum 0);
  duration ← py_int length_seconds;
  thumbnail ← py_get video_details "thumbnail" (JDict []);
  thumbnails ← py_get thumbnail "thumbnails" (JList []);
  isOwner ← py_get video_details "isOwnerViewing" (JBool false);
  viewCount ← py_get video_details "viewCount" JNull;
  Some (JDict [ ("videoId", videoId);
                ("title", title);
                ("artist", author);
                ("duration", duration);
                ("thumbnails", thumbnails);
                ("isOwner", isOwner);
                ("viewCount", viewCount) ]).

(** *** [library_songs] (685-709) and [library_albums] (712-734) *)

Definition library_song (s : Json) : option Json :=
  artists ← py_get s "artists" (JList []);
  album ← py_get s "album" (JDict []);
  let album := if json_truthy album then album else JDict [] in
  videoId ← py_get s "videoId" JNull;
  title ← py_get s "title" JNull;
  artist ← primary_artist artists;
  names ← artist_names artists;
  album_name ← name_if_any album "name";
  duration ← py_get s "duration" JNull;
  duration_seconds ← py_get s "duration_seconds" JNull;
  thumbnails ← py_get s "thumbnails" (JList []);
  Some (JDict [ ("videoId", videoId);
                ("title", title);
                ("artist", artist);
                ("artists", names);
                ("album", album_name);
                ("duration", duration);
                ("duration_seconds", duration_seconds);
                ("thumbnails", thumbnails) ]).

Definition library_album (a : Json) : option Json :=
  artists ← py_get a "artists" (JList []);
  browseId ← py_get a "browseId" JNull;
  title ← py_get a "title" JNull;
  artist ← primary_artist artists;
  names ← artist_names artists;
  year ← py_get a "year" JNull;
  thumbnails ← py_get a "thumbnails" (JList []);
  type ← py_get a "type" (JStr "Album");
  Some (JDict [ ("browseId", browseId);
                ("title", title);
                ("artist", artist);
                ("artists", names);
                ("year", year);
                ("thumbnails", thumbnails);
                ("type", type) ]).

(** A library listing: one item per entry, and their number. *)
Definition library_response (key : string) (item : Json -> option Json)
    (listing : Json) : option Json :=
  entries ← py_iter listing;
  items ← mapM item entries;
  Some (JDict [(key, JList items); ("total", py_len items)]).

(** *** The routes

    Every catalog route gets the handle, calls the library on it and
    reshapes the answer inside one [try], and turns whatever is raised
    there into a 500.  [library] is the call itself ([yt.search],
    [yt.get_album], ...); [failure_text op answer] is [str(e)] for the
    exception that reshaping [answer] raises. *)

Section Routes.
Context {World : Type} `{Platform World}.
Variable library : CatalogOp -> YTMusic -> World -> outcome Json * World.
Variable py_int : Json -> option Json.
Variable failure_text : CatalogOp -> Json -> string.

Definition reshape (op : CatalogOp) (answer : Json) : option Json :=
  match op with
  | Search _ _ _ => search_response answer
  | GetAlbum browse_id => album_response browse_id answer
  | GetArtist channel_id => artist_response channel_id answer
  | GetSong _ => song_response py_int answer
  | LibrarySongs _ _ => library_response "songs" library_song answer
  | LibraryAlbums _ _ => library_response "albums" library_album answer
  end.

Definition route (op : CatalogOp) (user_id : string) : M (State World) Json :=
  let* yt := _get_ytmusic user_id in
  try_except
    (emit (EvCatalog user_id (yt_object_id yt)) ;;;
     let* answer := call (library op yt) in
     match reshape op answer with
     | Some response => ret response
     | None => raise (Exception (failure_text op answer))
     end)
    (fun e => raise (HTTPException 500 (exn_str e))).

End Routes.

End YTCatalog.

(** * Verified properties *)

Module PyStrFacts.
Import PyStr.

Lemma replace_map old new s :
  replace old new s = map (fun c => if Ascii.eqb c old then new else c) s.
Proof. induction s as [|c s IH]; simpl; [reflexivity | now rewrite IH]. Qed.

Lemma map_map f g s : map f (map g s) = map (fun c => f (g c)) s.
Proof. induction s as [|c s IH]; simpl; [reflexivity | now rewrite IH]. Qed.

Lemma map_ext f g s : (forall c, f c = g c) -> map f s = map g s.
Proof.
  intros Hfg. induction s as [|c s IH]; simpl; [reflexivity|].
  now rewrite Hfg, IH.
Qed.

Lemma lstrip_first chars s c :
  first_char (lstrip chars s) = Some c -> mem c chars = false.
Proof.
  induction s as [|d s IH]; simpl; [discriminate|].
  destruct (mem d chars) eqn:Hd; [exact IH|].
  simpl. intros [= <-]. exact Hd.
Qed.

Lemma rstrip_first chars s c :
  first_char s = Some c -> mem c chars = false ->
  first_char (rstrip chars s) = Some c.
Proof.
  destruct s as [|d s]; simpl; [discriminate|].
  intros [= ->] Hc. rewrite Hc.
  destruct (rstrip chars s); reflexivity.
Qed.

Lemma rstrip_first_inv chars s c :
  first_char (rstrip chars s) = Some c -> first_char s = Some c.
Proof.
  destruct s as [|d s]; simpl; [discriminate|].
  destruct (rstrip chars s); [destruct (mem d chars)|]; simpl; congruence.
Qed.

Lemma rstrip_last chars s c :
  last_char (rstrip chars s) = Some c -> mem c chars = false.
Proof.
  unfold last_char. induction s as [|d s IH]; simpl; [discriminate|].
  destruct (rstrip chars s) as [|e kept] eqn:Hk.
  - destruct (mem d chars) eqn:Hd; simpl; [discriminate|].
    intros [= <-]. exact Hd.
  - cbn [list_ascii_of_string]. rewrite last_cons.
    cbn [list_ascii_of_string] in IH.
    destruct (last (e :: list_ascii_of_string kept)) eqn:Hl.
    + intros [= <-]. now apply IH.
    + apply last_None in Hl. discriminate.
Qed.

Lemma strip_first chars s c :
  first_char (strip chars s) = Some c -> mem c chars = false.
Proof.
  unfold strip. intros H. apply rstrip_first_inv in H.
  now apply lstrip_first in H.
Qed.

Lemma strip_last chars s c :
  last_char (strip chars s) = Some c -> mem c chars = false.
Proof. apply rstrip_last. Qed.

Lemma mem_map_not f chars s c :
  (forall d, mem (f d) chars = false) ->
  In c (list_ascii_of_string (map f s)) -> mem c chars = false.
Proof.
  intros Hf. induction s as [|d s IH]; simpl; [tauto|].
  intros [<- | Hin]; [apply Hf | now apply IH].
Qed.

Lemma lstrip_incl chars s c :
  In c (list_ascii_of_string (lstrip chars s)) -> In c (list_ascii_of_string s).
Proof.
  induction s as [|d s IH]; simpl; [tauto|].
  destruct (mem d chars); simpl; [right; now apply IH | tauto].
Qed.

Lemma rstrip_incl chars s c :
  In c (list_ascii_of_string (rstrip chars s)) -> In c (list_ascii_of_string s).
Proof.
  induction s as [|d s IH]; simpl; [tauto|].
  destruct (rstrip chars s) as [|e kept].
  - destruct (mem d chars); simpl; tauto.
  - simpl. simpl in IH. tauto.
Qed.

Lemma strip_incl chars s c :
  In c (list_ascii_of_string (strip chars s)) -> In c (list_ascii_of_string s).
Proof. unfold strip. intros H. now apply rstrip_incl, lstrip_incl in H. Qed.

End PyStrFacts.

(** ** Track download sidecar *)

Module TidalSpec.
Import Tidal.

(** *** Path sanitisation *)

(** What the nine [replace] calls do to one character. *)
Definition scrub (c : ascii) : ascii :=
  if existsb (Ascii.eqb c) INVALID_CHARS then "_"%char else c.

Lemma replace_chain_scrub (name : string) :
  fold_left (fun name ch => PyStr.replace ch "_"%char name) INVALID_CHARS name
  = PyStr.map scrub name.
Proof.
  unfold INVALID_CHARS. cbn [fold_left].
  rewrite !PyStrFacts.replace_map, !PyStrFacts.map_map.
  apply PyStrFacts.map_ext.
  intros [[] [] [] [] [] [] [] []]; reflexivity.
Qed.

Lemma scrub_not_stripped (c : ascii) :
  existsb (Ascii.eqb (scrub c)) INVALID_CHARS = false.
Proof. destruct c as [[] [] [] [] [] [] [] []]; reflexivity. Qed.

Lemma not_dot_space (c : ascii) :
  PyStr.mem c ". " = false -> c <> "."%char /\ c <> " "%char.
Proof. split; intros ->; discriminate. Qed.

(** C2, as the code has it.  [_sanitize_path_component] replaces every
    occurrence of a character of [INVALID_CHARS] by an underscore and then
    strips dots and spaces from both ends: the result neither starts nor
    ends with a dot or a space, holds none of the nine characters, and
    for the input ["My: Song? "] it is ["My_ Song_"] (one underscore for
    the colon, one for the question mark). *)
Theorem sanitize_path_component_spec (name : string) :
  _sanitize_path_component name = PyStr.strip ". " (PyStr.map scrub name)
  /\ (forall c, PyStr.first_char (_sanitize_path_component name) = Some c ->
                c <> "."%char /\ c <> " "%char)
  /\ (forall c, PyStr.last_char (_sanitize_path_component name) = Some c ->
                c <> "."%char /\ c <> " "%char)
  /\ (forall c, In c (list_ascii_of_string (_sanitize_path_component name)) ->
                existsb (Ascii.eqb c) INVALID_CHARS = false)
  /\ _sanitize_path_component "My: Song? " = "My_ Song_".
Proof.
  unfold _sanitize_path_component. rewrite replace_chain_scrub.
  split; [reflexivity|]. split; [|split; [|split]].
  - intros c Hc. apply not_dot_space. eapply PyStrFacts.strip_first, Hc.
  - intros c Hc. apply not_dot_space. eapply PyStrFacts.strip_last, Hc.
  - intros c Hc. apply PyStrFacts.strip_incl in Hc.
    induction name as [|d name IH]; simpl in Hc; [tauto|].
    destruct Hc as [<- | Hc]; [apply scrub_not_stripped | now apply IH].
  - reflexivity.
Qed.

(** C2, as the specification words it: the example does not come out as
    ["My_ Song__"]. *)
Lemma sanitize_example_not_two_underscores :
  _sanitize_path_component "My: Song? " <> "My_ Song__".
Proof. vm_compute. discriminate. Qed.

Example sanitize_both_ends :
  _sanitize_path_component " .a<b>. " = "a_b_".
Proof. reflexivity. Qed.

Example split_keeps_empty_pieces : PyStr.split "/" "a//b" = ["a"; ""; "b"].
Proof. reflexivity. Qed.

(** Step 2 on a rendered template: each non-empty segment is sanitised on
    its own; a segment of dots is emptied, not dropped. *)
Example sanitize_relative_path_segments :
  sanitize_relative_path "Band/LP: Deluxe /01. What?.." = "Band/LP_ Deluxe/01. What_"
  /\ sanitize_relative_path "A//.../B" = "A//B".
Proof. split; reflexivity. Qed.

(** *** Runs of the handlers *)

Section Runs.
Context {World : Type} `{Platform World}.

Lemma append_length (s t : string) :
  String.length (s +:+ t) = (String.length s + String.length t)%nat.
Proof. induction s as [|c s IH]; simpl; [reflexivity | now rewrite IH]. Qed.

Lemma tmp_path_fresh (path : string) : path +:+ ".tmp" <> path.
Proof.
  intros Heq. apply (f_equal String.length) in Heq.
  rewrite append_length in Heq. simpl in Heq. lia.
Qed.

(** *** Step 5: the FLAC pass and the rename *)

(** What is expected of the container-extraction pass: it writes nowhere
    but to its destination, and when it returns normally the destination
    exists. *)
Definition flac_pass_contract : Prop :=
  forall src dst fs w r fs' w',
    extract_flac src dst fs w = (r, fs', w') ->
    (forall p, p <> dst -> fs' !! p = fs !! p)
    /\ (r = inr tt -> is_Some (fs' !! dst)).

(** C6.  Step 5 of the download, started right after the temp file was
    written.  For [.flac] the extraction pass is run from the temp file
    into the final path; if it raises, the temp file is renamed to the
    final path; for any other extension the temp file is renamed.  In all
    cases the step returns normally, a file is at the final path and none
    is at the temp path. *)
Theorem finalize_leaves_one_file
    (file_extension file_path stream_data : string) (st st' : State World)
    (r : outcome unit) :
  let tmp_path := file_path +:+ ".tmp" in
  let pass :=
    extract_flac tmp_path file_path (<[tmp_path := stream_data]> (files st)) (world st) in
  flac_pass_contract ->
  (write_bytes tmp_path stream_data ;;;
   finalize_file file_extension tmp_path file_path) st = (r, st') ->
  r = inr tt
  /\ is_Some (files st' !! file_path)
  /\ files st' !! tmp_path = None
  /\ (file_extension = ".flac" ->
      match pass.1.1 with
      | inr _ =>
          trace st' = trace st ++ [EvExtractFlac tmp_path file_path]
          /\ files st' !! file_path = pass.1.2 !! file_path
      | inl _ =>
          trace st' = trace st ++ [EvExtractFlac tmp_path file_path;
                                   EvMove tmp_path file_path]
          /\ files st' !! file_path = Some stream_data
      end)
  /\ (file_extension <> ".flac" ->
      trace st' = trace st ++ [EvMove tmp_path file_path]
      /\ files st' !! file_path = Some stream_data).
Proof.
  intros tmp_path pass Hcontract.
  pose proof (tmp_path_fresh file_path) as Hfresh. fold tmp_path in Hfresh.
  unfold finalize_file.
  destruct (String.eqb_spec file_extension ".flac") as [Hext | Hext].
  - unfold shutil_move, write_bytes, unlink_missing_ok, emit, call_fs.
    unfold bind, try_except, modify, gets, raise. cbn [files world trace fst snd].
    fold pass. destruct pass as [[r0 fs'] w'] eqn:Hpass. cbn [fst snd].
    destruct (Hcontract _ _ _ _ _ _ _ Hpass) as [Hframe Hok].
    destruct r0 as [e | []]; cbn [files world trace].
    + rewrite (Hframe tmp_path Hfresh), lookup_insert_eq. cbn [files world trace].
      intros [= <- <-]. cbn [files world trace].
      rewrite lookup_insert_eq, lookup_insert_ne, lookup_delete_eq by congruence.
      rewrite <- app_assoc. repeat split; eauto; congruence.
    + intros [= <- <-]. cbn [files world trace].
      rewrite lookup_delete_eq, lookup_delete_ne by congruence.
      repeat split; eauto; congruence.
  - unfold shutil_move, write_bytes, emit. unfold bind, modify, gets, raise.
    cbn [files world trace]. rewrite lookup_insert_eq. cbn [files world trace].
    intros [= <- <-]. cbn [files world trace].
    rewrite lookup_insert_eq, lookup_insert_ne, lookup_delete_eq by congruence.
    repeat split; eauto; congruence.
Qed.
(** *** What a handler adds to the call trace *)

(** File-level events: the ones [_download_track_sync] makes. *)
Definition file_event (ev : Event) : bool :=
  match ev with
  | EvExtractFlac _ _ | EvMove _ _ => true
  | _ => false
  end.

(** [c] only appends file-level events to the trace. *)
Definition file_events_only {A} (c : M (State World) A) : Prop :=
  forall st, exists evs,
    trace (c st).2 = trace st ++ evs /\ forallb file_event evs = true.

Lemma feo_ret {A} (a : A) : file_events_only (ret a).
Proof. intros st. exists []. now rewrite app_nil_r. Qed.

Lemma feo_raise {A} (e : exn) : file_events_only (raise (A := A) e).
Proof. intros st. exists []. now rewrite app_nil_r. Qed.

Lemma feo_lift {A} (r : outcome A) : file_events_only (lift_outcome r).
Proof. intros st. exists []. now rewrite app_nil_r. Qed.

Lemma feo_gets {A} (f : State World -> A) : file_events_only (gets f).
Proof. intros st. exists []. now rewrite app_nil_r. Qed.

Lemma feo_call {A} (f : World -> outcome A * World) : file_events_only (call f).
Proof.
  intros st. exists []. unfold call. destruct (f (world st)).
  now rewrite app_nil_r.
Qed.

Lemma feo_call_fs {A}
    (f : gmap string string -> World -> outcome A * gmap string string * World) :
  file_events_only (call_fs f).
Proof.
  intros st. exists []. unfold call_fs. destruct (f (files st) (world st)) as [[? ?] ?].
  now rewrite app_nil_r.
Qed.

Lemma feo_emit ev : file_event ev = true -> file_events_only (emit ev).
Proof. intros Hev st. exists [ev]. simpl. now rewrite Hev. Qed.

Lemma feo_write path data : file_events_only (write_bytes path data).
Proof. intros st. exists []. now rewrite app_nil_r. Qed.

Lemma feo_unlink path : file_events_only (unlink_missing_ok path).
Proof. intros st. exists []. now rewrite app_nil_r. Qed.

Lemma feo_bind {A B} (c : M (State World) A) (k : A -> M (State World) B) :
  file_events_only c -> (forall a, file_events_only (k a)) ->
  file_events_only (bind c k).
Proof.
  intros Hc Hk st. unfold bind. destruct (Hc st) as (evs & Heq & Hall).
  destruct (c st) as [[e | a] st1]; cbn [snd] in *; [now exists evs|].
  destruct (Hk a st1) as (evs' & Heq' & Hall').
  exists (evs ++ evs'). rewrite Heq', Heq, app_assoc, forallb_app, Hall, Hall'.
  now split.
Qed.

Lemma feo_try {A} (c : M (State World) A) (h : exn -> M (State World) A) :
  file_events_only c -> (forall e, file_events_only (h e)) ->
  file_events_only (try_except c h).
Proof.
  intros Hc Hh st. unfold try_except. destruct (Hc st) as (evs & Heq & Hall).
  destruct (c st) as [[e | a] st1]; cbn [snd] in *; [|now exists evs].
  destruct (Hh e st1) as (evs' & Heq' & Hall').
  exists (evs ++ evs'). rewrite Heq', Heq, app_assoc, forallb_app, Hall, Hall'.
  now split.
Qed.

Lemma feo_move src dst : file_events_only (shutil_move src dst).
Proof.
  unfold shutil_move. apply feo_bind; [now apply feo_emit|]. intros _.
  apply feo_bind; [apply feo_gets|]. intros fs.
  destruct (fs !! src); [|apply feo_raise].
  intros st. exists []. now rewrite app_nil_r.
Qed.

Lemma feo_stat path : file_events_only (stat_size path).
Proof.
  unfold stat_size. apply feo_bind; [apply feo_gets|]. intros fs.
  destruct (fs !! path); [apply feo_ret | apply feo_raise].
Qed.

Lemma feo_finalize ext tmp path : file_events_only (finalize_file ext tmp path).
Proof.
  unfold finalize_file. destruct (String.eqb ext ".flac"); [|apply feo_move].
  apply feo_try; [|intros _; apply feo_move].
  apply feo_bind; [now apply feo_emit|]. intros _.
  apply feo_bind; [apply feo_call_fs|]. intros _. apply feo_unlink.
Qed.

Lemma feo_embed path track album : file_events_only (embed_metadata path track album).
Proof.
  unfold embed_metadata. apply feo_try; [apply feo_call_fs|].
  intros _. apply feo_ret.
Qed.

Lemma feo_download api track_id quality template base :
  file_events_only (_download_track_sync api track_id quality template base).
Proof.
  unfold _download_track_sync.
  apply feo_bind; [apply feo_call|]. intros track.
  apply feo_bind; [apply feo_call|]. intros album.
  apply feo_bind; [apply feo_lift|]. intros relative_path.
  apply feo_bind; [apply feo_call|]. intros stream.
  apply feo_bind; [apply feo_lift|]. intros [urls file_extension].
  apply feo_bind; [apply feo_call|]. intros stream_data.
  apply feo_bind; [apply feo_write|]. intros _.
  apply feo_bind; [apply feo_finalize|]. intros _.
  apply feo_bind; [apply feo_embed|]. intros _.
  apply feo_bind; [apply feo_stat|]. intros size. apply feo_ret.
Qed.


(** *** The download loop *)

(** One pass of the loop body's [try] (415-424): the download is handed to
    a worker thread and awaited. *)
Definition attempt (api : TidalAPI) (req : DownloadAlbumRequest) (track : Track)
  : M (State World) DownloadResult :=
  emit (EvDownloadTrack (track_id track)) ;;;
  _download_track_sync api (track_id track) (req_quality req)
    (req_output_template req) MUSIC_PATH.

Definition sleep_before (d : Q) (i : nat) (st : State World) : State World :=
  if (0 <? i)%nat then mkState (files st) (world st) (trace st ++ [EvSleep d])
  else st.

(** What the download of each track did, in order, each one starting in the
    state its predecessor left; [d] is the delay between tracks. *)
Fixpoint outcomes (d : Q) (api : TidalAPI) (req : DownloadAlbumRequest)
    (i : nat) (tracks : list Track) (st : State World)
  : list (Track * outcome DownloadResult) * State World :=
  match tracks with
  | [] => ([], st)
  | track :: rest =>
      let '(r, st1) := attempt api req track (sleep_before d i st) in
      let '(os, st2) := outcomes d api req (S i) rest st1 in
      ((track, r) :: os, st2)
  end.

Definition succeeded (o : Track * outcome DownloadResult) : option DownloadResult :=
  match o.2 with inr result => Some result | inl _ => None end.

Definition failed (o : Track * outcome DownloadResult) : option TrackError :=
  match o.2 with
  | inl e => Some {| err_track_id := track_id o.1;
                     err_title := track_title o.1;
                     err_error := exn_str e |}
  | inr _ => None
  end.

(** The calls the loop makes for [tracks], the head having index [i]. *)
Fixpoint schedule_from (d : Q) (i : nat) (tracks : list Track) : list Event :=
  match tracks with
  | [] => []
  | track :: rest =>
      (if (0 <? i)%nat then [EvSleep d] else [])
      ++ EvDownloadTrack (track_id track) :: schedule_from d (S i) rest
  end.

(** Download first, then a pause before each further download. *)
Definition schedule (d : Q) (tracks : list Track) : list Event :=
  match tracks with
  | [] => []
  | first :: rest =>
      EvDownloadTrack (track_id first)
      :: flat_map (fun t => [EvSleep d; EvDownloadTrack (track_id t)]) rest
  end.

Definition started (ev : Event) : option Z :=
  match ev with EvDownloadTrack id => Some id | _ => None end.

Lemma download_tracks_outcomes d api req :
  track_delay = inr d ->
  forall tracks i results errors st,
    download_tracks api req i tracks results errors st
    = (inr (results ++ omap succeeded (outcomes d api req i tracks st).1,
            errors ++ omap failed (outcomes d api req i tracks st).1),
       (outcomes d api req i tracks st).2).
Proof.
  intros Hd. induction tracks as [|track rest IH]; intros i results errors st.
  - cbn. now rewrite !app_nil_r.
  - cbn [download_tracks outcomes]. unfold bind at 1.
    assert ((if (0 <? i)%nat
             then let* delay := lift_outcome track_delay in emit (EvSleep delay)
             else ret tt) st = (inr tt, sleep_before d i st)) as ->.
    { unfold sleep_before. destruct (0 <? i)%nat; [|reflexivity].
      rewrite Hd. reflexivity. }
    unfold attempt, try_except, bind, emit, modify, ret.
    destruct (_download_track_sync _ _ _ _ _ _) as [[e | result] st1].
    + rewrite IH.
      destruct (outcomes d api req (S i) rest st1) as [os st2]. cbn.
      now rewrite <- !app_assoc.
    + rewrite IH.
      destruct (outcomes d api req (S i) rest st1) as [os st2]. cbn.
      now rewrite <- !app_assoc.
Qed.

(** Line 411 is outside the [try] of the loop body: when the configured
    delay does not read as a number, the batch stops with that error
    before its second download. *)
Lemma unreadable_delay_stops_batch api req (e : exn) first second rest
    results errors (st : State World) :
  track_delay = inl e ->
  (download_tracks api req 0 (first :: second :: rest) results errors st).1
  = inl e.
Proof.
  intros Hd. cbn [download_tracks]. unfold bind at 1. cbn [Nat.ltb Nat.leb].
  unfold ret at 1. unfold bind at 1.
  destruct (try_except _ _ st) as [[e1 | [results1 errors1]] st1] eqn:Hfirst.
  - exfalso. revert Hfirst.
    unfold try_except, bind, emit, modify, ret.
    destruct (_download_track_sync _ _ _ _ _ _) as [[e2 | result] st2];
      intros Hrun; discriminate Hrun.
  - unfold bind at 1. rewrite Hd. reflexivity.
Qed.

Lemma outcomes_tracks d api req tracks :
  forall i st, map fst (outcomes d api req i tracks st).1 = tracks.
Proof.
  induction tracks as [|track rest IH]; intros i st; [reflexivity|].
  cbn [outcomes]. destruct (attempt _ _ _ _) as [r st1].
  specialize (IH (S i) st1). destruct (outcomes d api req (S i) rest st1).
  cbn in *. now rewrite IH.
Qed.

Lemma succeeded_failed_length (os : list (Track * outcome DownloadResult)) :
  (length (omap succeeded os) + length (omap failed os) = length os)%nat.
Proof.
  induction os as [|[t [e | r]] os IH]; cbn; [reflexivity | |]; lia.
Qed.

Lemma schedule_from_S d i tracks :
  schedule_from d (S i) tracks
  = flat_map (fun t => [EvSleep d; EvDownloadTrack (track_id t)]) tracks.
Proof.
  revert i. induction tracks as [|t rest IH]; intros i; [reflexivity|].
  cbn. now rewrite IH.
Qed.

Lemma schedule_from_0 d tracks : schedule_from d 0 tracks = schedule d tracks.
Proof. destruct tracks; [reflexivity|]. cbn. now rewrite schedule_from_S. Qed.

Lemma started_schedule_from d tracks :
  forall i, omap started (schedule_from d i tracks) = map track_id tracks.
Proof.
  induction tracks as [|t rest IH]; intros i; [reflexivity|].
  cbn [schedule_from]. specialize (IH (S i)).
  destruct (0 <? i)%nat; cbn in *; now rewrite IH.
Qed.

Lemma started_filter (evs : list Event) :
  omap started (List.filter (fun ev => negb (file_event ev)) evs) = omap started evs.
Proof.
  induction evs as [|[] evs IH]; cbn; rewrite ?IH; reflexivity.
Qed.

Lemma filter_file_events (evs : list Event) :
  forallb file_event evs = true ->
  List.filter (fun ev => negb (file_event ev)) evs = [].
Proof.
  induction evs as [|ev evs IH]; cbn; [reflexivity|].
  destruct (file_event ev) eqn:Hev; cbn; [|discriminate].
  intros Hall. now apply IH.
Qed.

Lemma outcomes_trace d api req tracks :
  forall i st, exists evs,
    trace (outcomes d api req i tracks st).2 = trace st ++ evs
    /\ List.filter (fun ev => negb (file_event ev)) evs = schedule_from d i tracks.
Proof.
  induction tracks as [|track rest IH]; intros i st.
  - exists []. cbn. now rewrite app_nil_r.
  - cbn [outcomes schedule_from].
    unfold attempt, bind, emit, modify.
    destruct (feo_download api (track_id track) (req_quality req)
                (req_output_template req) MUSIC_PATH
                (mkState (files (sleep_before d i st)) (world (sleep_before d i st))
                   (trace (sleep_before d i st) ++ [EvDownloadTrack (track_id track)])))
      as (evs1 & Heq1 & Hall1).
    destruct (_download_track_sync _ _ _ _ _ _) as [r st1]. cbn [snd trace] in Heq1.
    destruct (IH (S i) st1) as (evs2 & Heq2 & Hsched).
    destruct (outcomes d api req (S i) rest st1) as [os st2]. cbn [snd] in *.
    exists ((if (0 <? i)%nat then [EvSleep d] else [])
            ++ [EvDownloadTrack (track_id track)] ++ evs1 ++ evs2).
    split.
    + rewrite Heq2, Heq1. unfold sleep_before.
      destruct (0 <? i)%nat; cbn [trace]; now rewrite <- ?app_assoc.
    + rewrite !List.filter_app, Hsched, (filter_file_events evs1 Hall1).
      destruct (0 <? i)%nat; reflexivity.
Qed.


(** *** The paging loop *)

(** The number of pages of 100 needed to reach a total of [T] items; the
    first page is always fetched. *)
Definition page_count (T : Z) : nat := Z.to_nat (Z.max 1 ((T + 99) / 100)).

(** The offsets [100 * j], [100 * (j + 1)], ... of [k] consecutive pages. *)
Definition page_offsets (j k : nat) : list Z :=
  map (fun i => 100 * Z.of_nat i) (seq j k).

(** The ISRC-carrying items of the pages at [offsets], in order. *)
Definition listed_tracks (page_of : Z -> AlbumItems) (offsets : list Z) : list Track :=
  flat_map (fun offset => omap retained (items (page_of offset))) offsets.

Lemma page_count_reaches T :
  T <= 100 * Z.of_nat (page_count T)
  /\ (page_count T = 1%nat \/ 100 * (Z.of_nat (page_count T) - 1) < T).
Proof.
  unfold page_count.
  pose proof (Z.div_mod (T + 99) 100 ltac:(lia)) as Hdiv.
  pose proof (Z.mod_pos_bound (T + 99) 100 ltac:(lia)) as Hmod.
  set (q := (T + 99) / 100) in *. lia.
Qed.

Lemma page_offsets_before_total T :
  Forall (fun offset => offset = 0 \/ offset < T) (page_offsets 0 (page_count T)).
Proof.
  destruct (page_count_reaches T) as [_ Hlast].
  unfold page_offsets. apply Forall_map, Forall_forall. intros i Hi.
  apply elem_of_seq in Hi. cbn beta. lia.
Qed.

Lemma fetch_tracks_pages api album_id (page_of : Z -> AlbumItems) (T : Z) :
  (forall offset w,
      (get_album_items api album_id 100 offset w).1 = inr (page_of offset)) ->
  (forall offset,
      limit (page_of offset) = 100 /\ totalNumberOfItems (page_of offset) = T) ->
  forall (k j fuel : nat) tracks (st : State World),
    (1 <= k <= fuel)%nat ->
    T <= 100 * (Z.of_nat j + Z.of_nat k) ->
    k = 1%nat \/ 100 * (Z.of_nat j + Z.of_nat k - 1) < T ->
    exists st',
      fetch_tracks fuel api album_id (100 * Z.of_nat j) tracks st
      = (inr (Some (tracks ++ listed_tracks page_of (page_offsets j k))), st')
      /\ trace st' = trace st ++ map (EvGetAlbumItems album_id 100) (page_offsets j k).
Proof.
  intros Hlisting Hpage. induction k as [|k IH]; intros j fuel tracks st Hk Hreach Hlast;
    [lia|].
  destruct fuel as [|fuel]; [lia|].
  cbn [fetch_tracks]. unfold bind, emit, modify, call. cbn [files world trace].
  specialize (Hlisting (100 * Z.of_nat j) (world st)).
  destruct (get_album_items api album_id 100 (100 * Z.of_nat j) (world st))
    as [r w']. cbn [fst] in Hlisting. subst r.
  destruct (Hpage (100 * Z.of_nat j)) as [-> ->].
  rewrite Z.geb_leb.
  destruct (Z.leb_spec T (100 * Z.of_nat j + 100)) as [Hdone | Hmore].
  - assert (k = 0%nat) as -> by lia.
    assert (listed_tracks page_of (page_offsets j 1)
            = omap retained (items (page_of (100 * Z.of_nat j)))) as ->.
    { unfold page_offsets, listed_tracks. cbn. now rewrite app_nil_r. }
    eexists. split; reflexivity.
  - assert (1 <= k)%nat by lia.
    replace (100 * Z.of_nat j + 100) with (100 * Z.of_nat (S j)) by lia.
    edestruct (IH (S j) fuel) as (st' & Hrun & Htrace); [lia | lia | lia |].
    rewrite Hrun. exists st'. split.
    + unfold page_offsets, listed_tracks. cbn [seq map flat_map].
      now rewrite <- app_assoc.
    + rewrite Htrace. cbn [trace]. unfold page_offsets. cbn [seq map].
      now rewrite <- app_assoc.
Qed.


(** C4.  Album download aggregation: once the album and its [N] retained
    tracks have been fetched, the handler answers with total [N],
    downloaded [N - M] and failed [M], where [M] counts the tracks whose
    download raised; [errors] lists exactly those tracks, in order, each
    with its id, its title and the text of the exception; and a download
    was started for every one of the [N] tracks.  The delay configured in
    the environment is taken to be a number. *)
Theorem album_download_aggregation
    (fuel : nat) (req : DownloadAlbumRequest)
    (access_token user_id country_code : string)
    (st st1 st2 : State World) (album : Album) (tracks : list Track) (d : Q) :
  let api := _build_api access_token user_id country_code in
  PyStr.nonempty access_token = true ->
  call (get_album api (req_album_id req)) st = (inr album, st1) ->
  fetch_tracks fuel api (req_album_id req) 0 [] st1 = (inr (Some tracks), st2) ->
  track_delay = inr d ->
  let os := (outcomes d api req 0 tracks st2).1 in
  let N := length tracks in
  let M := length (omap failed os) in
  exists resp st3 evs,
    download_album fuel req access_token user_id country_code st
    = (inr (Some resp), st3)
    /\ map fst os = tracks
    /\ resp_total_tracks resp = N
    /\ resp_downloaded resp = (N - M)%nat
    /\ resp_failed resp = M
    /\ (M <= N)%nat
    /\ resp_errors resp = omap failed os
    /\ length (resp_errors resp) = M
    /\ resp_tracks resp = omap succeeded os
    /\ trace st3 = trace st2 ++ evs
    /\ omap started evs = map track_id tracks.
Proof.
  intros api Htoken Halbum Hfetch Hdelay os N M.
  pose proof (outcomes_tracks d api req tracks 0 st2) as Hos.
  pose proof (succeeded_failed_length os) as Hlen.
  assert (length os = N) as HN.
  { pose proof (f_equal length Hos) as Hl. now rewrite length_map in Hl. }
  destruct (outcomes_trace d api req tracks 0 st2) as (evs & Htrace & Hsched).
  unfold download_album. rewrite Htoken. cbn [negb]. fold api.
  unfold try_except, bind at 1. rewrite Halbum.
  unfold bind at 1. rewrite Hfetch.
  unfold bind at 1. rewrite (download_tracks_outcomes d api req Hdelay).
  fold os. cbn [app].
  eexists _, _, evs. split; [reflexivity|]. cbn.
  repeat split; try done; try lia.
  rewrite <- started_filter, Hsched. apply started_schedule_from.
Qed.

(** C8.  Album orchestration.  Suppose the platform lists the album as the
    pages [page_of offset], each echoing the limit 100 and reporting [T]
    items in total, and the configured delay (["3"] when
    [TIDAL_TRACK_DELAY] is unset) reads as the number [d].  Then the
    handler asks for pages of 100 at the offsets 0, 100, 200, ... and stops
    with the first page that reaches [T]; the tracks it works on are the
    ISRC-carrying items of those pages, in order; and apart from the file
    operations of each download its calls are: the page requests, then a
    download for the first track, then a pause of [d] and a download for
    each further track. *)
Theorem album_orchestration
    (fuel : nat) (req : DownloadAlbumRequest)
    (access_token user_id country_code : string)
    (st st1 : State World) (album : Album)
    (page_of : Z -> AlbumItems) (T : Z) (d : Q) :
  let api := _build_api access_token user_id country_code in
  PyStr.nonempty access_token = true ->
  call (get_album api (req_album_id req)) st = (inr album, st1) ->
  (forall offset w,
      (get_album_items api (req_album_id req) 100 offset w).1
      = inr (page_of offset)) ->
  (forall offset,
      limit (page_of offset) = 100 /\ totalNumberOfItems (page_of offset) = T) ->
  py_float (default "3" (environ !! "TIDAL_TRACK_DELAY")) = inr d ->
  (page_count T <= fuel)%nat ->
  let offsets := page_offsets 0 (page_count T) in
  let tracks := listed_tracks page_of offsets in
  exists resp st2 evs,
    download_album fuel req access_token user_id country_code st
    = (inr (Some resp), st2)
    /\ resp_total_tracks resp = length tracks
    /\ trace st2 = trace st1 ++ evs
    /\ List.filter (fun ev => negb (file_event ev)) evs
       = map (EvGetAlbumItems (req_album_id req) 100) offsets ++ schedule d tracks
    /\ T <= 100 * Z.of_nat (page_count T)
    /\ Forall (fun offset => offset = 0 \/ offset < T) offsets.
Proof.
  intros api Htoken Halbum Hlisting Hpage Hdelay Hfuel offsets tracks.
  destruct (page_count_reaches T) as [Hreach Hlast].
  destruct (fetch_tracks_pages api (req_album_id req) page_of T Hlisting Hpage
              (page_count T) 0 fuel [] st1) as (st2 & Hfetch & Htrace2);
    [unfold page_count in *; lia | lia | lia |].
  fold offsets in Hfetch, Htrace2. cbn [app] in Hfetch. fold tracks in Hfetch.
  destruct (outcomes_trace d api req tracks 0 st2) as (evs & Htrace & Hsched).
  unfold download_album. rewrite Htoken. cbn [negb]. fold api.
  unfold try_except, bind at 1. rewrite Halbum.
  unfold bind at 1. change (100 * Z.of_nat 0) with 0 in Hfetch. rewrite Hfetch.
  unfold bind at 1. rewrite (download_tracks_outcomes d api req Hdelay).
  eexists _, _, (map (EvGetAlbumItems (req_album_id req) 100) offsets ++ evs).
  split; [reflexivity|]. cbn [resp_total_tracks snd].
  split; [reflexivity|]. split; [now rewrite Htrace, Htrace2, app_assoc|].
  split; [|split; [exact Hreach | apply page_offsets_before_total]].
  rewrite List.filter_app, Hsched, schedule_from_0. f_equal.
  clear. induction offsets as [|o offsets IH]; [reflexivity|]. cbn. now rewrite IH.
Qed.

End Runs.

(** *** The properties at work on the demo platform *)

Import TidalDemo.

(** Step 5 on the demo platform, where the FLAC pass raises: the raw
    download ends up at the final path. *)
Lemma finalize_leaves_one_file_witness :
  let file_path := "/music/LP/Song 1.flac" in
  let tmp_path := file_path +:+ ".tmp" in
  let st' := ((write_bytes tmp_path "fLaC-bytes" ;;;
               finalize_file (H := demo) ".flac" tmp_path file_path) demo_state).2 in
  flac_pass_contract (H := demo)
  /\ is_Some (files st' !! file_path)
  /\ files st' !! tmp_path = None.
Proof.
  intros file_path tmp_path st'.
  assert (flac_pass_contract (H := demo)) as Hcontract.
  { intros src dst fs w r fs' w' [= <- <- <-].
    split; [reflexivity | discriminate]. }
  split; [exact Hcontract|].
  destruct (finalize_leaves_one_file (H := demo) ".flac" file_path "fLaC-bytes"
              demo_state st' (inr tt) Hcontract eq_refl)
    as (_ & Hfinal & Htmp & _).
  split; assumption.
Defined.

Definition demo_tracks : list Track := [demo_track 1; demo_track 2; demo_track 3].

Definition demo_listed : State unit :=
  {| files := ∅; world := tt;
     trace := [EvGetAlbumItems 7 100 0; EvGetAlbumItems 7 100 100] |}.

(** The demo album: three tracks, the second one rejected. *)
Lemma album_download_aggregation_witness :
  exists resp st3,
    download_album (H := demo) 5 demo_request "token" "u1" "US" demo_state
    = (inr (Some resp), st3)
    /\ resp_total_tracks resp = 3%nat
    /\ resp_downloaded resp = 2%nat
    /\ resp_failed resp = 1%nat
    /\ resp_errors resp
       = [{| err_track_id := 2; err_title := "Song 2";
             err_error := "404: track not found" |}].
Proof.
  destruct (album_download_aggregation (H := demo) 5 demo_request "token" "u1" "US"
              demo_state demo_state demo_listed demo_album demo_tracks 3%Q)
    as (resp & st3 & evs & Hrun & _ & Htotal & Hdone & Hfailed & _ & Herrors & _);
    [reflexivity | reflexivity | reflexivity | reflexivity |].
  exists resp, st3. repeat split; assumption.
Defined.

(** The demo album: 150 items reported, so two pages; a pause of three
    seconds before the second and the third download. *)
Lemma album_orchestration_witness :
  exists resp st2 evs,
    download_album (H := demo) 5 demo_request "token" "u1" "US" demo_state
    = (inr (Some resp), st2)
    /\ resp_total_tracks resp = 3%nat
    /\ trace st2 = evs
    /\ List.filter (fun ev => negb (file_event ev)) evs
       = [EvGetAlbumItems 7 100 0; EvGetAlbumItems 7 100 100;
          EvDownloadTrack 1; EvSleep 3; EvDownloadTrack 2;
          EvSleep 3; EvDownloadTrack 3].
Proof.
  destruct (album_orchestration (H := demo) 5 demo_request "token" "u1" "US"
              demo_state demo_state demo_album demo_page 150 3%Q)
    as (resp & st2 & evs & Hrun & Htotal & Htrace & Hcalls & _);
    [reflexivity | reflexivity | reflexivity
    | intros offset; unfold demo_page; destruct (offset =? 0); split; reflexivity
    | reflexivity | vm_compute; lia |].
  exists resp, st2, evs. repeat split; assumption.
Defined.




End TidalSpec.

(** ** Handlers that respect a relation between states *)

Module Respects.
Section Respects.
Context {S : Type} (R : S -> S -> Prop) `{!Reflexive R, !Transitive R}.

(** Whatever [c] answers, the state it leaves is [R]-related to the one it
    started in. *)
Definition respects {A} (c : M S A) : Prop := forall s, R s (c s).2.

Lemma respects_ret {A} (a : A) : respects (ret a).
Proof. intros s. reflexivity. Qed.

Lemma respects_raise {A} (e : exn) : respects (raise (A := A) e).
Proof. intros s. reflexivity. Qed.

Lemma respects_lift {A} (r : outcome A) : respects (lift_outcome r).
Proof. intros s. reflexivity. Qed.

Lemma respects_gets {A} (f : S -> A) : respects (gets f).
Proof. intros s. reflexivity. Qed.

Lemma respects_modify (f : S -> S) : (forall s, R s (f s)) -> respects (modify f).
Proof. intros Hf s. apply Hf. Qed.

Lemma respects_bind {A B} (c : M S A) (k : A -> M S B) :
  respects c -> (forall a, respects (k a)) -> respects (bind c k).
Proof.
  intros Hc Hk s. unfold bind. specialize (Hc s).
  destruct (c s) as [[e | a] s1]; cbn [snd] in *; [exact Hc|].
  etransitivity; [exact Hc | apply Hk].
Qed.

Lemma respects_try {A} (c : M S A) (h : exn -> M S A) :
  respects c -> (forall e, respects (h e)) -> respects (try_except c h).
Proof.
  intros Hc Hh s. unfold try_except. specialize (Hc s).
  destruct (c s) as [[e | a] s1]; cbn [snd] in *; [|exact Hc].
  etransitivity; [exact Hc | apply Hh].
Qed.

Lemma respects_if {A} (b : bool) (c1 c2 : M S A) :
  respects c1 -> respects c2 -> respects (if b then c1 else c2).
Proof. now destruct b. Qed.

End Respects.

Section Ensures.
Context {S : Type}.

(** When [c] returns normally, its value and final state satisfy [Q]. *)
Definition ensures {A} (Q : A -> S -> Prop) (c : M S A) : Prop :=
  forall s a s', c s = (inr a, s') -> Q a s'.

Lemma ensures_raise {A} (Q : A -> S -> Prop) (e : exn) : ensures Q (raise e).
Proof. intros s a s' [=]. Qed.

Lemma ensures_bind {A B} (Q : B -> S -> Prop) (c : M S A) (k : A -> M S B) :
  (forall a, ensures Q (k a)) -> ensures Q (bind c k).
Proof.
  intros Hk s b s'. unfold bind.
  destruct (c s) as [[e | a] s1]; [intros [=] | apply Hk].
Qed.

Lemma ensures_try {A} (Q : A -> S -> Prop) (c : M S A) (h : exn -> M S A) :
  ensures Q c -> (forall e, ensures Q (h e)) -> ensures Q (try_except c h).
Proof.
  intros Hc Hh s a s'. unfold try_except.
  destruct (c s) as [[e | a'] s1] eqn:Hrun; [apply Hh|].
  intros [= <- <-]. now apply (Hc s).
Qed.

End Ensures.
End Respects.

(** ** Channel streaming sidecar *)

Module YTMusicSpec.
Import YTMusic Respects.

(** *** The quality table *)

(** yt-dlp's selector language, as far as the table uses it.  Following
    yt-dlp's documentation: alternatives are separated by a slash and tried
    from left to right; [ba] or [bestaudio] is the best audio-only format,
    [wa] or [worstaudio] the worst one; a filter [[abr<=N]] keeps the
    formats whose audio bitrate is known and at most [N]. *)
Inductive Selector :=
| BestAudio
| WorstAudio
| BestAudioUpTo (kbps : Z).

Fixpoint drop_prefix (prefix s : string) : option string :=
  match prefix with
  | EmptyString => Some s
  | String a prefix =>
      match s with
      | String b s => if Ascii.eqb a b then drop_prefix prefix s else None
      | EmptyString => None
      end
  end.

Definition digit (c : ascii) : option Z :=
  let n := Z.of_N (N_of_ascii c) in
  if (48 <=? n) && (n <=? 57) then Some (n - 48) else None.

(** Decimal digits up to a closing bracket that ends the string. *)
Fixpoint parse_bound (seen : option Z) (s : string) : option Z :=
  match s with
  | EmptyString => None
  | String c rest =>
      match digit c with
      | Some d => parse_bound (Some (10 * default 0 seen + d)) rest
      | None =>
          if Ascii.eqb c "]" && negb (PyStr.nonempty rest) then seen else None
      end
  end.

Definition parse_alternative (s : string) : option Selector :=
  if String.eqb s "ba" || String.eqb s "bestaudio" then Some BestAudio
  else if String.eqb s "wa" || String.eqb s "worstaudio" then Some WorstAudio
  else
    match drop_prefix "ba[abr<=" s with
    | Some rest => BestAudioUpTo <$> parse_bound None rest
    | None => None
    end.

Definition parse_selector (s : string) : option (list Selector) :=
  mapM parse_alternative (PyStr.split "/" s).

(** What one alternative picks among the audio-only formats, which yt-dlp
    keeps ordered from worst to best. *)
Definition pick (sel : Selector) (candidates : list Format) : option Format :=
  match sel with
  | BestAudio => last candidates
  | WorstAudio => head candidates
  | BestAudioUpTo kbps =>
      last (List.filter
              (fun f => match get (f_abr f) with
                        | Some a => Qle_bool a (inject_Z kbps)
                        | None => false
                        end) candidates)
  end.

(** The first alternative that picks something. *)
Fixpoint select (alternatives : list Selector) (candidates : list Format)
  : option Format :=
  match alternatives with
  | [] => None
  | sel :: rest =>
      match pick sel candidates with
      | Some f => Some f
      | None => select rest candidates
      end
  end.

(** The policy column of the table in section 4.2 of the specification,
    row by row. *)
Definition table_policy (quality : string) : option (list Selector) :=
  if String.eqb quality "LOW" then Some [BestAudioUpTo 64; WorstAudio]
  else if String.eqb quality "MEDIUM" then
    Some [BestAudioUpTo 128; BestAudioUpTo 192; BestAudio]
  else if String.eqb quality "HIGH" then Some [BestAudioUpTo 256; BestAudio]
  else if String.eqb quality "LOSSLESS" then Some [BestAudio]
  else None.

Lemma worst_none_best_none (candidates : list Format) :
  pick WorstAudio candidates = None -> pick BestAudio candidates = None.
Proof. destruct candidates; [reflexivity | discriminate]. Qed.

Lemma select_trailing_best (alternatives : list Selector) (candidates : list Format) :
  In WorstAudio alternatives \/ In BestAudio alternatives ->
  select (alternatives ++ [BestAudio]) candidates = select alternatives candidates.
Proof.
  induction alternatives as [|sel rest IH]; intros Hin; [destruct Hin as [[] | []]|].
  cbn [app select]. destruct (pick sel candidates) eqn:Hpick; [reflexivity|].
  destruct Hin as [[-> | Hin] | [-> | Hin]].
  - apply worst_none_best_none in Hpick as Hbest.
    clear IH. induction rest as [|sel' rest IH]; cbn [app select].
    + now rewrite Hbest.
    + destruct candidates; [|discriminate]. destruct sel'; cbn; apply IH.
  - apply IH. now left.
  - clear IH. induction rest as [|sel' rest IH]; cbn [app select].
    + now rewrite Hpick.
    + destruct candidates as [|f fs]; [destruct sel'; cbn; apply IH|].
      cbn in Hpick. rewrite last_cons in Hpick. destruct (last fs); discriminate.
  - apply IH. now right.
Qed.

Lemma format_for_cases (quality : string) :
  format_for quality =
    if String.eqb quality "LOW" then "ba[abr<=64]/worstaudio/ba"
    else if String.eqb quality "MEDIUM" then "ba[abr<=128]/ba[abr<=192]/ba"
    else if String.eqb quality "HIGH" then "ba[abr<=256]/ba"
    else if String.eqb quality "LOSSLESS" then "ba/bestaudio"
    else "ba[abr<=256]/ba".
Proof.
  unfold format_for, format_map. cbn [assoc].
  repeat (destruct (String.eqb quality _); [reflexivity|]). reflexivity.
Qed.

(** C7.  The quality mapping is a function defined on every string.  Each
    of LOW, MEDIUM, HIGH and LOSSLESS has its own selector, which reads as a
    list of alternatives that picks, from any list of available audio
    formats, what the policy of the table picks; any other quality gets
    the selector of HIGH. *)
Theorem quality_mapping (quality : string) :
  (exists alternatives, parse_selector (format_for quality) = Some alternatives)
  /\ (forall policy,
         table_policy quality = Some policy ->
         exists alternatives,
           parse_selector (format_for quality) = Some alternatives
           /\ forall candidates,
                select alternatives candidates = select policy candidates)
  /\ (table_policy quality = None -> format_for quality = format_for "HIGH")
  /\ format_for "LOW" = "ba[abr<=64]/worstaudio/ba"
  /\ format_for "MEDIUM" = "ba[abr<=128]/ba[abr<=192]/ba"
  /\ format_for "HIGH" = "ba[abr<=256]/ba"
  /\ format_for "LOSSLESS" = "ba/bestaudio".
Proof.
  rewrite format_for_cases. unfold table_policy.
  split; [|split; [|split; [|repeat split]]].
  - repeat (destruct (String.eqb quality _); [eexists; vm_compute; reflexivity|]).
    eexists; vm_compute; reflexivity.
  - intros policy.
    destruct (String.eqb quality "LOW").
    { intros [= <-]. eexists. split; [vm_compute; reflexivity|].
      intros candidates.
      apply (select_trailing_best [BestAudioUpTo 64; WorstAudio]). left. cbn. tauto. }
    destruct (String.eqb quality "MEDIUM").
    { intros [= <-]. eexists. split; [vm_compute; reflexivity | reflexivity]. }
    destruct (String.eqb quality "HIGH").
    { intros [= <-]. eexists. split; [vm_compute; reflexivity | reflexivity]. }
    destruct (String.eqb quality "LOSSLESS"); [|discriminate].
    intros [= <-]. eexists. split; [vm_compute; reflexivity|].
    intros candidates. apply (select_trailing_best [BestAudio]). right. cbn. tauto.
  - repeat (destruct (String.eqb quality _); [discriminate|]). reflexivity.
Qed.

Section Runs.
Context {World : Type} `{Platform World}.

(** *** The device-code poll *)

Definition pending (code : string) : PollResponse :=
  {| poll_status := "pending"; poll_error := Some code; poll_oauth_json := None |}.

Definition rejected (text : string) : PollResponse :=
  {| poll_status := "error"; poll_error := Some text; poll_oauth_json := None |}.

(** C3.  The answers of the device-code poll.  When the token exchange
    returns an [error] code: [authorization_pending] and [slow_down] are
    answered as pending with that code, [invalid_grant] (like every code
    of the table) with its fixed message, any other code with the generic
    message naming the code.  When the exchange raises: the lowercased
    text is searched for [authorization_pending], then for the codes of the
    same table in order, and when none occurs the failure is an HTTP 500. *)
Theorem device_code_poll_mapping
    (req : DeviceCodePollRequest) (user_id : string) (st : State World) :
  let exchange :=
    token_from_code {| client_id := JStr (req_client_id req);
                       client_secret := JStr (req_client_secret req) |}
                    (req_device_code req) (world st) in
  let answer := (auth_device_code_poll req user_id st).1 in
  (forall token code,
      exchange.1 = inr token -> assoc "error" token = Some (JStr code) ->
      (code = "authorization_pending" \/ code = "slow_down" ->
       answer = inr (pending code))
      /\ (code = "invalid_grant" ->
          answer = inr (rejected
            "The sign-in code has expired or was already used. Please start over."))
      /\ (forall text, code <> "authorization_pending" -> code <> "slow_down" ->
          assoc code ERROR_MESSAGES = Some text -> answer = inr (rejected text))
      /\ (code <> "authorization_pending" -> code <> "slow_down" ->
          assoc code ERROR_MESSAGES = None ->
          answer = inr (rejected
            ("Authorization failed (" +:+ code +:+ "). Please try again."))))
  /\ (forall e,
      exchange.1 = inl e ->
      let text := str_lower (exn_str e) in
      (PyStr.contains "authorization_pending" text = true ->
       answer = inr (pending "authorization_pending"))
      /\ (forall code friendly,
          PyStr.contains "authorization_pending" text = false ->
          List.find (fun kv => PyStr.contains kv.1 text) ERROR_MESSAGES
          = Some (code, friendly) ->
          answer = inr (rejected friendly))
      /\ (PyStr.contains "authorization_pending" text = false ->
          (forall code friendly,
              In (code, friendly) ERROR_MESSAGES -> PyStr.contains code text = false) ->
          answer = inl (HTTPException 500
                          ("Failed to poll device code: " +:+ exn_str e)))).
Proof.
  intros exchange answer. subst exchange answer.
  unfold auth_device_code_poll, try_except, bind, call.
  destruct (token_from_code _ _ _) as [[e | token] w]; cbv beta iota zeta;
    cbn [fst snd]; split.
  - intros token code [=].
  - intros e' [= <-].
    set (text := str_lower (exn_str e)).
    split; [|split].
    + intros ->. reflexivity.
    + intros code friendly -> ->. reflexivity.
    + intros -> Hnone.
      destruct (List.find _ ERROR_MESSAGES) as [[code friendly]|] eqn:Hfind;
        [|reflexivity].
      apply find_some in Hfind as [Hin Hhit]. cbn in Hhit.
      now rewrite (Hnone _ _ Hin) in Hhit.
  - intros token' code [= <-] ->. cbn [format_value friendly_message is_pending].
    split; [|split; [|split]].
    + intros [-> | ->]; reflexivity.
    + intros ->. reflexivity.
    + intros text Hp Hs ->.
      apply String.eqb_neq in Hp, Hs. rewrite Hp, Hs. reflexivity.
    + intros Hp Hs ->.
      apply String.eqb_neq in Hp, Hs. rewrite Hp, Hs. reflexivity.
  - intros e [=].
Qed.

(** *** The handle cache across requests *)

(** Every cached handle is an object that has been allocated. *)
Definition handles_allocated (st : State World) : Prop :=
  forall u h, _ytmusic_instances st !! u = Some h ->
              (yt_object_id h < next_object_id st)%nat.

(** What a run of handlers from [st] to [st'] may do to the handle cache
    and the trace: the trace grows by [evs]; a handle cached at the end was
    cached at the start or was constructed during the run, for that user;
    a catalog call is made on the handle cached for its user at the start
    or on one constructed for that user earlier in the run. *)
Definition handle_discipline (st st' : State World) : Prop :=
  exists evs,
    trace st' = trace st ++ evs
    /\ (next_object_id st <= next_object_id st')%nat
    /\ (forall u h,
           _ytmusic_instances st' !! u = Some h ->
           _ytmusic_instances st !! u = Some h
           \/ ((next_object_id st <= yt_object_id h < next_object_id st')%nat
               /\ In (EvYTMusicInit u) evs))
    /\ (forall i u id,
           evs !! i = Some (EvCatalog u id) ->
           (exists h, _ytmusic_instances st !! u = Some h /\ yt_object_id h = id)
           \/ ((next_object_id st <= id)%nat
               /\ exists j, (j < i)%nat /\ evs !! j = Some (EvYTMusicInit u))).

#[local] Instance handle_discipline_refl : Reflexive handle_discipline.
Proof.
  intros st. exists []. rewrite app_nil_r. repeat split; [lia | auto |].
  intros i u id Hi. now rewrite lookup_nil in Hi.
Qed.

#[local] Instance handle_discipline_trans : Transitive handle_discipline.
Proof.
  intros st1 st2 st3 (evs1 & Ht1 & Hn1 & Hi1 & Hc1) (evs2 & Ht2 & Hn2 & Hi2 & Hc2).
  exists (evs1 ++ evs2). split; [now rewrite Ht2, Ht1, app_assoc|].
  split; [lia|]. split.
  - intros u h Hh. destruct (Hi2 u h Hh) as [Hold | [Hnew Hin]].
    + destruct (Hi1 u h Hold) as [Hold1 | [Hnew1 Hin1]]; [now left|].
      right. split; [lia | apply in_or_app; now left].
    + right. split; [lia | apply in_or_app; now right].
  - intros i u id Hi. apply lookup_app_Some in Hi as [Hi | [Hlen Hi]].
    + destruct (Hc1 i u id Hi) as [Hold | [Hnew (j & Hj & Hinit)]]; [now left|].
      right. split; [exact Hnew|]. exists j. split; [exact Hj|].
      now apply lookup_app_l_Some.
    + destruct (Hc2 _ u id Hi) as [(h & Hh & Hid) | [Hnew (j & Hj & Hinit)]].
      * destruct (Hi1 u h Hh) as [Hold | [Hnew1 Hin1]]; [left; eauto|].
        right. split; [lia|].
        apply list_elem_of_In, list_elem_of_lookup in Hin1 as [j Hj].
        exists j. split; [|now apply lookup_app_l_Some].
        apply lookup_lt_Some in Hj. lia.
      * right. split; [lia|]. exists (length evs1 + j)%nat. split; [lia|].
        rewrite lookup_app_r by lia. now replace (length evs1 + j - length evs1)%nat with j by lia.
Qed.

(** A step that leaves the handle cache and the allocator alone and adds
    no catalog call. *)
Lemma discipline_quiet (st st' : State World) (evs : list Event) :
  _ytmusic_instances st' = _ytmusic_instances st ->
  next_object_id st' = next_object_id st ->
  trace st' = trace st ++ evs ->
  (forall i u id, evs !! i <> Some (EvCatalog u id)) ->
  handle_discipline st st'.
Proof.
  intros Hinst Hnext Htrace Hquiet. exists evs. rewrite Hinst, Hnext.
  repeat split; [exact Htrace | lia | auto |].
  intros i u id Hi. now apply Hquiet in Hi.
Qed.


Abbreviation disciplined := (respects handle_discipline).

Lemma disciplined_call {A} (f : World -> outcome A * World) : disciplined (call f).
Proof.
  intros st. unfold call. destruct (f (world st)) as [r w].
  apply (discipline_quiet _ _ []); cbn; auto using app_nil_r.
Qed.

Lemma disciplined_now : disciplined now.
Proof.
  intros st. unfold now. destruct (time_time (world st)) as [t w].
  apply (discipline_quiet _ _ []); cbn; auto using app_nil_r.
Qed.

Lemma disciplined_emit_init u : disciplined (emit (EvYTMusicInit u)).
Proof.
  intros st. apply (discipline_quiet _ _ [EvYTMusicInit u]); cbn; auto.
  intros [|[|i]] u' id; cbn; congruence.
Qed.

Lemma disciplined_emit_extract fmt url : disciplined (emit (EvExtract fmt url)).
Proof.
  intros st. apply (discipline_quiet _ _ [EvExtract fmt url]); cbn; auto.
  intros [|[|i]] u' id; cbn; congruence.
Qed.

Lemma disciplined_set_files f : disciplined (modify (set_files f)).
Proof.
  intros st. apply (discipline_quiet _ _ []); cbn; auto using app_nil_r.
Qed.

Lemma disciplined_set_cache f : disciplined (modify (set_cache f)).
Proof.
  intros st. apply (discipline_quiet _ _ []); cbn; auto using app_nil_r.
Qed.

Lemma disciplined_path_exists path : disciplined (path_exists path).
Proof. apply respects_gets; exact _. Qed.

Lemma disciplined_read_text path : disciplined (read_text path).
Proof.
  unfold read_text. apply respects_bind; try exact _; [apply respects_gets; exact _ |].
  intros fs. destruct (fs !! path); [apply respects_ret | apply respects_raise]; exact _.
Qed.

Lemma disciplined_write_text path text : disciplined (write_text path text).
Proof. apply disciplined_set_files. Qed.

Lemma disciplined_unlink path : disciplined (unlink path).
Proof.
  unfold unlink. apply respects_bind; try exact _; [apply respects_gets; exact _ |].
  intros fs. destruct (fs !! path); [apply disciplined_set_files | apply respects_raise; exact _].
Qed.

Lemma disciplined_invalidate u : disciplined (_invalidate_ytmusic u).
Proof.
  intros st. exists []. cbn. rewrite app_nil_r. repeat split; [lia | |].
  - intros u' h Hh. apply lookup_delete_Some in Hh as [_ Hh]. now left.
  - intros i u' id Hi. now rewrite lookup_nil in Hi.
Qed.

Lemma disciplined_clear_instances :
  disciplined (modify (set_instances (fun _ => ∅))).
Proof.
  intros st. exists []. cbn. rewrite app_nil_r. repeat split; [lia | |].
  - intros u' h Hh. now rewrite lookup_empty in Hh.
  - intros i u' id Hi. now rewrite lookup_nil in Hi.
Qed.

(** Construction followed by caching (lines 111-118). *)
Lemma disciplined_construct u auth creds :
  disciplined (let* yt := new_YTMusic u auth creds in
               modify (set_instances <[u := yt]>) ;;; ret yt).
Proof.
  intros st. unfold new_YTMusic, emit, call, fresh_object_id, bind, modify, gets, ret.
  cbn [files world trace _ytmusic_instances _stream_cache next_object_id].
  destruct (YTMusic_init auth creds (files st) (world st)) as [[e | []] w]; cbn [snd].
  - apply (discipline_quiet _ _ [EvYTMusicInit u]); cbn; auto.
    intros [|[|i]] u' id; cbn; congruence.
  - exists [EvYTMusicInit u]. cbn. repeat split; [lia | |].
    + intros u' h Hh. destruct (decide (u = u')) as [<- | Hne].
      * rewrite lookup_insert_eq in Hh. injection Hh as <-. right. cbn.
        split; [lia | now left].
      * rewrite lookup_insert_ne in Hh by exact Hne. now left.
    + intros [|[|i]] u' id; cbn; congruence.
Qed.

Ltac discipline_step :=
  first
    [ apply respects_ret
    | apply respects_raise
    | apply respects_lift
    | apply respects_gets
    | apply disciplined_call
    | apply disciplined_now
    | apply disciplined_emit_init
    | apply disciplined_emit_extract
    | apply disciplined_path_exists
    | apply disciplined_read_text
    | apply disciplined_write_text
    | apply disciplined_unlink
    | apply disciplined_invalidate
    | apply disciplined_set_cache
    | apply disciplined_construct
    | apply respects_try
    | apply respects_bind
    | apply respects_if ];
  try exact _;
  try match goal with |- forall _, _ => intros ? end.

Lemma disciplined_get_ytmusic u : disciplined (_get_ytmusic u).
Proof.
  unfold _get_ytmusic.
  apply respects_bind; try exact _; [discipline_step |]. intros instances.
  destruct (instances !! u); [discipline_step|].
  repeat discipline_step.
Qed.


Ltac dbind x :=
  apply respects_bind; try exact _; [try discipline_step | intros x].

Lemma disciplined_resolve key video quality :
  disciplined (resolve_stream key video quality).
Proof.
  unfold resolve_stream. cbv zeta.
  apply respects_try; try exact _; [|intros e; discipline_step].
  dbind ev. dbind info.
  destruct info as [info|]; [|discipline_step].
  destruct (info_empty info); [discipline_step|].
  repeat discipline_step.
Qed.

Lemma disciplined_get_stream_url u v q : disciplined (_get_stream_url_sync u v q).
Proof.
  unfold _get_stream_url_sync. cbv zeta. dbind cache.
  destruct (cache !! _); [|apply disciplined_resolve].
  dbind t. destruct (Qgt_bool _ _); [discipline_step|].
  apply disciplined_resolve.
Qed.

Lemma disciplined_auth_status u : disciplined (auth_status u).
Proof.
  unfold auth_status. dbind present.
  destruct (negb present); [discipline_step|].
  apply respects_try; try exact _; [|intros e; discipline_step].
  apply respects_bind; try exact _; [apply disciplined_get_ytmusic|].
  intros yt. discipline_step.
Qed.

Lemma disciplined_auth_restore body u : disciplined (auth_restore body u).
Proof.
  unfold auth_restore. dbind oauth_json.
  destruct (negb (json_truthy oauth_json)); [discipline_step|].
  apply respects_bind; try exact _.
  { destruct oauth_json; try discipline_step.
    destruct (json_loads s); discipline_step. }
  intros text. repeat discipline_step.
Qed.

Lemma disciplined_auth_clear u : disciplined (auth_clear u).
Proof. unfold auth_clear. repeat discipline_step. Qed.

Lemma disciplined_poll req u : disciplined (auth_device_code_poll req u).
Proof.
  unfold auth_device_code_poll. cbv zeta.
  apply respects_try; try exact _.
  - dbind token. destruct (assoc "error" token) as [error|];
      [|repeat discipline_step].
    destruct (is_pending error); repeat discipline_step.
  - intros e. destruct (PyStr.contains _ _); [discipline_step|].
    destruct (List.find _ _) as [[code friendly]|]; discipline_step.
Qed.

Lemma disciplined_get_stream_info v u q : disciplined (get_stream_info v u q).
Proof.
  unfold get_stream_info.
  apply respects_bind; try exact _; [apply disciplined_get_ytmusic|]. intros yt.
  apply respects_bind; try exact _; [apply disciplined_get_stream_url|].
  intros result. discipline_step.
Qed.

Lemma disciplined_proxy v u q : disciplined (proxy_stream v u q).
Proof.
  unfold proxy_stream.
  apply respects_bind; try exact _; [apply disciplined_get_ytmusic|]. intros yt.
  apply respects_bind; try exact _; [apply disciplined_get_stream_url|].
  intros stream_info. destruct (acodec stream_info); discipline_step.
Qed.

(** A handle that [_get_ytmusic] returns is the one cached for the user. *)
Lemma get_ytmusic_cached u (st st' : State World) (yt : YTMusic) :
  _get_ytmusic u st = (inr yt, st') -> _ytmusic_instances st' !! u = Some yt.
Proof.
  unfold _get_ytmusic. unfold bind at 1, gets at 1.
  destruct (_ytmusic_instances st !! u) as [cached|] eqn:Hcached.
  - intros [= <- <-]. exact Hcached.
  - apply (ensures_bind (fun yt s => _ytmusic_instances s !! u = Some yt)).
    intros [|]; [|apply ensures_raise].
    apply ensures_try; [|intros e; apply ensures_raise].
    do 5 (apply ensures_bind; intros ?).
    intros s a' s'. unfold bind, modify, ret. intros [= <- <-]. cbn.
    apply lookup_insert_eq.
Qed.

Lemma disciplined_catalog op u : disciplined (catalog_route op u).
Proof.
  intros st. unfold catalog_route, bind at 1.
  pose proof (disciplined_get_ytmusic u st) as Hget.
  destruct (_get_ytmusic u st) as [[e | yt] st1] eqn:Hrun; cbn [snd] in *;
    [exact Hget|].
  apply get_ytmusic_cached in Hrun.
  etransitivity; [exact Hget|].
  assert (forall (r : outcome Json) w,
             handle_discipline st1
               (mkState (_ytmusic_instances st1) (_stream_cache st1) (files st1)
                  (next_object_id st1) w
                  (trace st1 ++ [EvCatalog u (yt_object_id yt)]))) as Hcall.
  { intros _ w. exists [EvCatalog u (yt_object_id yt)]. cbn.
    repeat split; [lia | auto |].
    intros [|i] u' id; cbn; [|discriminate].
    intros [= <- <-]. left. eauto. }
  unfold try_except, bind, emit, modify, call, raise.
  cbn [files world trace _ytmusic_instances _stream_cache next_object_id].
  destruct (catalog_call op yt (world st1)) as [[e | answer] w]; cbn [snd];
    apply Hcall; exact (inl (Exception "")).
Qed.

Lemma serve_disciplined (r : Request) (st : State World) :
  handle_discipline st (serve r st).
Proof.
  destruct r; cbn [serve].
  - apply disciplined_auth_status.
  - apply disciplined_auth_restore.
  - apply disciplined_auth_clear.
  - apply disciplined_poll.
  - apply disciplined_catalog.
  - apply disciplined_get_stream_info.
  - apply disciplined_proxy.
Qed.

Lemma serve_all_disciplined (rs : list Request) (st : State World) :
  handle_discipline st (serve_all rs st).
Proof.
  revert st. induction rs as [|r rs IH]; intros st; [reflexivity|].
  cbn. etransitivity; [apply serve_disciplined | apply IH].
Qed.

Lemma handles_allocated_initially (st : State World) :
  _ytmusic_instances st = ∅ -> handles_allocated st.
Proof. intros Hempty u h Hh. now rewrite Hempty, lookup_empty in Hh. Qed.

Lemma handles_allocated_preserved (st st' : State World) :
  handle_discipline st st' -> handles_allocated st -> handles_allocated st'.
Proof.
  intros (evs & _ & Hnext & Hinst & _) Hwf u h Hh.
  destruct (Hinst u h Hh) as [Hold | [Hnew _]]; [|lia].
  specialize (Hwf u h Hold). lia.
Qed.


Lemma handles_allocated_reachable (rs : list Request) (st : State World) :
  _ytmusic_instances st = ∅ -> handles_allocated (serve_all rs st).
Proof.
  intros Hempty. eapply handles_allocated_preserved;
    [apply serve_all_disciplined | now apply handles_allocated_initially].
Qed.

(** *** Credential changes *)

Lemma restore_invalidates body u :
  ensures (fun _ s => _ytmusic_instances s !! u = None) (auth_restore (H := H) body u).
Proof.
  unfold auth_restore. apply ensures_bind. intros oauth_json.
  destruct (negb (json_truthy oauth_json)); [apply ensures_raise|].
  do 5 (apply ensures_bind; intros ?).
  intros s a' s'. unfold bind, _invalidate_ytmusic, modify, ret.
  intros [= <- <-]. cbn. apply lookup_delete_eq.
Qed.

Lemma poll_success_invalidates req u :
  ensures (fun resp s => poll_status resp = "success" ->
                         _ytmusic_instances s !! u = None)
          (auth_device_code_poll (H := H) req u).
Proof.
  unfold auth_device_code_poll. cbv zeta. apply ensures_try.
  - apply ensures_bind. intros token.
    destruct (assoc "error" token) as [error|].
    + destruct (is_pending error).
      * intros s a s' [= <- <-]. discriminate.
      * apply ensures_bind. intros friendly s a s' [= <- <-]. discriminate.
    + do 2 (apply ensures_bind; intros ?).
      intros s a' s'. unfold bind, _invalidate_ytmusic, modify, ret.
      intros [= <- <-] _. cbn. apply lookup_delete_eq.
  - intros e. destruct (PyStr.contains _ _).
    + intros s a s' [= <- <-]. discriminate.
    + destruct (List.find _ _) as [[code friendly]|]; [|apply ensures_raise].
      intros s a s' [= <- <-]. discriminate.
Qed.

Lemma clear_invalidates u (st : State World) :
  _ytmusic_instances (auth_clear u st).2 !! u = None.
Proof.
  unfold auth_clear, _invalidate_ytmusic, path_exists, unlink.
  unfold bind, modify, gets, ret, raise. cbn.
  repeat match goal with
         | |- context [if ?b then _ else _] => destruct b; cbn
         | |- context [match ?x with Some _ => _ | None => _ end] => destruct x; cbn
         end;
    apply lookup_delete_eq.
Qed.

(** The three routes that change a user's credentials leave the stream
    cache as it is. *)
Definition same_cache (st st' : State World) : Prop :=
  _stream_cache st' = _stream_cache st.

#[local] Instance same_cache_refl : Reflexive same_cache.
Proof. intros st. reflexivity. Qed.

#[local] Instance same_cache_trans : Transitive same_cache.
Proof. intros st1 st2 st3 H12 H23. unfold same_cache in *. congruence. Qed.

Lemma same_cache_call {A} (f : World -> outcome A * World) :
  respects same_cache (call f).
Proof. intros st. unfold call. now destruct (f (world st)). Qed.

Lemma same_cache_files f : respects same_cache (modify (set_files f)).
Proof. intros st. reflexivity. Qed.

Lemma same_cache_unlink path : respects same_cache (unlink path).
Proof.
  intros st. unfold unlink, bind, gets, modify, raise. cbn.
  now destruct (files st !! path).
Qed.

Lemma same_cache_invalidate u : respects same_cache (_invalidate_ytmusic u).
Proof. intros st. reflexivity. Qed.

Ltac same_cache_step :=
  first
    [ apply respects_ret
    | apply respects_raise
    | apply respects_lift
    | apply respects_gets
    | apply same_cache_call
    | apply same_cache_files
    | apply same_cache_unlink
    | apply same_cache_invalidate
    | apply respects_try
    | apply respects_bind
    | apply respects_if ];
  try exact _;
  try match goal with |- forall _, _ => intros ? end.

Lemma same_cache_restore body u : respects same_cache (auth_restore body u).
Proof.
  unfold auth_restore, write_text, path_exists.
  apply respects_bind; try exact _; [same_cache_step|]. intros oauth_json.
  destruct (negb (json_truthy oauth_json)); [same_cache_step|].
  apply respects_bind; try exact _.
  { destruct oauth_json; try same_cache_step.
    destruct (json_loads s); same_cache_step. }
  intros text. repeat same_cache_step.
Qed.

Lemma same_cache_clear u : respects same_cache (auth_clear u).
Proof. unfold auth_clear, path_exists. repeat same_cache_step. Qed.

Lemma same_cache_poll req u : respects same_cache (auth_device_code_poll req u).
Proof.
  unfold auth_device_code_poll, write_text. cbv zeta.
  apply respects_try; try exact _.
  - apply respects_bind; try exact _; [same_cache_step|]. intros token.
    destruct (assoc "error" token) as [error|]; [|repeat same_cache_step].
    destruct (is_pending error); repeat same_cache_step.
  - intros e. destruct (PyStr.contains _ _); [same_cache_step|].
    destruct (List.find _ _) as [[code friendly]|]; same_cache_step.
Qed.

(** A request that changes the credentials of [u]: a clear, a restore
    that answers ok, or a poll that answers success. *)
Definition changes_credentials (u : string) (r : Request) (st : State World) : Prop :=
  match r with
  | AuthClearReq u' => u' = u
  | AuthRestoreReq u' body =>
      u' = u /\ exists msg, (auth_restore body u st).1 = inr msg
  | DeviceCodePollReq u' req =>
      u' = u /\ exists resp, (auth_device_code_poll req u st).1 = inr resp
                             /\ poll_status resp = "success"
  | _ => False
  end.

Lemma credential_change_invalidates u r (st : State World) :
  changes_credentials u r st ->
  _ytmusic_instances (serve r st) !! u = None
  /\ _stream_cache (serve r st) = _stream_cache st.
Proof.
  destruct r; cbn [changes_credentials serve]; try tauto.
  - intros [-> [msg Hok]]. split; [|apply same_cache_restore].
    destruct (auth_restore body u st) as [r st1] eqn:Hrun. cbn in *. subst r.
    now apply (restore_invalidates body u st msg st1).
  - intros ->. split; [apply clear_invalidates | apply same_cache_clear].
  - intros [-> (resp & Hok & Hsuccess)]. split; [|apply same_cache_poll].
    destruct (auth_device_code_poll req u st) as [r st1] eqn:Hrun. cbn in *. subst r.
    now apply (poll_success_invalidates req u st resp st1).
Qed.

(** After the cached handle of [u] is gone, every catalog call for [u] is
    made on a handle constructed since. *)
Lemma fresh_handle_after_invalidation u (st1 : State World) (rest : list Request) :
  _ytmusic_instances st1 !! u = None ->
  exists evs,
    trace (serve_all rest st1) = trace st1 ++ evs
    /\ forall i id,
         evs !! i = Some (EvCatalog u id) ->
         (next_object_id st1 <= id)%nat
         /\ exists j, (j < i)%nat /\ evs !! j = Some (EvYTMusicInit u).
Proof.
  intros Hnone.
  destruct (serve_all_disciplined rest st1) as (evs & Htrace & _ & _ & Hcat).
  exists evs. split; [exact Htrace|]. intros i id Hi.
  destruct (Hcat i u id Hi) as [(h & Hh & _) | Hnew]; [congruence | exact Hnew].
Qed.


(** *** The stream cache *)

Definition watch_url (video_id : string) : string :=
  "https://music.youtube.com/watch?v=" +:+ video_id.

Definition cache_key (user_id video_id : string) : string :=
  user_id +:+ ":" +:+ video_id.

Lemma Qgt_bool_true (x y : Q) : Qgt_bool x y = true <-> (y < x)%Q.
Proof.
  unfold Qgt_bool. rewrite negb_true_iff, <- not_true_iff_false, Qle_bool_iff.
  split; [apply Qnot_le_lt | apply Qlt_not_le].
Qed.

Lemma Qgt_bool_false (x y : Q) : Qgt_bool x y = false <-> (x <= y)%Q.
Proof.
  unfold Qgt_bool. rewrite negb_false_iff, Qle_bool_iff. reflexivity.
Qed.

Lemma ttl_seconds : STREAM_CACHE_TTL = 18000%Q.
Proof. reflexivity. Qed.

Lemma resolve_trace key video_id quality (st : State World) :
  trace (resolve_stream key video_id quality st).2
  = trace st ++ [EvExtract (format_for quality) (watch_url video_id)].
Proof.
  unfold resolve_stream, watch_url. cbv zeta.
  unfold try_except, bind, emit, modify, call, raise, lift_outcome, now, ret.
  cbn [files world trace _ytmusic_instances _stream_cache next_object_id].
  destruct (extract_info _ _ (world st)) as [[e | [info|]] w]; cbn; try reflexivity.
  destruct (info_empty info); cbn; [reflexivity|].
  destruct (pick_stream_url info); cbn; [reflexivity|].
  destruct (time_time w). reflexivity.
Qed.

Lemma resolve_failure key video_id quality (st st' : State World) (e : exn) :
  resolve_stream key video_id quality st = (inl e, st') ->
  (exists msg, e = HTTPException 502 ("Failed to extract stream: " +:+ msg))
  /\ _stream_cache st' = _stream_cache st.
Proof.
  unfold resolve_stream. cbv zeta.
  unfold try_except, bind, emit, modify, call, raise, lift_outcome, now, ret.
  cbn [files world trace _ytmusic_instances _stream_cache next_object_id].
  destruct (extract_info _ _ (world st)) as [[e0 | [info|]] w]; cbn;
    try (intros [= <- <-]; split; [eexists; reflexivity | reflexivity]).
  destruct (info_empty info); cbn;
    [intros [= <- <-]; split; [eexists; reflexivity | reflexivity]|].
  destruct (pick_stream_url info); cbn;
    [intros [= <- <-]; split; [eexists; reflexivity | reflexivity]|].
  destruct (time_time w). cbn. intros Hrun. discriminate Hrun.
Qed.

Lemma resolve_success key video_id quality (st st' : State World)
    (entry : StreamEntry) :
  resolve_stream key video_id quality st = (inr entry, st') ->
  expires_at entry
  = ((time_time (extract_info (format_for quality) (watch_url video_id)
                   (world st)).2).1 + STREAM_CACHE_TTL)%Q
  /\ _stream_cache st' = <[key := entry]> (_stream_cache st).
Proof.
  unfold resolve_stream, watch_url. cbv zeta.
  unfold try_except, bind, emit, modify, call, raise, lift_outcome, now, ret.
  cbn [files world trace _ytmusic_instances _stream_cache next_object_id].
  destruct (extract_info _ _ (world st)) as [[e0 | [info|]] w]; cbn;
    try (intros Hrun; discriminate Hrun).
  destruct (info_empty info); cbn; [intros Hrun; discriminate Hrun|].
  destruct (pick_stream_url info); cbn; [intros Hrun; discriminate Hrun|].
  destruct (time_time w) as [t w']. cbn. intros [= <- <-]. now cbn.
Qed.

(** The failures of lines 170-190 all end in the [except] clause. *)
Lemma resolve_fails key video_id quality (st : State World) :
  match (extract_info (format_for quality) (watch_url video_id) (world st)).1 with
  | inl _ => True
  | inr None => True
  | inr (Some info) =>
      info_empty info = true \/ exists e, pick_stream_url info = inl e
  end ->
  exists detail,
    (resolve_stream key video_id quality st).1 = inl (HTTPException 502 detail).
Proof.
  unfold resolve_stream, watch_url. cbv zeta.
  unfold try_except, bind, emit, modify, call, raise, lift_outcome, now, ret.
  cbn [files world trace _ytmusic_instances _stream_cache next_object_id].
  destruct (extract_info _ _ (world st)) as [[e0 | [info|]] w]; cbn;
    try (intros _; eexists; reflexivity).
  intros [-> | [e ->]]; cbn; [eexists; reflexivity|].
  destruct (info_empty info); cbn; eexists; reflexivity.
Qed.

Lemma lookup_absent u v q (st : State World) :
  _stream_cache st !! cache_key u v = None ->
  _get_stream_url_sync u v q st = resolve_stream (cache_key u v) v q st.
Proof.
  intros Hnone. unfold _get_stream_url_sync. cbv zeta. fold (cache_key u v).
  unfold bind at 1, gets. now rewrite Hnone.
Qed.

Lemma lookup_fresh u v q (st : State World) (entry : StreamEntry) :
  _stream_cache st !! cache_key u v = Some entry ->
  ((time_time (world st)).1 < expires_at entry)%Q ->
  _get_stream_url_sync u v q st = (inr entry, (now st).2).
Proof.
  intros Hsome Hlt. unfold _get_stream_url_sync. cbv zeta. fold (cache_key u v).
  unfold bind at 1, gets. rewrite Hsome. unfold bind, now.
  destruct (time_time (world st)) as [t w]. cbn [fst snd] in *.
  apply Qgt_bool_true in Hlt. now rewrite Hlt.
Qed.

Lemma lookup_expired u v q (st : State World) (entry : StreamEntry) :
  _stream_cache st !! cache_key u v = Some entry ->
  (expires_at entry <= (time_time (world st)).1)%Q ->
  _get_stream_url_sync u v q st = resolve_stream (cache_key u v) v q (now st).2.
Proof.
  intros Hsome Hle. unfold _get_stream_url_sync. cbv zeta. fold (cache_key u v).
  unfold bind at 1, gets. rewrite Hsome. unfold bind, now.
  destruct (time_time (world st)) as [t w]. cbn [fst snd] in *.
  apply Qgt_bool_false in Hle. now rewrite Hle.
Qed.

(** The sweep keeps what has not expired. *)
Lemma clean_keeps_live key (entry : StreamEntry) (st : State World) :
  _stream_cache st !! key = Some entry ->
  ((time_time (world st)).1 < expires_at entry)%Q ->
  _stream_cache (_clean_stream_cache st).2 !! key = Some entry.
Proof.
  intros Hin Hlive. unfold _clean_stream_cache, bind, now, modify.
  destruct (time_time (world st)) as [t w]. cbn in *.
  apply map_lookup_filter_Some. split; [exact Hin|].
  cbn. now apply Qgt_bool_true.
Qed.

Lemma now_keeps (st : State World) :
  _stream_cache (now st).2 = _stream_cache st /\ trace (now st).2 = trace st.
Proof. unfold now. now destruct (time_time (world st)). Qed.

(** C5.  The time to live of a stream cache entry.  An entry that the miss
    path stores, the clock reading [T] at that moment, expires at
    [T + 18000]; as long as it is in the cache, a lookup at a clock reading
    before that, such as [T + 17999], makes no extraction and returns the
    entry as it is, whatever quality is asked for; a lookup at or after
    it, such as [T + 18001], runs the miss path again. *)
Theorem stream_cache_ttl
    (user_id video_id quality : string) (st st1 : State World)
    (entry : StreamEntry) :
  let key := cache_key user_id video_id in
  let T := (time_time (extract_info (format_for quality) (watch_url video_id)
                         (world st)).2).1 in
  resolve_stream key video_id quality st = (inr entry, st1) ->
  expires_at entry = (T + 18000)%Q
  /\ _stream_cache st1 !! key = Some entry
  /\ forall (st2 : State World) (quality2 : string),
       _stream_cache st2 !! key = Some entry ->
       let t := (time_time (world st2)).1 in
       let lookup := _get_stream_url_sync user_id video_id quality2 st2 in
       ((t < T + 18000)%Q ->
        lookup.1 = inr entry
        /\ _stream_cache lookup.2 = _stream_cache st2
        /\ trace lookup.2 = trace st2)
       /\ ((T + 18000 <= t)%Q ->
           lookup = resolve_stream key video_id quality2 (now st2).2
           /\ trace lookup.2
              = trace st2 ++ [EvExtract (format_for quality2) (watch_url video_id)])
       /\ ((t == T + 17999)%Q -> lookup.1 = inr entry)
       /\ ((t == T + 18001)%Q ->
           trace lookup.2
           = trace st2 ++ [EvExtract (format_for quality2) (watch_url video_id)]).
Proof.
  intros key T Hres.
  destruct (resolve_success _ _ _ _ _ _ Hres) as [Hexp Hcache].
  fold T in Hexp. rewrite ttl_seconds in Hexp.
  split; [exact Hexp|]. split; [rewrite Hcache; apply lookup_insert_eq|].
  intros st2 quality2 Hin t lookup.
  destruct (now_keeps st2) as [Hkeep_cache Hkeep_trace].
  assert ((t < T + 18000)%Q -> lookup = (inr entry, (now st2).2)) as Hhit.
  { intros Hlt. apply lookup_fresh; [exact Hin | now rewrite Hexp]. }
  assert ((T + 18000 <= t)%Q ->
          lookup = resolve_stream key video_id quality2 (now st2).2
          /\ trace lookup.2
             = trace st2 ++ [EvExtract (format_for quality2) (watch_url video_id)])
    as Hmiss.
  { intros Hle. assert (lookup = resolve_stream key video_id quality2 (now st2).2) as ->.
    { apply (lookup_expired _ _ _ _ entry); [exact Hin | now rewrite Hexp]. }
    split; [reflexivity|]. now rewrite resolve_trace, Hkeep_trace. }
  split; [|split; [exact Hmiss|split]].
  - intros Hlt. rewrite (Hhit Hlt). cbn [fst snd]. auto.
  - intros Heq. rewrite Hhit; [reflexivity|]. rewrite Heq. lra.
  - intros Heq. apply Hmiss. rewrite Heq. lra.
Qed.

(** C10.  A failed stream resolution answers 502 and leaves the stream
    cache as it was, having made one extraction attempt; a request for the
    same key that finds the cache entry unchanged, at a clock reading that
    is not earlier, makes an extraction attempt again.  The failures of
    the extraction (an exception, no info, no usable URL) all fail the
    resolution in this way. *)
Theorem stream_failure_atomic
    (user_id video_id quality : string) (st st' : State World) (e : exn) :
  let key := cache_key user_id video_id in
  _get_stream_url_sync user_id video_id quality st = (inl e, st') ->
  (exists msg, e = HTTPException 502 ("Failed to extract stream: " +:+ msg))
  /\ _stream_cache st' = _stream_cache st
  /\ trace st' = trace st ++ [EvExtract (format_for quality) (watch_url video_id)]
  /\ (forall (st2 : State World) (quality2 : string),
         _stream_cache st2 !! key = _stream_cache st' !! key ->
         ((time_time (world st)).1 <= (time_time (world st2)).1)%Q ->
         trace (_get_stream_url_sync user_id video_id quality2 st2).2
         = trace st2 ++ [EvExtract (format_for quality2) (watch_url video_id)])
  /\ (forall (st0 : State World),
         match (extract_info (format_for quality) (watch_url video_id)
                  (world st0)).1 with
         | inl _ => True
         | inr None => True
         | inr (Some info) =>
             info_empty info = true \/ exists e', pick_stream_url info = inl e'
         end ->
         exists detail,
           (resolve_stream key video_id quality st0).1
           = inl (HTTPException 502 detail)).
Proof.
  intros key Hrun.
  destruct (now_keeps st) as [Hnow_cache Hnow_trace].
  assert (exists s,
             resolve_stream key video_id quality s = (inl e, st')
             /\ _stream_cache s = _stream_cache st /\ trace s = trace st
             /\ forall entry, _stream_cache st !! key = Some entry ->
                              (expires_at entry <= (time_time (world st)).1)%Q)
    as (s & Hres & Hs_cache & Hs_trace & Hexpired).
  { destruct (_stream_cache st !! key) as [entry|] eqn:Hlookup.
    - destruct (Qlt_le_dec (time_time (world st)).1 (expires_at entry)) as [Hlt | Hle].
      + rewrite (lookup_fresh _ _ _ _ entry Hlookup Hlt) in Hrun. discriminate.
      + rewrite (lookup_expired _ _ _ _ entry Hlookup Hle) in Hrun.
        exists (now st).2. repeat split; try assumption. now intros ? [= <-].
    - rewrite (lookup_absent _ _ _ _ Hlookup) in Hrun.
      exists st. repeat split; try assumption. discriminate. }
  destruct (resolve_failure _ _ _ _ _ _ Hres) as [Hmsg Hcache].
  split; [exact Hmsg|]. split; [congruence|].
  split; [rewrite <- Hs_trace; pose proof (resolve_trace key video_id quality s) as Ht;
          now rewrite Hres in Ht|].
  split; [|intros st0; apply resolve_fails].
  intros st2 quality2 Hsame Hclock.
  rewrite Hcache, Hs_cache in Hsame.
  destruct (now_keeps st2) as [_ Hnow2].
  destruct (_stream_cache st2 !! key) as [entry|] eqn:Hlookup2.
  - rewrite (lookup_expired _ _ _ _ entry Hlookup2).
    + now rewrite resolve_trace, Hnow2.
    + eapply Qle_trans; [apply Hexpired; now symmetry | exact Hclock].
  - rewrite (lookup_absent _ _ _ _ Hlookup2). apply resolve_trace.
Qed.

(** C1, as the code has it.  A change of a user's credentials (a clear,
    a restore that answers ok, a poll that answers success) drops the
    user's cached client handle, so that every later catalog call for the
    user is preceded by a new construction; it leaves the stream cache
    exactly as it was, and an entry of the user that has not expired is
    still served from the cache afterwards. *)
Theorem credential_change_effect
    (user_id : string) (r : Request) (st : State World) :
  changes_credentials user_id r st ->
  let st1 := serve r st in
  _ytmusic_instances st1 !! user_id = None
  /\ _stream_cache st1 = _stream_cache st
  /\ (forall rest, exists evs,
         trace (serve_all rest st1) = trace st1 ++ evs
         /\ forall i id,
              evs !! i = Some (EvCatalog user_id id) ->
              exists j, (j < i)%nat /\ evs !! j = Some (EvYTMusicInit user_id))
  /\ (forall video_id quality entry,
         _stream_cache st !! cache_key user_id video_id = Some entry ->
         ((time_time (world st1)).1 < expires_at entry)%Q ->
         (_get_stream_url_sync user_id video_id quality st1).1 = inr entry).
Proof.
  intros Hchange st1.
  destruct (credential_change_invalidates _ _ _ Hchange) as [Hnone Hcache].
  fold st1 in Hnone, Hcache.
  split; [exact Hnone|]. split; [exact Hcache|]. split.
  - intros rest.
    destruct (fresh_handle_after_invalidation user_id st1 rest Hnone)
      as (evs & Htrace & Hcat).
    exists evs. split; [exact Htrace|]. intros i id Hi. now apply Hcat in Hi.
  - intros video_id quality entry Hentry Hlive.
    rewrite <- Hcache in Hentry.
    now rewrite (lookup_fresh _ _ quality _ entry Hentry Hlive).
Qed.

(** C9.  After a clear, or a restore that answers ok, for a user, that
    user has no cached handle; and in whatever requests follow, every
    catalog call for the user comes after a new handle construction for
    the user and is made on an object that was in nobody's cache before. *)
Theorem handle_rebuilt_after_invalidation
    (user_id : string) (r : Request) (rest : list Request) (st : State World) :
  handles_allocated st ->
  (r = AuthClearReq user_id
   \/ exists body msg,
        r = AuthRestoreReq user_id body
        /\ (auth_restore body user_id st).1 = inr msg) ->
  let st1 := serve r st in
  let st2 := serve_all rest st1 in
  _ytmusic_instances st1 !! user_id = None
  /\ exists evs,
       trace st2 = trace st1 ++ evs
       /\ forall i id,
            evs !! i = Some (EvCatalog user_id id) ->
            (exists j, (j < i)%nat /\ evs !! j = Some (EvYTMusicInit user_id))
            /\ (forall u old,
                   _ytmusic_instances st !! u = Some old -> yt_object_id old <> id).
Proof.
  intros Hwf Hr st1 st2.
  assert (changes_credentials user_id r st) as Hchange.
  { destruct Hr as [-> | (body & msg & -> & Hok)]; cbn; eauto. }
  destruct (credential_change_invalidates _ _ _ Hchange) as [Hnone _].
  fold st1 in Hnone. split; [exact Hnone|].
  destruct (fresh_handle_after_invalidation user_id st1 rest Hnone)
    as (evs & Htrace & Hcat).
  exists evs. split; [exact Htrace|]. intros i id Hi.
  destruct (Hcat i id Hi) as [Hfresh Hinit]. split; [exact Hinit|].
  intros u old Hold. specialize (Hwf u old Hold).
  destruct (serve_disciplined r st) as (_ & _ & Hnext & _). fold st1 in Hnext. lia.
Qed.

End Runs.

(** *** The properties at work on the demo platform *)

Import YTDemo.

(** C1, as the specification words it, fails: Alice's credentials are
    restored, and the stream entry cached for her before is served to the
    next request as it was, with no new extraction. *)
Lemma stale_stream_entry_served_after_restore :
  let change := AuthRestoreReq "alice" demo_restore_body in
  let st1 := serve (H := demo) change demo_state in
  let answer := get_stream_info (H := demo) "song1" "alice" "HIGH" st1 in
  changes_credentials (H := demo) "alice" change demo_state
  /\ _stream_cache demo_state !! "alice:song1" = Some demo_entry
  /\ _ytmusic_instances st1 !! "alice" = None
  /\ (_get_stream_url_sync (H := demo) "alice" "song1" "HIGH" st1).1 = inr demo_entry
  /\ match answer.1 with
     | inr resp => sir_url resp = url demo_entry
     | inl _ => False
     end
  /\ trace answer.2 = [EvYTMusicInit "alice"].
Proof.
  cbv zeta. split; [split; [reflexivity | eexists; vm_compute; reflexivity]|].
  repeat split; vm_compute; reflexivity.
Qed.

Definition demo_poll (device_code : string) : outcome PollResponse :=
  (auth_device_code_poll (H := demo)
     {| req_client_id := "id"; req_client_secret := "secret";
        req_device_code := device_code |} "alice" demo_state).1.

(** The poll answers of C3 on the demo platform; the last exchange raises
    with INVALID_CLIENT in capitals. *)
Example demo_poll_answers :
  demo_poll "authorization_pending" = inr (pending "authorization_pending")
  /\ demo_poll "slow_down" = inr (pending "slow_down")
  /\ demo_poll "invalid_grant"
     = inr (rejected
              "The sign-in code has expired or was already used. Please start over.")
  /\ demo_poll "server_error"
     = inr (rejected "Authorization failed (server_error). Please try again.")
  /\ demo_poll "broken"
     = inr (rejected
              "OAuth client credentials are invalid. Please ask your admin to check the Client ID and Secret.").
Proof. repeat split; vm_compute; reflexivity. Qed.

Example demo_selectors :
  parse_selector (format_for "LOW")
  = Some [BestAudioUpTo 64; WorstAudio; BestAudio]
  /\ parse_selector (format_for "LOSSLESS") = Some [BestAudio; BestAudio]
  /\ format_for "lossless" = "ba[abr<=256]/ba".
Proof. repeat split; vm_compute; reflexivity. Qed.

(** One construction serves the two catalog calls that follow a restore. *)
Example demo_catalog_after_restore :
  trace (serve_all (H := demo)
           [AuthClearReq "alice"; AuthRestoreReq "alice" demo_restore_body;
            CatalogReq "alice" (GetSong "song1");
            CatalogReq "alice" (GetSong "song1")] demo_state)
  = [EvYTMusicInit "alice"; EvCatalog "alice" 1; EvCatalog "alice" 1].
Proof. vm_compute. reflexivity. Qed.

(** A poll that succeeds for Alice drops her handle and keeps the stream
    cache. *)
Lemma credential_change_effect_witness :
  let change := DeviceCodePollReq "alice"
                  {| req_client_id := "id"; req_client_secret := "secret";
                     req_device_code := "approved" |} in
  let st1 := serve (H := demo) change demo_state in
  changes_credentials (H := demo) "alice" change demo_state
  /\ _ytmusic_instances st1 !! "alice" = None
  /\ _stream_cache st1 = _stream_cache demo_state.
Proof.
  cbv zeta.
  assert (changes_credentials (H := demo) "alice"
            (DeviceCodePollReq "alice"
               {| req_client_id := "id"; req_client_secret := "secret";
                  req_device_code := "approved" |}) demo_state) as Hchange.
  { split; [reflexivity|]. eexists. split; vm_compute; reflexivity. }
  split; [exact Hchange|].
  destruct (credential_change_effect (H := demo) _ _ _ Hchange)
    as (Hnone & Hcache & _).
  split; assumption.
Defined.

(** Alice's credentials are cleared, then restored, then a song is looked
    up. *)
Lemma handle_rebuilt_after_invalidation_witness :
  let st1 := serve (H := demo) (AuthClearReq "alice") demo_state in
  let st2 := serve_all (H := demo)
               [AuthRestoreReq "alice" demo_restore_body;
                CatalogReq "alice" (GetSong "song1")] st1 in
  handles_allocated demo_state
  /\ _ytmusic_instances st1 !! "alice" = None
  /\ exists evs,
       trace st2 = trace st1 ++ evs
       /\ forall i id,
            evs !! i = Some (EvCatalog "alice" id) ->
            (exists j, (j < i)%nat /\ evs !! j = Some (EvYTMusicInit "alice"))
            /\ (forall u old,
                   _ytmusic_instances demo_state !! u = Some old ->
                   yt_object_id old <> id).
Proof.
  cbv zeta.
  assert (handles_allocated demo_state) as Hwf.
  { intros u h Hh. unfold demo_state in Hh. cbn [_ytmusic_instances] in Hh.
    apply lookup_singleton_Some in Hh as [_ <-]. cbn. lia. }
  split; [exact Hwf|].
  apply (handle_rebuilt_after_invalidation (H := demo) "alice" (AuthClearReq "alice"));
    [exact Hwf | now left].
Defined.

(** A first resolution at clock 5000 that takes two seconds. *)
Lemma stream_cache_ttl_witness :
  exists entry st1,
    resolve_stream (H := demo) "alice:song2" "song2" "HIGH" demo_state
    = (inr entry, st1)
    /\ expires_at entry = (5002 + 18000)%Q
    /\ _stream_cache st1 !! "alice:song2" = Some entry.
Proof.
  eexists _, _. split; [vm_compute; reflexivity|].
  match goal with
  | |- expires_at ?entry = _ /\ _stream_cache ?st1 !! _ = _ =>
      destruct (stream_cache_ttl (H := demo) "alice" "song2" "HIGH"
                  demo_state st1 entry) as (Hexp & Hcached & _)
  end; [vm_compute; reflexivity|].
  split; [exact Hexp | exact Hcached].
Defined.

(** The video that yt-dlp cannot extract. *)
Lemma stream_failure_atomic_witness :
  exists e st',
    _get_stream_url_sync (H := demo) "alice" "gone" "HIGH" demo_state = (inl e, st')
    /\ e = HTTPException 502 "Failed to extract stream: Video unavailable"
    /\ _stream_cache st' = _stream_cache demo_state.
Proof.
  eexists _, _. split; [vm_compute; reflexivity|]. split; [reflexivity|].
  match goal with
  | |- _stream_cache ?st' = _ =>
      destruct (stream_failure_atomic (H := demo) "alice" "gone" "HIGH" demo_state st'
                  (HTTPException 502 "Failed to extract stream: Video unavailable"))
        as (_ & Hcache & _)
  end; [vm_compute; reflexivity | exact Hcache].
Defined.

End YTMusicSpec.

(** ** Track download sidecar: further properties *)

Module TidalExtra.
Import Tidal TidalSpec Respects.

(** *** Strings *)

Definition chars (s : string) : list ascii := list_ascii_of_string s.

Lemma lstrip_keeps cs s :
  match PyStr.first_char s with
  | Some c => PyStr.mem c cs = false
  | None => True
  end -> PyStr.lstrip cs s = s.
Proof. destruct s as [|c s]; cbn; [reflexivity|]. now intros ->. Qed.

Lemma rstrip_idempotent cs s :
  PyStr.rstrip cs (PyStr.rstrip cs s) = PyStr.rstrip cs s.
Proof.
  induction s as [|c s IH]; cbn; [reflexivity|].
  destruct (PyStr.rstrip cs s) as [|d kept] eqn:Hk.
  - destruct (PyStr.mem c cs) eqn:Hc; cbn; [reflexivity|]. now rewrite Hc.
  - cbn [PyStr.rstrip]. cbn [PyStr.rstrip] in IH. now rewrite IH.
Qed.

Lemma strip_idempotent cs s :
  PyStr.strip cs (PyStr.strip cs s) = PyStr.strip cs s.
Proof.
  unfold PyStr.strip. rewrite (lstrip_keeps cs (PyStr.rstrip cs _)).
  - apply rstrip_idempotent.
  - destruct (PyStr.first_char (PyStr.rstrip cs (PyStr.lstrip cs s))) eqn:Hf;
      [|exact I].
    apply PyStrFacts.rstrip_first_inv in Hf. now apply PyStrFacts.lstrip_first in Hf.
Qed.

Lemma map_fixed f s :
  (forall c, In c (chars s) -> f c = c) -> PyStr.map f s = s.
Proof.
  unfold chars. induction s as [|c s IH]; cbn; [reflexivity|].
  intros Hf. rewrite Hf by now left. rewrite IH; [reflexivity|].
  intros d Hd. apply Hf. now right.
Qed.

Lemma chars_map f s c :
  In c (chars (PyStr.map f s)) -> exists d, c = f d.
Proof.
  unfold chars. induction s as [|d s IH]; cbn; [tauto|].
  intros [<- | Hin]; [eauto | now apply IH].
Qed.

Lemma scrub_idempotent c : scrub (scrub c) = scrub c.
Proof. destruct c as [[] [] [] [] [] [] [] []]; reflexivity. Qed.

(** X1.  Sanitising a path component twice is the same as sanitising it
    once. *)
Theorem sanitize_idempotent (name : string) :
  _sanitize_path_component (_sanitize_path_component name)
  = _sanitize_path_component name.
Proof.
  unfold _sanitize_path_component. rewrite !replace_chain_scrub.
  rewrite (map_fixed scrub (PyStr.strip ". " (PyStr.map scrub name))).
  - apply strip_idempotent.
  - intros c Hc. apply PyStrFacts.strip_incl in Hc.
    apply chars_map in Hc as [d ->]. apply scrub_idempotent.
Qed.

Lemma mem_chars c s : PyStr.mem c s = false <-> ~ In c (chars s).
Proof.
  unfold chars. induction s as [|d s IH]; cbn; [tauto|].
  destruct (Ascii.eqb_spec c d) as [-> | Hne]; [split; [discriminate | tauto]|].
  rewrite IH. split; [intros Hs [Heq | Hin]; [congruence | tauto] | tauto].
Qed.

Lemma split_no_sep sep s : PyStr.mem sep s = false -> PyStr.split sep s = [s].
Proof.
  induction s as [|c s IH]; cbn; [reflexivity|].
  rewrite (Ascii.eqb_sym sep c).
  destruct (Ascii.eqb c sep); [discriminate|]. intros Hs. now rewrite IH.
Qed.

Lemma split_app_sep sep x rest :
  PyStr.mem sep x = false ->
  PyStr.split sep (x +:+ String sep rest) = x :: PyStr.split sep rest.
Proof.
  induction x as [|c x IH].
  - intros _.
    change (PyStr.split sep (String sep rest) = "" :: PyStr.split sep rest).
    cbn. now rewrite Ascii.eqb_refl.
  - cbn [PyStr.mem]. rewrite (Ascii.eqb_sym sep c).
    destruct (Ascii.eqb c sep) eqn:Hc; [discriminate|]. intros Hx.
    change (PyStr.split sep (String c (x +:+ String sep rest))
            = String c x :: PyStr.split sep rest).
    cbn [PyStr.split]. now rewrite Hc, IH.
Qed.

(** [split] undoes [join] on pieces free of the separator. *)
Lemma split_join sep parts :
  parts <> [] ->
  Forall (fun part => PyStr.mem sep part = false) parts ->
  PyStr.split sep (PyStr.join (String sep "") parts) = parts.
Proof.
  unfold PyStr.join. induction parts as [|x [|y parts] IH]; [congruence | |].
  - intros _ Hall. cbn. apply split_no_sep. now inversion Hall.
  - intros _ Hall. inversion Hall as [|? ? Hx Hrest]. subst.
    change (String.concat (String sep "") (x :: y :: parts))
      with (x +:+ String sep (String.concat (String sep "") (y :: parts))).
    rewrite split_app_sep by exact Hx. f_equal. now apply IH.
Qed.

Definition clean_segment (seg : string) : Prop :=
  seg <> "." /\ seg <> ".."
  /\ (forall c, In c (chars seg) -> existsb (Ascii.eqb c) INVALID_CHARS = false)
  /\ (forall c, PyStr.first_char seg = Some c -> c <> "."%char /\ c <> " "%char)
  /\ (forall c, PyStr.last_char seg = Some c -> c <> "."%char /\ c <> " "%char).

Lemma sanitize_clean name : clean_segment (_sanitize_path_component name).
Proof.
  unfold _sanitize_path_component. rewrite replace_chain_scrub.
  set (seg := PyStr.strip ". " (PyStr.map scrub name)).
  assert (forall c, PyStr.first_char seg = Some c -> c <> "."%char /\ c <> " "%char)
    as Hfirst.
  { intros c Hc. apply not_dot_space. eapply PyStrFacts.strip_first, Hc. }
  split; [|split; [|split; [|split]]].
  - intros Heq. rewrite Heq in Hfirst. now destruct (Hfirst "."%char eq_refl).
  - intros Heq. rewrite Heq in Hfirst. now destruct (Hfirst "."%char eq_refl).
  - intros c Hc. apply PyStrFacts.strip_incl in Hc.
    apply chars_map in Hc as [d ->]. apply scrub_not_stripped.
  - exact Hfirst.
  - intros c Hc. apply not_dot_space. eapply PyStrFacts.strip_last, Hc.
Qed.

(** X2.  The relative path that step 2 produces: its segments are the
    sanitised non-empty segments of the rendered template, one for one and
    in order; none of them is a dot or a double dot, none holds a
    character of [INVALID_CHARS], none starts or ends with a dot or a
    space. *)
Theorem sanitized_path_segments (relative_path : string) :
  let parts :=
    List.map _sanitize_path_component
      (List.filter PyStr.nonempty (PyStr.split "/" relative_path)) in
  (parts <> [] -> PyStr.split "/" (sanitize_relative_path relative_path) = parts)
  /\ (parts = [] -> sanitize_relative_path relative_path = "")
  /\ Forall clean_segment (PyStr.split "/" (sanitize_relative_path relative_path)).
Proof.
  intros parts.
  assert (Forall clean_segment parts) as Hclean.
  { apply Forall_forall. intros seg Hseg.
    apply list_elem_of_In, in_map_iff in Hseg as (name & <- & _).
    apply sanitize_clean. }
  assert (parts <> [] ->
          PyStr.split "/" (sanitize_relative_path relative_path) = parts) as Hsplit.
  { intros Hne. unfold sanitize_relative_path. fold parts. apply split_join; [exact Hne|].
    eapply Forall_impl; [exact Hclean|]. intros seg (_ & _ & Hinvalid & _).
    apply mem_chars. intros Hin. now specialize (Hinvalid _ Hin). }
  split; [exact Hsplit|]. split.
  - intros Hnil. unfold sanitize_relative_path. fold parts. now rewrite Hnil.
  - destruct parts as [|seg parts'] eqn:Hparts.
    + unfold sanitize_relative_path. fold parts. rewrite Hparts. cbn.
      constructor; [|constructor]. repeat split; try discriminate; cbn; tauto.
    + rewrite Hsplit by discriminate. exact Hclean.
Qed.

Lemma rstrip_empty cs s :
  PyStr.rstrip cs s = "" <-> forall c, In c (chars s) -> PyStr.mem c cs = true.
Proof.
  unfold chars. induction s as [|d s IH]; cbn; [tauto|].
  destruct (PyStr.rstrip cs s) as [|e kept].
  - destruct (PyStr.mem d cs) eqn:Hd; split; try discriminate.
    + intros _ c [<- | Hc]; [exact Hd | now apply IH].
    + reflexivity.
    + intros Hall. rewrite Hall in Hd by now left. discriminate.
  - split; [discriminate|]. intros Hall.
    assert (String e kept = "") as Hempty by (apply IH; auto). discriminate.
Qed.

Lemma lstrip_all cs s :
  (forall c, In c (chars (PyStr.lstrip cs s)) -> PyStr.mem c cs = true)
  <-> (forall c, In c (chars s) -> PyStr.mem c cs = true).
Proof.
  unfold chars. induction s as [|d s IH]; cbn; [tauto|].
  destruct (PyStr.mem d cs) eqn:Hd; [|reflexivity].
  rewrite IH. split; [|auto]. intros Hall c [<- | Hc]; auto.
Qed.

Lemma strip_empty cs s :
  PyStr.strip cs s = "" <-> forall c, In c (chars s) -> PyStr.mem c cs = true.
Proof. unfold PyStr.strip. now rewrite rstrip_empty, lstrip_all. Qed.

Lemma in_chars_map f s c :
  In c (chars (PyStr.map f s)) <-> exists d, In d (chars s) /\ c = f d.
Proof.
  unfold chars. induction s as [|e s IH]; cbn.
  - split; [tauto | now intros (d & [] & _)].
  - rewrite IH. split.
    + intros [<- | (d & Hd & ->)]; eauto.
    + intros (d & [<- | Hd] & ->); eauto.
Qed.

Lemma scrub_dot_space c : PyStr.mem (scrub c) ". " = PyStr.mem c ". ".
Proof. destruct c as [[] [] [] [] [] [] [] []]; reflexivity. Qed.

Lemma mem_dot_space c : PyStr.mem c ". " = true <-> c = "."%char \/ c = " "%char.
Proof.
  split; [|now intros [-> | ->]].
  destruct c as [[] [] [] [] [] [] [] []]; cbn; intros [=]; auto.
Qed.

(** X3.  A path component is sanitised to the empty string exactly when
    it is made of dots and spaces only: the characters that are replaced
    are replaced by an underscore, which is not stripped. *)
Theorem sanitize_empty_iff (name : string) :
  _sanitize_path_component name = ""
  <-> forall c, In c (chars name) -> c = "."%char \/ c = " "%char.
Proof.
  unfold _sanitize_path_component. rewrite replace_chain_scrub, strip_empty.
  split.
  - intros Hall c Hc. apply mem_dot_space. rewrite <- scrub_dot_space.
    apply Hall, in_chars_map. eauto.
  - intros Hall c Hc. apply in_chars_map in Hc as (d & Hd & ->).
    rewrite scrub_dot_space. now apply mem_dot_space, Hall.
Qed.

(** *** Runs *)

Section Runs.
Context {World : Type} `{Platform World}.


(** Every property of the results that [_download_track_sync] builds
    (181-190), in a state where the file is at its path, holds of what
    it returns. *)
Lemma download_returns
    (api : TidalAPI) (track_id : Z) (quality output_template dest_base : string)
    (Q : DownloadResult -> State World -> Prop) :
  (forall track album stream raw extension data (st : State World),
      let relative_path := sanitize_relative_path raw in
      let file_path := dest_base +:+ "/" +:+ relative_path +:+ extension in
      files st !! file_path = Some data ->
      Q {| res_track_id := track_id;
           res_title := track_title track;
           res_artist := default "Unknown" (head (track_artists track));
           res_album := album_title album;
           res_quality := audioQuality stream;
           res_file_path := file_path;
           res_relative_path := relative_path +:+ extension;
           res_file_size := String.length data |} st) ->
  ensures Q (_download_track_sync api track_id quality output_template dest_base).
Proof.
  intros HQ. unfold _download_track_sync.
  apply ensures_bind. intros track. apply ensures_bind. intros album.
  apply ensures_bind. intros raw. cbv zeta.
  apply ensures_bind. intros stream.
  apply ensures_bind. intros [urls extension].
  apply ensures_bind. intros stream_data.
  do 3 (apply ensures_bind; intros _).
  intros st result st'. unfold stat_size, bind, gets, ret, raise.
  destruct (files st !! _) as [data|] eqn:Hfile; [|discriminate].
  intros [= <- <-]. now apply HQ.
Qed.




(** The paging loop with a platform that does not advance. *)
Lemma fetch_tracks_stuck (api : TidalAPI) (album_id : Z) :
  (forall offset w, exists page,
      (get_album_items api album_id 100 offset w).1 = inr page
      /\ limit page <= 0 /\ 0 < totalNumberOfItems page) ->
  forall (fuel : nat) (offset : Z) (tracks : list Track) (st : State World),
    offset <= 0 ->
    (fetch_tracks fuel api album_id offset tracks st).1 = inr None.
Proof.
  intros Hstuck. induction fuel as [|fuel IH]; intros offset tracks st Hoffset;
    [reflexivity|].
  cbn [fetch_tracks]. unfold bind, emit, modify, call. cbn [files world trace].
  destruct (Hstuck offset (world st)) as (page & Hpage & Hlimit & Htotal).
  destruct (get_album_items api album_id 100 offset (world st)) as [r w].
  cbn [fst] in Hpage. subst r.
  rewrite Z.geb_leb. destruct (Z.leb_spec (totalNumberOfItems page) (offset + limit page));
    [lia|].
  apply IH. lia.
Qed.

(** X7.  The paging loop relies on the platform to advance it.  When every
    page of the album comes back with a limit of zero (or less) and a
    positive total, the loop is still running after any number of
    iterations: the album route never answers, and never starts a
    download. *)
Theorem paging_never_ends
    (req : DownloadAlbumRequest) (access_token user_id country_code : string)
    (st : State World) (album : Album) :
  let api := _build_api access_token user_id country_code in
  PyStr.nonempty access_token = true ->
  (get_album api (req_album_id req) (world st)).1 = inr album ->
  (forall offset w, exists page,
      (get_album_items api (req_album_id req) 100 offset w).1 = inr page
      /\ limit page <= 0 /\ 0 < totalNumberOfItems page) ->
  forall fuel : nat,
    (download_album fuel req access_token user_id country_code st).1 = inr None.
Proof.
  intros api Htoken Halbum Hstuck fuel.
  unfold download_album. rewrite Htoken. cbn [negb]. fold api.
  unfold try_except, bind at 1, call at 1.
  destruct (get_album api (req_album_id req) (world st)) as [r w].
  cbn [fst] in Halbum. subst r. unfold bind at 1.
  pose proof (fetch_tracks_stuck api (req_album_id req) Hstuck fuel 0 []
                (mkState (files st) w (trace st)) ltac:(lia)) as Hloop.
  destruct (fetch_tracks fuel api (req_album_id req) 0 [] _) as [r st1].
  cbn [fst] in Hloop. subst r. reflexivity.
Qed.

(** X8.  The paging loop ends whenever the platform advances it: if every
    page it answers has a limit of at least one and a total of at most
    [T], then [T] iterations (one, for an empty album) are enough for the
    loop to return its tracks or to fail. *)
Theorem paging_ends
    (api : TidalAPI) (album_id : Z) (T : Z) :
  (forall offset w page,
      (get_album_items api album_id 100 offset w).1 = inr page ->
      1 <= limit page /\ totalNumberOfItems page <= T) ->
  forall (fuel : nat) (st : State World),
    (Z.to_nat (Z.max 1 T) <= fuel)%nat ->
    (fetch_tracks fuel api album_id 0 [] st).1 <> inr None.
Proof.
  intros Hadvance.
  assert (forall (fuel : nat) (offset : Z) tracks (st : State World),
             (1 <= fuel)%nat -> 0 <= offset -> T <= offset + Z.of_nat fuel ->
             (fetch_tracks fuel api album_id offset tracks st).1 <> inr None) as Hloop.
  { induction fuel as [|fuel IH]; intros offset tracks st Hfuel Hoffset Hreach; [lia|].
    cbn [fetch_tracks]. unfold bind, emit, modify, call. cbn [files world trace].
    specialize (Hadvance offset (world st)).
    destruct (get_album_items api album_id 100 offset (world st)) as [[e | page] w];
      [discriminate|].
    destruct (Hadvance page eq_refl) as [Hlimit Htotal].
    rewrite Z.geb_leb.
    destruct (Z.leb_spec (totalNumberOfItems page) (offset + limit page));
      [discriminate|].
    apply IH; lia. }
  intros fuel st Hfuel. apply Hloop; lia.
Qed.

(** The loop of downloads hands every track to exactly one of the two
    lists, under its own id and in order. *)
Lemma download_tracks_accounted api req tracks :
  forall i results errors (st st' : State World) rs es,
    download_tracks api req i tracks results errors st = (inr (rs, es), st') ->
    exists new_results new_errors,
      rs = results ++ new_results /\ es = errors ++ new_errors
      /\ (length new_results + length new_errors = length tracks)%nat
      /\ map res_track_id new_results ++ map err_track_id new_errors
         ≡ₚ map track_id tracks
      /\ sublist (map res_track_id new_results) (map track_id tracks)
      /\ sublist (map err_track_id new_errors) (map track_id tracks).
Proof.
  induction tracks as [|track rest IH]; intros i results errors st st' rs es.
  - cbn. intros [= <- <- <-]. exists [], []. rewrite !app_nil_r.
    repeat split; constructor.
  - cbn [download_tracks]. unfold bind at 1.
    match goal with
    | |- context [(if (0 <? i)%nat then ?pause else ?skip) st] =>
        destruct ((if (0 <? i)%nat then pause else skip) st) as [[e | []] st0]
    end; [discriminate|].
    unfold bind at 1, try_except.
    unfold bind at 1, emit, modify. unfold bind at 1.
    destruct (_download_track_sync _ _ _ _ _ _) as [[e | result] st1] eqn:Hrun.
    + cbn [ret]. intros Hrest.
      destruct (IH _ _ _ _ _ _ _ Hrest) as (nr & ne & -> & -> & Hlen & Hperm & Hsr & Hse).
      exists nr, (({| err_track_id := track_id track; err_title := track_title track;
                      err_error := exn_str e |}) :: ne).
      rewrite <- !app_assoc. cbn. repeat split; [lia | | |].
      * rewrite <- Hperm. symmetry. apply Permutation_middle.
      * now apply sublist_cons.
      * now apply sublist_skip.
    + apply (download_returns _ _ _ _ _
               (fun result _ => res_track_id result = track_id track)) in Hrun
        as Hid; [|reflexivity].
      cbn [ret]. intros Hrest.
      destruct (IH _ _ _ _ _ _ _ Hrest) as (nr & ne & -> & -> & Hlen & Hperm & Hsr & Hse).
      exists (result :: nr), ne.
      rewrite <- !app_assoc. cbn. rewrite Hid. repeat split; [lia | | |].
      * now constructor.
      * now apply sublist_skip.
      * now apply sublist_cons.
Qed.

(** X9.  What an answer of the album route says.  When the route answers,
    the album was found and the paging loop returned a list of tracks;
    the answer counts those tracks, the downloaded and the failed ones
    add up to that count, and every track is in exactly one of the two
    lists, under its own id: the ids of [tracks] followed by those of
    [errors] are the ids of the album's tracks up to order, and each of
    the two lists follows the order of the album. *)
Theorem album_answer_accounts_for_tracks
    (fuel : nat) (req : DownloadAlbumRequest)
    (access_token user_id country_code : string)
    (st st' : State World) (resp : AlbumResponse) :
  let api := _build_api access_token user_id country_code in
  download_album fuel req access_token user_id country_code st
  = (inr (Some resp), st') ->
  exists album tracks st1 st2,
    call (get_album api (req_album_id req)) st = (inr album, st1)
    /\ fetch_tracks fuel api (req_album_id req) 0 [] st1 = (inr (Some tracks), st2)
    /\ resp_album_id resp = req_album_id req
    /\ resp_album_title resp = album_title album
    /\ resp_total_tracks resp = length tracks
    /\ resp_downloaded resp = length (resp_tracks resp)
    /\ resp_failed resp = length (resp_errors resp)
    /\ (resp_downloaded resp + resp_failed resp = resp_total_tracks resp)%nat
    /\ map res_track_id (resp_tracks resp) ++ map err_track_id (resp_errors resp)
       ≡ₚ map track_id tracks
    /\ sublist (map res_track_id (resp_tracks resp)) (map track_id tracks)
    /\ sublist (map err_track_id (resp_errors resp)) (map track_id tracks).
Proof.
  intros api. unfold download_album.
  destruct (PyStr.nonempty access_token); cbn [negb]; [|discriminate].
  fold api. unfold try_except. unfold bind at 1.
  destruct (call (get_album api (req_album_id req)) st) as [[e | album] st1] eqn:Halbum.
  { destruct e; discriminate. }
  unfold bind at 1.
  destruct (fetch_tracks fuel api (req_album_id req) 0 [] st1)
    as [[e | [tracks|]] st2] eqn:Hfetch.
  { destruct e; discriminate. }
  2: { discriminate. }
  unfold bind at 1.
  destruct (download_tracks api req 0 tracks [] [] st2) as [[e | [rs es]] st3] eqn:Hloop.
  { destruct e; discriminate. }
  cbn [ret]. intros [= <- <-].
  destruct (download_tracks_accounted _ _ _ _ _ _ _ _ _ _ Hloop)
    as (nr & ne & -> & -> & Hlen & Hperm & Hsr & Hse).
  exists album, tracks, st1, st2. cbn in *. repeat split; try assumption; lia.
Qed.

End Runs.

(** *** The properties at work on the demo platform *)

Import TidalDemo.




(** The demo platform, except that every page of an album is empty and
    reports a limit of zero out of 150 items. *)
Definition stalled : Platform unit :=
  {| get_track := get_track (Platform := demo);
     get_album := get_album (Platform := demo);
     get_album_items _ _ _ _ w :=
       (inr {| items := []; limit := 0; totalNumberOfItems := 150 |}, w);
     get_track_stream := get_track_stream (Platform := demo);
     format_template := format_template (Platform := demo);
     parse_track_stream := parse_track_stream (Platform := demo);
     download_bytes := download_bytes (Platform := demo);
     extract_flac := extract_flac (Platform := demo);
     add_track_metadata := add_track_metadata (Platform := demo);
     py_float := py_float (Platform := demo);
     environ := environ (Platform := demo) |}.

Lemma paging_never_ends_witness :
  (download_album (H := stalled) 1000 demo_request "token" "u1" "US" demo_state).1
  = inr None.
Proof.
  apply (paging_never_ends (H := stalled) demo_request "token" "u1" "US"
           demo_state demo_album);
    [reflexivity | reflexivity |].
  intros offset w. eexists. split; [reflexivity|]. cbn. lia.
Defined.

Lemma paging_ends_witness :
  (fetch_tracks (H := demo) 150 (_build_api (H := demo) "token" "u1" "US") 7 0 []
     demo_state).1 <> inr None.
Proof.
  apply (paging_ends (H := demo) (_build_api (H := demo) "token" "u1" "US") 7 150).
  - intros offset w page [= <-]. unfold demo_page.
    destruct (offset =? 0); cbn; lia.
  - vm_compute. lia.
Defined.

Lemma album_answer_accounts_for_tracks_witness :
  exists resp st',
    download_album (H := demo) 5 demo_request "token" "u1" "US" demo_state
    = (inr (Some resp), st')
    /\ (resp_downloaded resp + resp_failed resp = resp_total_tracks resp)%nat.
Proof.
  eexists _, _. split; [vm_compute; reflexivity|].
  edestruct (album_answer_accounts_for_tracks (H := demo) 5 demo_request
               "token" "u1" "US" demo_state)
    as (album & tracks & st1 & st2 & _ & _ & _ & _ & _ & _ & _ & Hsum & _);
    [vm_compute; reflexivity|].
  exact Hsum.
Defined.

End TidalExtra.

(** ** Channel streaming sidecar: further properties *)

Module YTMusicExtra.
Import YTMusic YTMusicSpec Respects.

(** *** The credential paths *)

Lemma chars_append (s t : string) :
  list_ascii_of_string (s +:+ t) = list_ascii_of_string s ++ list_ascii_of_string t.
Proof.
  induction s as [|c s IH]; [reflexivity|].
  change (c :: list_ascii_of_string (s +:+ t)
          = c :: (list_ascii_of_string s ++ list_ascii_of_string t)).
  now rewrite IH.
Qed.

Lemma append_inv_tail (s1 s2 t : string) : s1 +:+ t = s2 +:+ t -> s1 = s2.
Proof.
  intros Heq. apply (f_equal list_ascii_of_string) in Heq.
  rewrite !chars_append in Heq. apply app_inv_tail in Heq.
  apply (f_equal string_of_list_ascii) in Heq.
  now rewrite !string_of_list_ascii_of_string in Heq.
Qed.

Section Paths.
Context {World : Type} `{Platform World}.

Lemma oauth_file_inj (u u' : string) : _oauth_file u = _oauth_file u' -> u = u'.
Proof.
  unfold _oauth_file. intros Heq.
  apply (inj (String.app DATA_PATH)) in Heq.
  apply (inj (String.app "/oauth_")) in Heq.
  now apply append_inv_tail in Heq.
Qed.

Lemma client_creds_file_inj (u u' : string) :
  client_creds_file u = client_creds_file u' -> u = u'.
Proof.
  unfold client_creds_file. intros Heq.
  apply (inj (String.app DATA_PATH)) in Heq.
  apply (inj (String.app "/client_creds_")) in Heq.
  now apply append_inv_tail in Heq.
Qed.

Lemma oauth_not_creds (u u' : string) : _oauth_file u <> client_creds_file u'.
Proof.
  unfold _oauth_file, client_creds_file. intros Heq.
  apply (inj (String.app DATA_PATH)) in Heq. discriminate Heq.
Qed.

End Paths.

(** *** The handle cache *)

Section Handles.
Context {World : Type} `{Platform World}.

(** X10.  The handle of a user is built once: after [_get_ytmusic] has
    returned a handle, the next call returns the same object, and it
    neither constructs anything nor changes the state. *)
Theorem get_ytmusic_memoised (user_id : string) (st st1 : State World) (yt : YTMusic) :
  _get_ytmusic user_id st = (inr yt, st1) ->
  _get_ytmusic user_id st1 = (inr yt, st1).
Proof.
  intros Hrun. apply get_ytmusic_cached in Hrun.
  unfold _get_ytmusic, bind, gets. now rewrite Hrun.
Qed.

Definition NOT_AUTHENTICATED : exn :=
  HTTPException 401 "Not authenticated. Please set up OAuth first.".

Definition CREDENTIALS_INVALID : exn :=
  HTTPException 401 "OAuth credentials invalid. Please re-authenticate.".

Ltac run_cases :=
  repeat (match goal with
          | |- context [match ?x with _ => _ end] =>
              lazymatch x with
              | context [match _ with _ => _ end] => fail
              | _ => destruct x eqn:?
              end
          end;
          cbn [files world trace _ytmusic_instances _stream_cache next_object_id
               fst snd]).

(** Every run of [_get_ytmusic], by its outcome. *)
Lemma get_ytmusic_runs (u : string) (st st' : State World) (r : outcome YTMusic) :
  _get_ytmusic u st = (r, st') ->
  files st' = files st
  /\ _stream_cache st' = _stream_cache st
  /\ match r with
     | inl e =>
         _ytmusic_instances st' = _ytmusic_instances st
         /\ _ytmusic_instances st !! u = None
         /\ match files st !! _oauth_file u with
            | None => e = NOT_AUTHENTICATED /\ st' = st
            | Some _ => e = CREDENTIALS_INVALID
            end
     | inr yt =>
         (_ytmusic_instances st !! u = Some yt /\ st' = st)
         \/ (_ytmusic_instances st !! u = None
             /\ is_Some (files st !! _oauth_file u)
             /\ _ytmusic_instances st' = <[u := yt]> (_ytmusic_instances st))
     end.
Proof.
  unfold _get_ytmusic, path_exists. unfold bind at 1, gets at 1.
  destruct (_ytmusic_instances st !! u) as [cached|] eqn:Hcached.
  { intros [= <- <-]. do 2 (split; [reflexivity|]). left. auto. }
  unfold bind at 1, gets at 1.
  destruct (files st !! _oauth_file u) as [text|] eqn:Hfile.
  2: { rewrite bool_decide_eq_false_2 by (intros [? [=]]).
       intros [= <- <-]. repeat split; reflexivity. }
  rewrite bool_decide_eq_true_2 by eauto.
  unfold try_except, read_text, new_YTMusic, emit, call, fresh_object_id, lift_outcome.
  unfold bind, gets, modify, ret, raise.
  cbn [files world trace _ytmusic_instances _stream_cache next_object_id].
  rewrite Hfile. run_cases; intros [= <- <-]; cbn;
    (split; [reflexivity|]; split; [reflexivity|]);
    first [ right; repeat split; eauto; fail | repeat split; reflexivity ].
Qed.

(** [_get_ytmusic] leaves the files and the stream cache alone; it either
    leaves the handles alone or caches a new handle for a user who had
    none and has a credential file. *)
Lemma get_ytmusic_effect (u : string) (st st' : State World) (r : outcome YTMusic) :
  _get_ytmusic u st = (r, st') ->
  files st' = files st
  /\ _stream_cache st' = _stream_cache st
  /\ (_ytmusic_instances st' = _ytmusic_instances st
      \/ exists yt,
           r = inr yt
           /\ _ytmusic_instances st !! u = None
           /\ is_Some (files st !! _oauth_file u)
           /\ _ytmusic_instances st' = <[u := yt]> (_ytmusic_instances st)).
Proof.
  intros Hrun. apply get_ytmusic_runs in Hrun as (Hf & Hc & Hr).
  split; [exact Hf|]. split; [exact Hc|].
  destruct r as [e | yt].
  - left. apply Hr.
  - destruct Hr as [[_ ->] | (Hnone & Hfile & Hi)]; [now left|]. right. eauto.
Qed.


End Handles.

(** *** The credential routes *)

Section Credentials.
Context {World : Type} `{Platform World}.




Lemma auth_clear_runs (user_id : string) (st : State World) :
  auth_clear user_id st
  = (inr {| status := "ok"; message := "OAuth credentials removed" |},
     mkState (delete user_id (_ytmusic_instances st)) (_stream_cache st)
       (delete (client_creds_file user_id) (delete (_oauth_file user_id) (files st)))
       (next_object_id st) (world st) (trace st)).
Proof.
  unfold auth_clear, _invalidate_ytmusic, path_exists, unlink.
  unfold bind, modify, gets, ret, raise. cbn.
  case_bool_decide as Hoauth; cbn.
  - destruct Hoauth as [text Hoauth]. rewrite Hoauth. cbn.
    case_bool_decide as Hcreds; cbn.
    + destruct Hcreds as [creds Hcreds]. now rewrite Hcreds.
    + apply eq_None_not_Some in Hcreds. now rewrite (delete_id _ _ Hcreds).
  - apply eq_None_not_Some in Hoauth. rewrite (delete_id _ _ Hoauth).
    case_bool_decide as Hcreds; cbn.
    + destruct Hcreds as [creds Hcreds]. now rewrite Hcreds.
    + apply eq_None_not_Some in Hcreds. now rewrite (delete_id _ _ Hcreds).
Qed.



End Credentials.

(** *** The choice of the stream URL *)

Lemma pick_stream_url_nonempty (info : Info) (stream_url : string) :
  pick_stream_url info = inr stream_url -> stream_url <> "".
Proof.
  unfold pick_stream_url.
  destruct (if str_truthy (get (i_url info)) then _ else _) as [e | [s|]];
    cbn; try discriminate.
  destruct s; cbn; [discriminate|]. now intros [= <-].
Qed.

Lemma Qle_bool_false (x y : Q) : Qle_bool x y = false -> (y < x)%Q.
Proof.
  intros Hle. apply Qnot_le_lt. intros Hxy.
  apply Qle_bool_iff in Hxy. congruence.
Qed.

(** The head of the sorted list is the first entry of highest bitrate:
    the entries before it in the original order have a lower key, the
    ones after it none higher. *)
Lemma sort_desc_head (formats : list Format) (best : Format) (rest : list Format) :
  sort_desc formats = best :: rest ->
  exists before after,
    formats = before ++ best :: after
    /\ Forall (fun f => (abr_key f < abr_key best)%Q) before
    /\ Forall (fun f => (abr_key f <= abr_key best)%Q) after.
Proof.
  revert best rest. induction formats as [|f formats IH]; intros best rest;
    [discriminate|].
  cbn [sort_desc foldr].
  change (foldr insert_desc [] formats) with (sort_desc formats).
  destruct (sort_desc formats) as [|g sorted] eqn:Hsorted.
  - intros [= <- <-]. exists [], formats. split; [reflexivity|].
    split; [constructor|].
    destruct formats as [|f' formats]; [constructor|].
    cbn [sort_desc foldr] in Hsorted.
    destruct (foldr insert_desc [] formats) as [|h t]; cbn in Hsorted;
      [discriminate|].
    destruct (Qle_bool (abr_key h) (abr_key f')); discriminate.
  - destruct (IH g sorted eq_refl) as (before & after & -> & Hbefore & Hafter).
    cbn [insert_desc].
    destruct (Qle_bool (abr_key g) (abr_key f)) eqn:Hle.
    + intros [= <- <-]. apply Qle_bool_iff in Hle.
      exists [], (before ++ g :: after). split; [reflexivity|].
      split; [constructor|].
      apply Forall_app. split.
      * eapply Forall_impl; [exact Hbefore|]. cbn. intros h Hh.
        apply Qlt_le_weak. eapply Qlt_le_trans; eassumption.
      * constructor; [exact Hle|].
        eapply Forall_impl; [exact Hafter|]. cbn. intros h Hh.
        eapply Qle_trans; eassumption.
    + intros [= <- <-]. apply Qle_bool_false in Hle.
      exists (f :: before), after. split; [reflexivity|].
      split; [constructor; assumption | exact Hafter].
Qed.

(** X17.  Which URL a resolved stream gets.  The URL is never empty.  It
    is the [url] of the info dict when that is non-empty; otherwise it
    is the [url] of the first format of highest bitrate among the
    audio-only entries of [formats] (no video codec, an audio codec other
    than [none]; a missing bitrate counts as zero). *)
Theorem stream_url_choice (info : Info) (stream_url : string) :
  pick_stream_url info = inr stream_url ->
  stream_url <> ""
  /\ (get (i_url info) = Some stream_url
      \/ (str_truthy (get (i_url info)) = false
          /\ exists formats before best after,
               get_default (i_formats info) [] = Some formats
               /\ List.filter audio_only formats = before ++ best :: after
               /\ get (f_url best) = Some stream_url
               /\ Forall (fun f => (abr_key f < abr_key best)%Q) before
               /\ Forall (fun f => (abr_key f <= abr_key best)%Q) after)).
Proof.
  intros Hpick. split; [now apply pick_stream_url_nonempty in Hpick|].
  revert Hpick. unfold pick_stream_url.
  destruct (str_truthy (get (i_url info))) eqn:Hdirect.
  - rewrite Hdirect. destruct (get (i_url info)) as [direct|]; [|discriminate].
    cbn. intros [= <-]. now left.
  - unfold fallback_url.
    destruct (get_default (i_formats info) []) as [formats|]; [|discriminate].
    destruct (sort_desc (List.filter audio_only formats)) as [|best rest] eqn:Hsorted;
      [discriminate|].
    destruct (sort_desc_head _ _ _ Hsorted) as (before & after & Hsplit & Hb & Ha).
    destruct (get (f_url best)) as [found|] eqn:Hurl; cbn; [|discriminate].
    destruct (PyStr.nonempty found); [|discriminate].
    intros [= <-]. right. split; [reflexivity|].
    exists formats, before, best, after. auto.
Qed.

(** *** Shutdown *)

Section Shutdown.
Context {World : Type} `{Platform World}.

(** X18.  What [shutdown] leaves: no handle, and of the stream cache
    exactly the entries that expire after the clock reading of the
    sweep, unchanged; the credential files are not touched. *)
Theorem shutdown_effect (st : State World) :
  let t := (time_time (world st)).1 in
  let st' := (shutdown st).2 in
  (shutdown st).1 = inr tt
  /\ _ytmusic_instances st' = ∅
  /\ files st' = files st
  /\ forall key entry,
       _stream_cache st' !! key = Some entry
       <-> _stream_cache st !! key = Some entry /\ (t < expires_at entry)%Q.
Proof.
  unfold shutdown, _clean_stream_cache, bind, now, modify.
  destruct (time_time (world st)) as [t w]. cbn.
  do 3 (split; [reflexivity|]). intros key entry.
  rewrite map_lookup_filter_Some. cbn. now rewrite Qgt_bool_true.
Qed.

End Shutdown.

(** *** What each part of a request may change *)

Section Effects.
Context {World : Type} `{Platform World}.

(** [_get_stream_url_sync] leaves the files and the handles alone; it
    either leaves the stream cache alone, answering from it when it
    answers, or stores the entry it answers with, whose URL is not empty,
    under the key of the request. *)
Lemma stream_effect (u v q : string) (st st' : State World) (r : outcome StreamEntry) :
  _get_stream_url_sync u v q st = (r, st') ->
  files st' = files st
  /\ _ytmusic_instances st' = _ytmusic_instances st
  /\ ((_stream_cache st' = _stream_cache st
       /\ forall entry, r = inr entry -> _stream_cache st !! cache_key u v = Some entry)
      \/ exists entry,
           r = inr entry /\ url entry <> ""
           /\ _stream_cache st' = <[cache_key u v := entry]> (_stream_cache st)).
Proof.
  assert (forall (s s' : State World),
             resolve_stream (cache_key u v) v q s = (r, s') ->
             files s' = files s
             /\ _ytmusic_instances s' = _ytmusic_instances s
             /\ ((_stream_cache s' = _stream_cache s /\ forall entry, r <> inr entry)
                 \/ exists entry,
                      r = inr entry /\ url entry <> ""
                      /\ _stream_cache s' = <[cache_key u v := entry]> (_stream_cache s)))
    as Hresolve.
  { intros s s'. unfold resolve_stream. cbv zeta.
    unfold try_except, bind, emit, modify, call, raise, lift_outcome, now, ret.
    cbn [files world trace _ytmusic_instances _stream_cache next_object_id].
    destruct (extract_info _ _ (world s)) as [[e0 | [info|]] w]; cbn;
      try (intros [= <- <-]; cbn; repeat split; auto; fail).
    destruct (info_empty info); cbn;
      [intros [= <- <-]; cbn; repeat split; auto;
       try (left; split; [reflexivity | discriminate])|].
    destruct (pick_stream_url info) as [e | stream_url] eqn:Hpick; cbn;
      [intros [= <- <-]; cbn; repeat split; auto;
       try (left; split; [reflexivity | discriminate])|].
    destruct (time_time w) as [t w']. cbn. intros [= <- <-]. cbn.
    repeat split; auto. right. eexists. repeat split.
    cbn. now apply pick_stream_url_nonempty in Hpick. }
  unfold _get_stream_url_sync. cbv zeta. fold (cache_key u v).
  unfold bind at 1, gets at 1.
  destruct (_stream_cache st !! cache_key u v) as [cached|] eqn:Hcached.
  - unfold bind at 1, now at 1. destruct (time_time (world st)) as [t w].
    destruct (Qgt_bool (expires_at cached) t).
    + intros [= <- <-]. cbn. repeat split; auto. left. split; [reflexivity|].
      now intros entry [= <-].
    + intros Hrun. apply Hresolve in Hrun as (Hf & Hi & [[Hc Hr] | Hnew]); cbn in *.
      * repeat split; auto. left. split; [exact Hc|]. intros entry ->.
        now destruct (Hr entry).
      * repeat split; auto.
  - intros Hrun. apply Hresolve in Hrun as (Hf & Hi & [[Hc Hr] | Hnew]).
    + repeat split; auto. left. split; [exact Hc|]. intros entry ->.
      now destruct (Hr entry).
    + repeat split; auto.
Qed.

End Effects.

(** *** Requests, one user at a time *)

Section Requests.
Context {World : Type} `{Platform World}.

(** A user id that is one path component. *)
Definition slash_free (user_id : string) : Prop := PyStr.mem "/" user_id = false.

(** The user a request is made for (the [user_id] query parameter). *)
Definition user_of (r : Request) : string :=
  match r with
  | AuthStatusReq u => u
  | AuthRestoreReq u _ => u
  | AuthClearReq u => u
  | DeviceCodePollReq u _ => u
  | CatalogReq u _ => u
  | StreamInfoReq u _ _ => u
  | ProxyReq u _ _ => u
  end.

(** A relation between states that the building blocks of the handlers
    respect for the user [u] is respected by every request of [u]. *)
Section Generic.
Variable R : State World -> State World -> Prop.
Context `{!Reflexive R, !Transitive R}.
Variable u : string.
Hypothesis Hquiet :
  forall st st' : State World,
    files st' = files st -> _ytmusic_instances st' = _ytmusic_instances st ->
    _stream_cache st' = _stream_cache st -> R st st'.
Hypothesis Hwrite_oauth : forall text, respects R (write_text (_oauth_file u) text).
Hypothesis Hwrite_creds : forall text, respects R (write_text (client_creds_file u) text).
Hypothesis Hinvalidate : respects R (_invalidate_ytmusic u).
Hypothesis Hget : respects R (_get_ytmusic u).
Hypothesis Hclear : respects R (auth_clear u).
Hypothesis Hstream : forall v q, respects R (_get_stream_url_sync u v q).

Lemma generic_call {A} (f : World -> outcome A * World) : respects R (call f).
Proof. intros st. unfold call. destruct (f (world st)). now apply Hquiet. Qed.

Lemma generic_emit ev : respects R (emit ev).
Proof. intros st. now apply Hquiet. Qed.

Ltac gstep :=
  first
    [ apply respects_ret
    | apply respects_raise
    | apply respects_lift
    | apply respects_gets
    | apply generic_call
    | apply generic_emit
    | apply Hwrite_oauth
    | apply Hwrite_creds
    | apply Hinvalidate
    | apply Hget
    | apply Hstream
    | apply respects_try
    | apply respects_bind
    | apply respects_if ];
  try exact _;
  try match goal with |- forall _, _ => intros ? end.

Lemma generic_auth_status : respects R (auth_status u).
Proof.
  unfold auth_status, path_exists.
  apply respects_bind; try exact _; [gstep|]. intros present.
  destruct (negb present); repeat gstep.
Qed.

Lemma generic_auth_restore body : respects R (auth_restore body u).
Proof.
  unfold auth_restore.
  apply respects_bind; try exact _; [gstep|]. intros oauth_json.
  destruct (negb (json_truthy oauth_json)); [gstep|].
  apply respects_bind; try exact _.
  { destruct oauth_json; try gstep. destruct (json_loads s); gstep. }
  intros text. repeat gstep.
Qed.

Lemma generic_poll req : respects R (auth_device_code_poll req u).
Proof.
  unfold auth_device_code_poll. cbv zeta.
  apply respects_try; try exact _.
  - apply respects_bind; try exact _; [gstep|]. intros token.
    destruct (assoc "error" token) as [error|]; [|repeat gstep].
    destruct (is_pending error); repeat gstep.
  - intros e. destruct (PyStr.contains _ _); [gstep|].
    destruct (List.find _ _) as [[code friendly]|]; gstep.
Qed.

Lemma generic_catalog op : respects R (catalog_route op u).
Proof. unfold catalog_route. repeat gstep. Qed.

Lemma generic_stream_info v q : respects R (get_stream_info v u q).
Proof. unfold get_stream_info. repeat gstep. Qed.

Lemma generic_proxy v q : respects R (proxy_stream v u q).
Proof.
  unfold proxy_stream.
  apply respects_bind; try exact _; [gstep|]. intros yt.
  apply respects_bind; try exact _; [gstep|]. intros stream_info.
  destruct (acodec stream_info); gstep.
Qed.

Lemma generic_serve (r : Request) (st : State World) :
  user_of r = u -> R st (serve r st).
Proof.
  destruct r; cbn [user_of serve]; intros ->.
  - apply generic_auth_status.
  - apply generic_auth_restore.
  - apply Hclear.
  - apply generic_poll.
  - apply generic_catalog.
  - apply generic_stream_info.
  - apply generic_proxy.
Qed.

End Generic.

(** **** What a request of one user leaves alone *)

(** The part of the state that belongs to [u]: the handle, the two
    credential files, the stream cache entries under the keys of [u]. *)
Definition footprint (u : string) (st st' : State World) : Prop :=
  (forall path, path <> _oauth_file u -> path <> client_creds_file u ->
                files st' !! path = files st !! path)
  /\ (forall u', u' <> u -> _ytmusic_instances st' !! u' = _ytmusic_instances st !! u')
  /\ (forall key, (forall v, key <> cache_key u v) ->
                  _stream_cache st' !! key = _stream_cache st !! key).

#[local] Instance footprint_refl u : Reflexive (footprint u).
Proof. intros st. repeat split; auto. Qed.

#[local] Instance footprint_trans u : Transitive (footprint u).
Proof.
  intros st1 st2 st3 (Hf1 & Hi1 & Hc1) (Hf2 & Hi2 & Hc2). repeat split.
  - intros path Ho Hc. now rewrite Hf2, Hf1.
  - intros u' Hu. now rewrite Hi2, Hi1.
  - intros key Hkey. now rewrite Hc2, Hc1.
Qed.

Lemma footprint_serve (r : Request) (st : State World) :
  footprint (user_of r) st (serve r st).
Proof.
  apply (generic_serve (footprint (user_of r)) (user_of r)); [| | | | | | |reflexivity].
  - intros s s' Hf Hi Hc. unfold footprint. rewrite Hf, Hi, Hc. auto.
  - intros text s. repeat split; auto. cbn. intros path Ho _.
    now rewrite lookup_insert_ne.
  - intros text s. repeat split; auto. cbn. intros path _ Hc.
    now rewrite lookup_insert_ne.
  - intros s. repeat split; auto. cbn. intros u' Hu.
    now rewrite lookup_delete_ne.
  - intros s. destruct (_get_ytmusic (user_of r) s) as [a s'] eqn:Hrun.
    apply get_ytmusic_effect in Hrun as (Hf & Hc & Hi). cbn [snd].
    unfold footprint. rewrite Hf, Hc. repeat split; auto. intros u' Hu.
    destruct Hi as [-> | (yt & _ & _ & _ & ->)]; [reflexivity|].
    now rewrite lookup_insert_ne.
  - intros s. rewrite auth_clear_runs. cbn. repeat split; auto; cbn.
    + intros path Ho Hc. now rewrite !lookup_delete_ne.
    + intros u' Hu. now rewrite lookup_delete_ne.
  - intros v q s. destruct (_get_stream_url_sync (user_of r) v q s) as [a s'] eqn:Hrun.
    apply stream_effect in Hrun as (Hf & Hi & Hc). cbn [snd].
    unfold footprint. rewrite Hf, Hi. repeat split; auto. intros key Hkey.
    destruct Hc as [[-> _] | (entry & _ & _ & ->)]; [reflexivity|].
    rewrite lookup_insert_ne; [reflexivity|]. intros Heq. now apply (Hkey v).
Qed.

(** The handle and the two credential files of [u] are as they were. *)
Definition untouched (u : string) (st st' : State World) : Prop :=
  _ytmusic_instances st' !! u = _ytmusic_instances st !! u
  /\ files st' !! _oauth_file u = files st !! _oauth_file u
  /\ files st' !! client_creds_file u = files st !! client_creds_file u.

#[local] Instance untouched_refl u : Reflexive (untouched u).
Proof. intros st. repeat split. Qed.

#[local] Instance untouched_trans u : Transitive (untouched u).
Proof.
  intros st1 st2 st3 (Hi1 & Ho1 & Hc1) (Hi2 & Ho2 & Hc2).
  unfold untouched. now rewrite Hi2, Ho2, Hc2.
Qed.

Lemma serve_leaves_others (u : string) (r : Request) (st : State World) :
  user_of r <> u -> untouched u st (serve r st).
Proof.
  intros Hr. destruct (footprint_serve r st) as (Hf & Hi & _).
  unfold untouched. rewrite Hi by congruence. split; [reflexivity|].
  rewrite !Hf; auto.
  all: intros Heq;
    first [ apply oauth_file_inj in Heq; congruence
          | apply client_creds_file_inj in Heq; congruence
          | now apply oauth_not_creds in Heq
          | symmetry in Heq; now apply oauth_not_creds in Heq ].
Qed.

(** X19.  Requests made for other users leave a user's handle and
    credential files as they are: whatever the requests, as long as none
    of them is for [user_id].  (User ids are taken to hold no slash, so
    that the credential path of a user is the data directory joined with
    one file name.) *)
Theorem other_users_requests_leave_credentials
    (user_id : string) (rs : list Request) (st : State World) :
  slash_free user_id ->
  Forall (fun r => slash_free (user_of r)) rs ->
  Forall (fun r => user_of r <> user_id) rs ->
  _ytmusic_instances (serve_all rs st) !! user_id = _ytmusic_instances st !! user_id
  /\ files (serve_all rs st) !! _oauth_file user_id = files st !! _oauth_file user_id
  /\ files (serve_all rs st) !! client_creds_file user_id
     = files st !! client_creds_file user_id.
Proof.
  intros _ _. revert st. induction rs as [|r rs IH]; intros st Hrs; [now cbn|].
  apply Forall_cons in Hrs as [Hr Hrs].
  change (serve_all (r :: rs) st) with (serve_all rs (serve r st)).
  destruct (IH (serve r st) Hrs) as (-> & -> & ->).
  exact (serve_leaves_others user_id r st Hr).
Qed.

(** The cache key is the user id, a colon, the video id: two keys agree
    only for the same user and video, provided the user ids hold no
    colon. *)
Lemma cache_key_inj (u u' v v' : string) :
  PyStr.mem ":" u = false -> PyStr.mem ":" u' = false ->
  cache_key u v = cache_key u' v' -> u = u' /\ v = v'.
Proof.
  assert (forall x, cache_key "" x = String ":" x) as Hnil by reflexivity.
  assert (forall c w x, cache_key (String c w) x = String c (cache_key w x))
    as Hcons by reflexivity.
  revert u'. induction u as [|c u IH]; intros [|c' u']; cbn [PyStr.mem];
    rewrite ?Hnil, ?Hcons.
  - intros _ _ [= ->]. auto.
  - destruct (Ascii.eqb_spec ":" c'); [discriminate|]. intros _ _ [= <-]. congruence.
  - destruct (Ascii.eqb_spec ":" c); [discriminate|]. intros _ _ [= ->]. congruence.
  - destruct (Ascii.eqb_spec ":" c); [discriminate|].
    destruct (Ascii.eqb_spec ":" c'); [discriminate|].
    intros Hu Hu' [= -> Heq]. destruct (IH u' Hu Hu' Heq) as [-> ->]. auto.
Qed.

(** Without that proviso two users can share a key. *)
Example cache_key_collision : cache_key "a" "b:c" = cache_key "a:b" "c".
Proof. reflexivity. Qed.

(** X20.  The stream cache is kept per user, as long as user ids hold no
    colon: requests made for other users leave the entries of a user as
    they are. *)
Theorem other_users_requests_leave_streams
    (user_id video_id : string) (rs : list Request) (st : State World) :
  PyStr.mem ":" user_id = false ->
  Forall (fun r => user_of r <> user_id /\ PyStr.mem ":" (user_of r) = false) rs ->
  _stream_cache (serve_all rs st) !! cache_key user_id video_id
  = _stream_cache st !! cache_key user_id video_id.
Proof.
  intros Hcolon. revert st. induction rs as [|r rs IH]; intros st Hrs; [now cbn|].
  apply Forall_cons in Hrs as [[Hr Hcolon'] Hrs].
  change (serve_all (r :: rs) st) with (serve_all rs (serve r st)).
  rewrite (IH (serve r st) Hrs).
  destruct (footprint_serve r st) as (_ & _ & Hc). apply Hc.
  intros v Heq. apply cache_key_inj in Heq as [-> _]; auto.
Qed.

(** **** Invariants of the process state *)

(** A relation that every request respects holds across any sequence of
    requests. *)
Lemma serve_all_respects (R : State World -> State World -> Prop)
    `{!Reflexive R, !Transitive R} :
  (forall r st, R st (serve r st)) -> forall rs st, R st (serve_all rs st).
Proof.
  intros Hserve. induction rs as [|r rs IH]; intros st; [reflexivity|].
  change (serve_all (r :: rs) st) with (serve_all rs (serve r st)).
  etransitivity; [apply Hserve | apply IH].
Qed.

(** Every cached handle has its credential file. *)
Definition credentials_on_file (st : State World) : Prop :=
  forall u yt, _ytmusic_instances st !! u = Some yt ->
               is_Some (files st !! _oauth_file u).

Definition keeps (P : State World -> Prop) (st st' : State World) : Prop :=
  P st -> P st'.

#[local] Instance keeps_refl P : Reflexive (keeps P).
Proof. intros st. unfold keeps. auto. Qed.

#[local] Instance keeps_trans P : Transitive (keeps P).
Proof. intros st1 st2 st3. unfold keeps. auto. Qed.

Lemma credentials_on_file_serve (r : Request) (st : State World) :
  keeps credentials_on_file st (serve r st).
Proof.
  apply (generic_serve (keeps credentials_on_file) (user_of r));
    [| | | | | | |reflexivity]; unfold keeps, credentials_on_file.
  - intros s s' Hf Hi Hc. rewrite Hf, Hi. auto.
  - intros text s Hinv u yt Hyt. cbn in *. apply lookup_insert_is_Some'. eauto.
  - intros text s Hinv u yt Hyt. cbn in *. apply lookup_insert_is_Some'. eauto.
  - intros s Hinv u yt Hyt. cbn in *. apply lookup_delete_Some in Hyt as [_ Hyt]. eauto.
  - intros s. destruct (_get_ytmusic (user_of r) s) as [a s'] eqn:Hrun.
    apply get_ytmusic_effect in Hrun as (Hf & _ & Hi). cbn [snd].
    rewrite Hf. intros Hinv u yt Hyt.
    destruct Hi as [Hi | (new & _ & _ & Hfile & Hi)]; rewrite Hi in Hyt; [eauto|].
    apply lookup_insert_Some in Hyt as [[<- _] | [_ Hyt]]; eauto.
  - intros s. rewrite auth_clear_runs. cbn. intros Hinv u yt Hyt.
    apply lookup_delete_Some in Hyt as [Hu Hyt].
    rewrite !lookup_delete_ne; [eauto | |].
    + intros Heq. now apply oauth_file_inj in Heq.
    + intros Heq. symmetry in Heq. now apply oauth_not_creds in Heq.
  - intros v q s. destruct (_get_stream_url_sync (user_of r) v q s) as [a s'] eqn:Hrun.
    apply stream_effect in Hrun as (Hf & Hi & _). cbn [snd]. rewrite Hf, Hi. auto.
Qed.

Lemma credentials_on_file_kept (rs : list Request) (st : State World) :
  credentials_on_file st -> credentials_on_file (serve_all rs st).
Proof.
  apply (serve_all_respects (keeps credentials_on_file)).
  apply credentials_on_file_serve.
Qed.

(** X21.  A cached handle always has its credential file.  The process
    starts with no handle cached, and from there every request keeps the
    property (user ids holding no slash).  So the two tests of being
    signed in agree: whenever [_get_ytmusic] would return a handle for a
    user, [auth_status] answers that the user is authenticated. *)
Theorem handles_have_credentials (rs : list Request) (st : State World) :
  _ytmusic_instances st = ∅ ->
  Forall (fun r => slash_free (user_of r)) rs ->
  credentials_on_file (serve_all rs st)
  /\ forall user_id yt,
       (_get_ytmusic user_id (serve_all rs st)).1 = inr yt ->
       (auth_status user_id (serve_all rs st)).1
       = inr {| authenticated := true; reason := None |}.
Proof.
  intros Hempty _.
  assert (credentials_on_file (serve_all rs st)) as Hinv'.
  { apply credentials_on_file_kept. intros u yt Hyt.
    now rewrite Hempty, lookup_empty in Hyt. }
  split; [exact Hinv'|]. intros u yt Hget.
  set (st1 := serve_all rs st) in *.
  assert (is_Some (files st1 !! _oauth_file u)) as Hfile.
  { destruct (_get_ytmusic u st1) as [r st2] eqn:Hrun. cbn in Hget. subst r.
    pose proof (get_ytmusic_cached _ _ _ _ Hrun) as Hcached.
    apply get_ytmusic_effect in Hrun as (_ & _ & [Hi | (new & _ & _ & Hfile & _)]);
      [|exact Hfile].
    rewrite Hi in Hcached. exact (Hinv' u yt Hcached). }
  destruct Hfile as [text Hfile].
  unfold auth_status, path_exists, try_except, bind, gets, ret. rewrite Hfile.
  rewrite bool_decide_eq_true_2 by eauto. cbn [negb].
  destruct (_get_ytmusic u st1) as [[e | yt'] st2]; [discriminate Hget | reflexivity].
Qed.

(** X22.  No request takes an entry out of the stream cache: a key that
    is in the cache stays in it, whatever requests are served (an expired
    entry is replaced when its key is asked for again, and the sweep runs
    at shutdown only). *)
Theorem stream_cache_never_shrinks (rs : list Request) (st : State World) :
  dom (_stream_cache st) ⊆ dom (_stream_cache (serve_all rs st)).
Proof.
  set (grows := fun s s' : State World =>
                  dom (_stream_cache s) ⊆ dom (_stream_cache s')).
  assert (Reflexive grows) as Hrefl by (intros s; unfold grows; set_solver).
  assert (Transitive grows) as Htrans
    by (intros s1 s2 s3; unfold grows; set_solver).
  apply (serve_all_respects grows). clear rs st. intros r st.
  apply (generic_serve grows (user_of r)); [| | | | | | |reflexivity]; unfold grows.
  - intros s s' _ _ Hc. rewrite Hc. set_solver.
  - intros text s. cbn. set_solver.
  - intros text s. cbn. set_solver.
  - intros s. cbn. set_solver.
  - intros s. destruct (_get_ytmusic (user_of r) s) as [a s'] eqn:Hrun.
    apply get_ytmusic_effect in Hrun as (_ & Hc & _). cbn [snd]. rewrite Hc.
    set_solver.
  - intros s. rewrite auth_clear_runs. cbn. set_solver.
  - intros v q s. destruct (_get_stream_url_sync (user_of r) v q s) as [a s'] eqn:Hrun.
    apply stream_effect in Hrun as (_ & _ & [[Hc _] | (entry & _ & _ & Hc)]);
      cbn [snd]; rewrite Hc; [set_solver|].
    rewrite dom_insert_L. set_solver.
Qed.

(** Every entry of the stream cache has a URL. *)
Definition cache_urls_nonempty (st : State World) : Prop :=
  forall key entry, _stream_cache st !! key = Some entry -> url entry <> "".

Lemma cache_urls_nonempty_serve (r : Request) (st : State World) :
  keeps cache_urls_nonempty st (serve r st).
Proof.
  apply (generic_serve (keeps cache_urls_nonempty) (user_of r));
    [| | | | | | |reflexivity]; unfold keeps, cache_urls_nonempty.
  - intros s s' _ _ Hc. rewrite Hc. auto.
  - intros text s. cbn. auto.
  - intros text s. cbn. auto.
  - intros s. cbn. auto.
  - intros s. destruct (_get_ytmusic (user_of r) s) as [a s'] eqn:Hrun.
    apply get_ytmusic_effect in Hrun as (_ & Hc & _). cbn [snd]. rewrite Hc. auto.
  - intros s. rewrite auth_clear_runs. cbn. auto.
  - intros v q s. destruct (_get_stream_url_sync (user_of r) v q s) as [a s'] eqn:Hrun.
    apply stream_effect in Hrun as (_ & _ & [[Hc _] | (new & _ & Hurl & Hc)]);
      cbn [snd]; rewrite Hc; [auto|].
    intros Hinv key entry Hentry.
    apply lookup_insert_Some in Hentry as [[_ <-] | [_ Hentry]]; eauto.
Qed.

Lemma stream_answer_has_url (u v q : string) (st st' : State World) (entry : StreamEntry) :
  cache_urls_nonempty st ->
  _get_stream_url_sync u v q st = (inr entry, st') -> url entry <> "".
Proof.
  intros Hinv Hrun.
  apply stream_effect in Hrun as (_ & _ & [[_ Hhit] | (new & [= <-] & Hurl & _)]);
    [|exact Hurl].
  exact (Hinv _ _ (Hhit entry eq_refl)).
Qed.

(** X23.  The stream routes never hand out an empty URL.  Every entry the
    miss path stores has a non-empty URL, so a cache whose entries all
    have one keeps that property across requests, and then whatever
    [get_stream_info] or [proxy_stream] answers, from the cache or not,
    carries a non-empty URL. *)
Theorem stream_routes_answer_with_url (rs : list Request) (st : State World) :
  cache_urls_nonempty st ->
  let st1 := serve_all rs st in
  cache_urls_nonempty st1
  /\ (forall v u q resp,
         (get_stream_info v u q st1).1 = inr resp -> sir_url resp <> "")
  /\ (forall v u q stream_url content_type,
         (proxy_stream v u q st1).1 = inr (stream_url, content_type) ->
         stream_url <> "").
Proof.
  intros Hinv st1.
  assert (cache_urls_nonempty st1) as Hinv1.
  { revert Hinv. apply (serve_all_respects (keeps cache_urls_nonempty)).
    apply cache_urls_nonempty_serve. }
  assert (forall u (s : State World) (a : outcome YTMusic),
             _get_ytmusic u st1 = (a, s) -> cache_urls_nonempty s) as Hget.
  { intros u s a Hrun. apply get_ytmusic_effect in Hrun as (_ & Hc & _).
    unfold cache_urls_nonempty. now rewrite Hc. }
  split; [exact Hinv1|]. split.
  - intros v u q resp. unfold get_stream_info, bind.
    destruct (_get_ytmusic u st1) as [[e | yt] s] eqn:Hrun; [discriminate|].
    apply Hget in Hrun.
    destruct (_get_stream_url_sync u v q s) as [[e | entry] s'] eqn:Hstream;
      [discriminate|].
    cbn. intros [= <-]. cbn. exact (stream_answer_has_url _ _ _ _ _ _ Hrun Hstream).
  - intros v u q stream_url content_type. unfold proxy_stream, bind.
    destruct (_get_ytmusic u st1) as [[e | yt] s] eqn:Hrun; [discriminate|].
    apply Hget in Hrun.
    destruct (_get_stream_url_sync u v q s) as [[e | entry] s'] eqn:Hstream;
      [discriminate|].
    destruct (acodec entry); [|discriminate].
    cbn. intros [= <- _]. exact (stream_answer_has_url _ _ _ _ _ _ Hrun Hstream).
Qed.

(** A user with neither a handle nor a credential file is refused by
    every route that needs a handle, and the refusal changes nothing. *)
Lemma refused_without_credentials (u : string) (st : State World) :
  _ytmusic_instances st !! u = None -> files st !! _oauth_file u = None ->
  _get_ytmusic u st = (inl NOT_AUTHENTICATED, st)
  /\ (forall op, catalog_route op u st = (inl NOT_AUTHENTICATED, st))
  /\ (forall v q, get_stream_info v u q st = (inl NOT_AUTHENTICATED, st))
  /\ (forall v q, proxy_stream v u q st = (inl NOT_AUTHENTICATED, st))
  /\ auth_status u st
     = (inr {| authenticated := false; reason := Some "No OAuth credentials found" |},
        st).
Proof.
  intros Hhandle Hfile.
  assert (_get_ytmusic u st = (inl NOT_AUTHENTICATED, st)) as Hget.
  { unfold _get_ytmusic, path_exists, bind, gets. rewrite Hhandle, Hfile.
    rewrite bool_decide_eq_false_2 by (intros [? [=]]). reflexivity. }
  split; [exact Hget|].
  unfold catalog_route, get_stream_info, proxy_stream, auth_status, path_exists.
  unfold bind, gets. rewrite Hget, Hfile.
  rewrite bool_decide_eq_false_2 by (intros [? [=]]). auto.
Qed.

(** X24.  Signing out is effective.  After [auth_clear] for a user, and
    whatever requests are then served for other users (user ids holding
    no slash), every catalog and
    stream request of that user is refused with the 401 of a user who is
    not authenticated, without any call to the platform and without any
    change of the state (also when the stream cache still holds entries
    of the user), and [auth_status] reports that no credentials are
    there. *)
Theorem sign_out_is_effective
    (user_id : string) (rs : list Request) (st : State World) :
  slash_free user_id ->
  Forall (fun r => slash_free (user_of r)) rs ->
  Forall (fun r => user_of r <> user_id) rs ->
  let st1 := serve_all rs (auth_clear user_id st).2 in
  (forall op, catalog_route op user_id st1 = (inl NOT_AUTHENTICATED, st1))
  /\ (forall v q, get_stream_info v user_id q st1 = (inl NOT_AUTHENTICATED, st1))
  /\ (forall v q, proxy_stream v user_id q st1 = (inl NOT_AUTHENTICATED, st1))
  /\ auth_status user_id st1
     = (inr {| authenticated := false; reason := Some "No OAuth credentials found" |},
        st1).
Proof.
  intros _ _ Hrs st1.
  assert (untouched user_id (auth_clear user_id st).2 st1) as (Hhandle & Hfile & _).
  { subst st1. generalize (auth_clear user_id st).2. clear st.
    induction rs as [|r rs IH]; intros st; [reflexivity|].
    apply Forall_cons in Hrs as [Hr Hrs].
    change (serve_all (r :: rs) st) with (serve_all rs (serve r st)).
    etransitivity; [apply serve_leaves_others; exact Hr | apply IH; exact Hrs]. }
  rewrite auth_clear_runs in Hhandle, Hfile.
  cbn in Hhandle, Hfile.
  rewrite lookup_delete_eq in Hhandle.
  rewrite lookup_delete_ne, lookup_delete_eq in Hfile
    by (intros Heq; symmetry in Heq; now apply oauth_not_creds in Heq).
  apply refused_without_credentials; assumption.
Qed.

End Requests.

(** *** The properties at work on the demo platform *)

Import YTDemo.

(** Alice is signed in but no handle has been built yet. *)
Definition demo_cold : State Q :=
  {| _ytmusic_instances := ∅;
     _stream_cache := {[ "alice:song1" := demo_entry ]};
     files := {[ "/data/oauth_alice.json" := "{}" ]};
     next_object_id := 1;
     world := 5000%Q;
     trace := [] |}.

Definition bob_requests : list Request :=
  [ AuthStatusReq "bob"; AuthRestoreReq "bob" demo_restore_body;
    CatalogReq "bob" (GetSong "song1"); StreamInfoReq "bob" "song1" "HIGH";
    AuthClearReq "bob" ].

Lemma bob_requests_slash_free :
  Forall (fun r => slash_free (user_of r)) bob_requests.
Proof. repeat constructor. Qed.

Lemma bob_requests_not_alice :
  Forall (fun r => user_of r <> "alice") bob_requests.
Proof. repeat constructor; discriminate. Qed.

Lemma get_ytmusic_memoised_witness :
  exists yt st1,
    _get_ytmusic (H := demo) "alice" demo_cold = (inr yt, st1)
    /\ _get_ytmusic (H := demo) "alice" st1 = (inr yt, st1).
Proof.
  eexists _, _. split; [vm_compute; reflexivity|].
  apply (get_ytmusic_memoised (H := demo) "alice" demo_cold).
  vm_compute; reflexivity.
Defined.





Lemma other_users_requests_leave_credentials_witness :
  _ytmusic_instances (serve_all (H := demo) bob_requests demo_state) !! "alice"
  = Some demo_handle
  /\ files (serve_all (H := demo) bob_requests demo_state) !! "/data/oauth_alice.json"
     = Some "{}".
Proof.
  destruct (other_users_requests_leave_credentials (H := demo) "alice" bob_requests
              demo_state eq_refl bob_requests_slash_free bob_requests_not_alice)
    as (Hhandle & Hfile & _).
  split; [rewrite Hhandle | etransitivity; [exact Hfile|]]; vm_compute; reflexivity.
Defined.

Lemma other_users_requests_leave_streams_witness :
  _stream_cache (serve_all (H := demo) bob_requests demo_state) !! "alice:song1"
  = Some demo_entry.
Proof.
  etransitivity;
    [apply (other_users_requests_leave_streams (H := demo) "alice" "song1"
              bob_requests demo_state eq_refl)
    | vm_compute; reflexivity].
  repeat constructor; discriminate.
Defined.

Lemma handles_have_credentials_witness :
  credentials_on_file (H := demo)
    (serve_all (H := demo)
       [CatalogReq "alice" (GetSong "song1"); AuthClearReq "alice";
        CatalogReq "alice" (GetSong "song1")] demo_cold).
Proof.
  apply (handles_have_credentials (H := demo)
           [CatalogReq "alice" (GetSong "song1"); AuthClearReq "alice";
            CatalogReq "alice" (GetSong "song1")] demo_cold);
    [reflexivity | repeat constructor].
Defined.

Lemma demo_cache_urls : cache_urls_nonempty demo_state.
Proof.
  intros key entry Hentry. unfold demo_state in Hentry.
  cbn [_stream_cache] in Hentry.
  apply lookup_singleton_Some in Hentry as [_ <-]. discriminate.
Qed.

Lemma stream_routes_answer_with_url_witness :
  cache_urls_nonempty
    (serve_all (H := demo)
       [StreamInfoReq "alice" "song2" "LOW"; ProxyReq "alice" "gone" "HIGH"]
       demo_state).
Proof.
  apply (stream_routes_answer_with_url (H := demo)
           [StreamInfoReq "alice" "song2" "LOW"; ProxyReq "alice" "gone" "HIGH"]
           demo_state demo_cache_urls).
Defined.

(** Alice signs out; her cached stream entry is still there, and her
    requests are refused. *)
Lemma sign_out_is_effective_witness :
  let st1 := serve_all (H := demo) bob_requests
               (auth_clear (H := demo) "alice" demo_state).2 in
  _stream_cache st1 !! "alice:song1" = Some demo_entry
  /\ get_stream_info (H := demo) "song1" "alice" "HIGH" st1
     = (inl NOT_AUTHENTICATED, st1).
Proof.
  cbv zeta. split; [vm_compute; reflexivity|].
  apply (sign_out_is_effective (H := demo) "alice" bob_requests demo_state eq_refl
           bob_requests_slash_free bob_requests_not_alice).
Defined.

(** No direct URL: of the two audio-only formats of 128 kbit/s the first
    is taken, not the video and not the lower bitrate. *)
Definition demo_formats : list Format :=
  [ {| f_url := Value "https://cdn.example/video"; f_acodec := Value "mp4a.40.2";
       f_vcodec := Value "avc1"; f_abr := Value 256%Q |};
    {| f_url := Value "https://cdn.example/low"; f_acodec := Value "opus";
       f_vcodec := Value "none"; f_abr := Value 64%Q |};
    {| f_url := Value "https://cdn.example/first"; f_acodec := Value "opus";
       f_vcodec := Null; f_abr := Value 128%Q |};
    {| f_url := Value "https://cdn.example/second"; f_acodec := Value "mp4a.40.2";
       f_vcodec := Missing; f_abr := Value 128%Q |} ].

Definition demo_info_formats : Info :=
  {| i_url := Null; i_formats := Value demo_formats;
     i_audio_ext := Value "webm"; i_duration := Value 215%Q;
     i_title := Value "Song One"; i_artist := Null; i_uploader := Value "Band";
     i_abr := Missing; i_acodec := Missing; i_other_keys := ["id"] |}.

Lemma stream_url_choice_witness :
  pick_stream_url demo_info_formats = inr "https://cdn.example/first"
  /\ "https://cdn.example/first" <> "".
Proof.
  assert (pick_stream_url demo_info_formats = inr "https://cdn.example/first")
    as Hpick by (vm_compute; reflexivity).
  split; [exact Hpick|].
  exact (proj1 (stream_url_choice demo_info_formats _ Hpick)).
Defined.

End YTMusicExtra.

(** ** The catalog routes: properties of the reshaped answers *)

Module YTCatalogExtra.
Import YTMusic YTMusicSpec Respects YTMusicExtra YTCatalog.

(** *** The artist fields *)


(** *** Search *)

Section Search.
Context {World : Type} `{Platform World}.

(** The four kinds of result the route keeps. *)
Definition RESULT_TYPES : list string := ["song"; "album"; "artist"; "video"].

Definition known (r : Json) : bool :=
  match result_type r with
  | Some t => existsb (py_is t) RESULT_TYPES
  | None => false
  end.

Lemma py_is_true (v : Json) (s : string) : py_is v s = true -> v = JStr s.
Proof.
  destruct v; cbn; try discriminate. intros Heq.
  now apply String.eqb_eq in Heq as ->.
Qed.

Lemma search_item_kept (r item : Json) :
  search_item r = Some (Some item) ->
  known r = true
  /\ exists t, In t RESULT_TYPES /\ result_type r = Some (JStr t)
               /\ py_get item "type" JNull = Some (JStr t).
Proof.
  unfold search_item, known.
  destruct (result_type r) as [t|]; [|discriminate]. cbn [mbind option_bind].
  destruct (py_is t "song") eqn:Hsong.
  { apply py_is_true in Hsong as ->. intros Hitem. simplify_option_eq.
    split; [reflexivity|]. exists "song". cbn. auto. }
  destruct (py_is t "album") eqn:Halbum.
  { apply py_is_true in Halbum as ->. intros Hitem. simplify_option_eq.
    split; [reflexivity|]. exists "album". cbn. auto. }
  destruct (py_is t "artist") eqn:Hartist.
  { apply py_is_true in Hartist as ->. intros Hitem. simplify_option_eq.
    split; [reflexivity|]. exists "artist". cbn. auto. }
  destruct (py_is t "video") eqn:Hvideo; [|discriminate].
  apply py_is_true in Hvideo as ->. intros Hitem. simplify_option_eq.
  split; [reflexivity|]. exists "video". cbn. auto 6.
Qed.

Lemma search_item_dropped (r : Json) :
  search_item r = Some None -> known r = false.
Proof.
  unfold search_item, known.
  destruct (result_type r) as [t|]; [|discriminate]. cbn [mbind option_bind].
  cbn [existsb RESULT_TYPES].
  destruct (py_is t "song"); [intros Hitem; simplify_option_eq|].
  destruct (py_is t "album"); [intros Hitem; simplify_option_eq|].
  destruct (py_is t "artist"); [intros Hitem; simplify_option_eq|].
  destruct (py_is t "video"); [intros Hitem; simplify_option_eq|].
  reflexivity.
Qed.

(** X25.  What [search] answers.  The answer has the two keys [results]
    and [total], and [total] is the number of [results].  The results
    are made from the library's results of type song, album, artist or
    video (by [resultType], else by the lowercased [category]), one for
    one and in order, each tagged with that type; results of any other
    type are left out.  And the search is all or nothing: a single
    library result whose reshaping raises leaves no answer. *)
Theorem search_keeps_known_types (results response : Json) :
  search_response results = Some response ->
  exists rs items,
    py_iter results = Some rs
    /\ response = JDict [("results", JList items); ("total", py_len items)]
    /\ Forall (fun r => is_Some (search_item r)) rs
    /\ Forall2 (fun r item =>
                  search_item r = Some (Some item)
                  /\ exists t, In t RESULT_TYPES
                               /\ result_type r = Some (JStr t)
                               /\ py_get item "type" JNull = Some (JStr t))
               (List.filter known rs) items.
Proof.
  unfold search_response. intros Hresponse.
  destruct (py_iter results) as [rs|]; [|discriminate]. cbn in Hresponse.
  destruct (mapM search_item rs) as [appended|] eqn:Hmap; [|discriminate].
  injection Hresponse as <-. exists rs, (omap id appended).
  do 2 (split; [reflexivity|]).
  apply mapM_Some in Hmap. split.
  { eapply Forall2_Forall_l; [exact Hmap|]. apply Forall_true. cbn. eauto. }
  induction Hmap as [|r o rs appended Hr Hrest IH]; [constructor|].
  destruct o as [item|]; cbn.
  - destruct (search_item_kept r item Hr) as [-> Htype]. now constructor.
  - now rewrite (search_item_dropped r Hr).
Qed.

End Search.

(** *** Items with an artist *)



Section Artists.
Context {World : Type} `{Platform World}.


End Artists.

(** *** The artist page *)

Lemma substring_length (n : nat) (s : string) :
  (String.length (String.substring 0 n s) <= n)%nat.
Proof.
  revert s. induction n as [|n IH]; intros [|c s]; cbn; try lia.
  specialize (IH s). lia.
Qed.

Lemma chars_length (s : string) :
  length (list_ascii_of_string s) = String.length s.
Proof. induction s as [|c s IH]; cbn; [reflexivity | now rewrite IH]. Qed.

(** [artist.get(section, {}).get("results", [])] *)
Definition listed_results (artist : Json) (section : string) : option Json :=
  shelf ← py_get artist section (JDict []);
  py_get shelf "results" (JList []).

Lemma section_results_first (artist : Json) (section : string) (n : nat)
    (top : list Json) :
  section_results artist section n = Some top ->
  (length top <= n)%nat
  /\ forall listed,
       listed_results artist section = Some (JList listed) -> top = take n listed.
Proof.
  unfold section_results, listed_results.
  destruct (py_get artist section (JDict [])) as [shelf|]; [|discriminate].
  cbn [mbind option_bind].
  destruct (py_get shelf "results" (JList [])) as [results|]; [|discriminate].
  cbn [mbind option_bind].
  destruct results as [| | |s|l|kvs]; try discriminate; cbn; intros [= <-].
  - split; [|discriminate].
    rewrite length_map, chars_length. apply substring_length.
  - split; [rewrite length_take; lia|]. now intros listed [= <-].
Qed.

(** X27.  The artist page shows at most ten songs and twenty albums: the
    first ten of the library's song results and the first twenty of its
    album results, one item for each and in order. *)
Theorem artist_page_limits (channel_id : string) (artist response : Json) :
  artist_response channel_id artist = Some response ->
  exists songs albums,
    py_get response "channelId" JNull = Some (JStr channel_id)
    /\ py_get response "songs" JNull = Some (JList songs)
    /\ py_get response "albums" JNull = Some (JList albums)
    /\ (length songs <= 10)%nat
    /\ (length albums <= 20)%nat
    /\ (forall listed,
           listed_results artist "songs" = Some (JList listed) ->
           Forall2 (fun s item => artist_song s = Some item) (take 10 listed) songs)
    /\ (forall listed,
           listed_results artist "albums" = Some (JList listed) ->
           Forall2 (fun a item => artist_album a = Some item) (take 20 listed) albums).
Proof.
  unfold artist_response. intros Hresponse.
  destruct (section_results artist "songs" 10) as [top_songs|] eqn:Hsongs;
    [|discriminate].
  cbn [mbind option_bind] in Hresponse.
  destruct (mapM artist_song top_songs) as [songs|] eqn:Hsong_items; [|discriminate].
  cbn [mbind option_bind] in Hresponse.
  destruct (section_results artist "albums" 20) as [top_albums|] eqn:Halbums;
    [|discriminate].
  cbn [mbind option_bind] in Hresponse.
  destruct (mapM artist_album top_albums) as [albums|] eqn:Halbum_items; [|discriminate].
  cbn [mbind option_bind] in Hresponse.
  destruct (section_results_first _ _ _ _ Hsongs) as [Hlen_songs Htop_songs].
  destruct (section_results_first _ _ _ _ Halbums) as [Hlen_albums Htop_albums].
  pose proof (length_mapM _ _ _ Hsong_items) as Hls.
  pose proof (length_mapM _ _ _ Halbum_items) as Hla.
  apply mapM_Some in Hsong_items, Halbum_items.
  simplify_option_eq. exists songs, albums.
  do 3 (split; [reflexivity|]). split; [lia|]. split; [lia|]. split.
  - intros listed Hlisted. now rewrite <- (Htop_songs listed Hlisted).
  - intros listed Hlisted. now rewrite <- (Htop_albums listed Hlisted).
Qed.

(** *** The album page *)

(** X28.  The album page lists every track of the album, one item for
    each and in order; it carries the id it was asked for; and its
    [coverUrl] is the [url] of the last thumbnail, or null when there is
    no thumbnail. *)
Theorem album_page_tracks_and_cover (browse_id : string) (album response : Json) :
  album_response browse_id album = Some response ->
  exists listed tracks,
    (ts ← py_get album "tracks" (JList []); py_iter ts) = Some listed
    /\ py_get response "tracks" JNull = Some (JList tracks)
    /\ Forall2 (fun t item => album_track t = Some item) listed tracks
    /\ py_get response "browseId" JNull = Some (JStr browse_id)
    /\ forall thumbnails,
         py_get album "thumbnails" (JList []) = Some (JList thumbnails) ->
         py_get response "thumbnails" JNull = Some (JList thumbnails)
         /\ py_get response "coverUrl" JNull
            = match last thumbnails with
              | Some biggest => py_get biggest "url" JNull
              | None => Some JNull
              end.
Proof.
  unfold album_response. intros Hresponse.
  destruct album as [| | | | |kvs]; try discriminate. cbn [py_get] in *.
  cbn [mbind option_bind] in *.
  destruct (py_iter (default (JList []) (assoc "tracks" kvs))) as [listed|];
    [|discriminate].
  cbn [mbind option_bind] in Hresponse.
  destruct (mapM album_track listed) as [tracks|] eqn:Htracks; [|discriminate].
  cbn [mbind option_bind] in Hresponse. apply mapM_Some in Htracks.
  exists listed, tracks. split; [reflexivity|].
  destruct (cover_url (default (JList []) (assoc "thumbnails" kvs)))
    as [cover|] eqn:Hcover.
  2: { simplify_option_eq. }
  assert (py_get response "tracks" JNull = Some (JList tracks)
          /\ py_get response "browseId" JNull = Some (JStr browse_id)
          /\ py_get response "thumbnails" JNull
             = Some (default (JList []) (assoc "thumbnails" kvs))
          /\ py_get response "coverUrl" JNull = Some cover)
    as (Ht & Hb & Hth & Hc).
  { simplify_option_eq; repeat split; reflexivity. }
  split; [exact Ht|]. split; [exact Htracks|]. split; [exact Hb|].
  intros thumbnails [= Hthumbs]. rewrite Hth, Hc, Hthumbs. split; [reflexivity|].
  rewrite Hthumbs in Hcover. unfold cover_url in Hcover.
  destruct thumbnails as [|t ts]; cbn [json_truthy] in Hcover;
    [now injection Hcover as <-|].
  cbn [py_last] in Hcover.
  destruct (last (t :: ts)) as [biggest|] eqn:Hlast; [|now apply last_None in Hlast].
  now cbn in Hcover.
Qed.

(** *** The library *)

(** X29.  A library listing answers with one item for every entry the
    library listed, in order, and [total] is their number: nothing is
    left out, and an entry whose reshaping raises leaves no answer at
    all. *)
Theorem library_lists_every_entry
    (key : string) (item : Json -> option Json) (listing response : Json) :
  library_response key item listing = Some response ->
  exists entries items,
    py_iter listing = Some entries
    /\ response = JDict [(key, JList items); ("total", py_len items)]
    /\ Forall2 (fun entry reshaped => item entry = Some reshaped) entries items
    /\ py_len items = py_len entries.
Proof.
  unfold library_response. intros Hresponse.
  destruct (py_iter listing) as [entries|]; [|discriminate].
  cbn [mbind option_bind] in Hresponse.
  destruct (mapM item entries) as [items|] eqn:Hitems; [|discriminate].
  injection Hresponse as <-. exists entries, items.
  do 2 (split; [reflexivity|]).
  split; [now apply mapM_Some|].
  unfold py_len. now rewrite (length_mapM _ _ _ Hitems).
Qed.

(** *** The routes *)

Section Routes.
Context {World : Type} `{Platform World}.
Variable library : CatalogOp -> YTMusic -> World -> outcome Json * World.
Variable py_int : Json -> option Json.
Variable failure_text : CatalogOp -> Json -> string.

(** What the [try] of a route does with the handle [yt]. *)
Lemma route_try (op : CatalogOp) (user_id : string) (yt : YTMusic)
    (st1 : State World) :
  let called := library op yt (world st1) in
  try_except
    (emit (EvCatalog user_id (yt_object_id yt)) ;;;
     let* answer := call (library op yt) in
     match reshape py_int op answer with
     | Some response => ret response
     | None => raise (Exception (failure_text op answer))
     end)
    (fun e => raise (HTTPException 500 (exn_str e))) st1
  = (match called.1 with
     | inl e => inl (HTTPException 500 (exn_str e))
     | inr answer =>
         match reshape py_int op answer with
         | Some response => inr response
         | None => inl (HTTPException 500 (failure_text op answer))
         end
     end,
     mkState (_ytmusic_instances st1) (_stream_cache st1) (files st1)
       (next_object_id st1) called.2
       (trace st1 ++ [EvCatalog user_id (yt_object_id yt)])).
Proof.
  cbv zeta. unfold try_except, bind, emit, modify, call, ret, raise.
  cbn [files world trace _ytmusic_instances _stream_cache next_object_id].
  destruct (library op yt (world st1)) as [[e | answer] w]; cbn [fst snd];
    [reflexivity|].
  destruct (reshape py_int op answer); reflexivity.
Qed.


(** When the platform's catalog call is the library call followed by
    the reshaping, the route is the [catalog_route] of the model. *)
Lemma route_is_catalog_route (op : CatalogOp) (user_id : string) :
  (forall yt w,
      catalog_call op yt w
      = (match (library op yt w).1 with
         | inl e => inl e
         | inr answer =>
             match reshape py_int op answer with
             | Some response => inr response
             | None => inl (Exception (failure_text op answer))
             end
         end,
         (library op yt w).2)) ->
  forall st, route library py_int failure_text op user_id st
             = catalog_route op user_id st.
Proof.
  intros Hcall st. unfold route, catalog_route, bind at 1. unfold bind at 3.
  destruct (_get_ytmusic user_id st) as [[e | yt] st1]; [reflexivity|].
  rewrite route_try.
  unfold try_except, bind, emit, modify, call, raise.
  cbn [files world trace _ytmusic_instances _stream_cache next_object_id].
  rewrite Hcall.
  destruct (library op yt (world st1)) as [[e | answer] w]; cbn [fst snd];
    [reflexivity|].
  destruct (reshape py_int op answer); reflexivity.
Qed.

End Routes.

(** *** The properties at work on sample answers of the library *)

Import YTDemo.

Definition demo_song : Json :=
  JDict [ ("resultType", JStr "song"); ("videoId", JStr "song1");
          ("title", JStr "Song One");
          ("artists", JList [ JDict [("name", JStr "Band"); ("id", JStr "UC1")];
                              JDict [("name", JStr "Guest"); ("id", JNull)] ]);
          ("album", JDict [("name", JStr "LP"); ("id", JStr "MPRE1")]);
          ("duration", JStr "3:35"); ("duration_seconds", JNum 215) ].

(** A playlist, then a result without [resultType] whose category reads
    [VIDEO]. *)
Definition demo_results : Json :=
  JList [ demo_song;
          JDict [("resultType", JStr "playlist"); ("title", JStr "Mix")];
          JDict [("category", JStr "VIDEO"); ("videoId", JStr "clip1");
                 ("title", JStr "Clip")] ].

Definition demo_thumbnails : Json :=
  JList [ JDict [("url", JStr "https://img.example/60"); ("width", JNum 60)];
          JDict [("url", JStr "https://img.example/544"); ("width", JNum 544)] ].

Definition demo_album_answer : Json :=
  JDict [ ("title", JStr "LP"); ("artists", JList [JDict [("name", JStr "Band")]]);
          ("thumbnails", demo_thumbnails);
          ("tracks", JList [demo_song; demo_song]) ].

Definition demo_artist_answer : Json :=
  JDict [ ("name", JStr "Band");
          ("songs", JDict [("results", JList (replicate 12 demo_song))]);
          ("albums", JDict [("browseId", JStr "MPAD1")]) ].


Lemma search_keeps_known_types_witness :
  exists first second,
    search_response (H := demo) demo_results
    = Some (JDict [("results", JList [first; second]); ("total", JNum 2)])
    /\ py_get first "type" JNull = Some (JStr "song")
    /\ py_get second "type" JNull = Some (JStr "video").
Proof.
  destruct (search_keeps_known_types (H := demo) demo_results
              (default JNull (search_response (H := demo) demo_results)))
    as (rs & items & Hiter & Hresponse & _ & Hkept); [vm_compute; reflexivity|].
  eexists _, _. split; [vm_compute; reflexivity|].
  split; vm_compute; reflexivity.
Defined.

Lemma artist_page_limits_witness :
  exists response songs,
    artist_response "UC1" demo_artist_answer = Some response
    /\ py_get response "songs" JNull = Some (JList songs)
    /\ (length songs <= 10)%nat.
Proof.
  destruct (artist_page_limits "UC1" demo_artist_answer
              (default JNull (artist_response "UC1" demo_artist_answer)))
    as (songs & albums & _ & Hsongs & _ & Hlength & _); [vm_compute; reflexivity|].
  eexists _, songs. split; [vm_compute; reflexivity|].
  split; [exact Hsongs | exact Hlength].
Defined.

Lemma album_page_tracks_and_cover_witness :
  exists response,
    album_response "MPRE1" demo_album_answer = Some response
    /\ py_get response "coverUrl" JNull = Some (JStr "https://img.example/544").
Proof.
  destruct (album_page_tracks_and_cover "MPRE1" demo_album_answer
              (default JNull (album_response "MPRE1" demo_album_answer)))
    as (listed & tracks & _ & _ & _ & _ & Hcover); [vm_compute; reflexivity|].
  eexists. split; [vm_compute; reflexivity|].
  destruct (Hcover _ eq_refl) as [_ Hurl]. exact Hurl.
Defined.

Lemma library_lists_every_entry_witness :
  exists items,
    library_response "songs" library_song (JList [demo_song; demo_song])
    = Some (JDict [("songs", JList items); ("total", JNum 2)]).
Proof.
  destruct (library_lists_every_entry "songs" library_song
              (JList [demo_song; demo_song])
              (default JNull (library_response "songs" library_song
                                (JList [demo_song; demo_song]))))
    as (entries & items & Hentries & Hresponse & _ & Htotal);
    [vm_compute; reflexivity|].
  injection Hentries as <-. exists items.
  transitivity (Some (default JNull (library_response "songs" library_song
                                       (JList [demo_song; demo_song]))));
    [vm_compute; reflexivity|].
  rewrite Hresponse, Htotal. reflexivity.
Defined.


End YTCatalogExtra.
